(** * silence-srt: the timeline reconciliation of [silence-srt.py]

    A shallow embedding of the functions of [silence-srt.py] that decide the
    specification's statements about timestamps, the silence builder and the
    two reconciliation modes.

    Modelling conventions.
    - A Python [float] holding seconds is a rational number ([Q]): every
      comparison of the source is the same comparison on [Q], and the two
      arithmetic operations on times ([+ analysis_window], [- analysis_window],
      and the duration [end - start]) are exact.  The rounding of binary
      floating point is outside this model.
    - A Python [str] is a [string] of 8-bit characters (code points below
      256, where the only decimal digits are '0'..'9').
    - A list that the source indexes and mutates in place ([full_list]) is a
      [list] read with [!!] and written with [<[i:=x]>].
    - [raise ValueError] is an explicit error result. *)

From Stdlib Require Import QArith Lqa ZArith Lia Bool Ascii String List.
From Stdlib Require Import DecimalString DecimalPos Qround Sorted.
From stdpp Require Import base list.
Import ListNotations.

Local Open Scope Q_scope.

(** ** Comparisons on seconds *)

(** [x < y] on floats, as a boolean. *)
Definition Qltb (x y : Q) : bool :=
  match x ?= y with
  | Lt => true
  | _ => false
  end.

(** ** Stable sorting ([list.sort(key=...)]) *)

(** Python's [list.sort] is stable: elements with equal keys keep their
    relative order.  For a key with a total order the result is the one
    computed by insertion from the right, where an element is put in front of
    the first element whose key is not smaller than its own. *)
Section StableSort.
Context {A : Type} (key_lt : A -> A -> bool).

Fixpoint insert_sorted (x : A) (l : list A) : list A :=
  match l with
  | [] => [x]
  | y :: l' => if key_lt y x then y :: insert_sorted x l' else x :: y :: l'
  end.

Fixpoint stable_sort (l : list A) : list A :=
  match l with
  | [] => []
  | x :: l' => insert_sorted x (stable_sort l')
  end.

End StableSort.

(** The comparison of a sort with [key=lambda x: ...] on seconds. *)
Definition key_ltb {A : Type} (key : A -> Q) (a b : A) : bool :=
  Qltb (key a) (key b).

(** Keys in ascending order. *)
Definition ascending {A : Type} (key : A -> Q) (l : list A) : Prop :=
  StronglySorted (fun a b => key a <= key b) l.

(** In [l] an element that is not [first] comes before an element that is
    [first] only when its key is smaller. *)
Definition grouped {A : Type} (key : A -> Q) (first : A -> bool)
    (l : list A) : Prop :=
  StronglySorted
    (fun x y => first x = false -> first y = true -> key x < key y) l.

(** ** [time_to_seconds] *)

Module Time.

(** [\d] on 8-bit characters. *)
Definition is_digit (c : ascii) : bool :=
  ((48 <=? nat_of_ascii c) && (nat_of_ascii c <=? 57))%nat.

Definition digit_value (c : ascii) : Z := Z.of_nat (nat_of_ascii c) - 48.

(** [int(s)] for a string of decimal digits. *)
Definition int_of_digits (s : string) : Z :=
  fold_left (fun acc c => 10 * acc + digit_value c)%Z (list_ascii_of_string s) 0%Z.

(** A greedy run of [\d]: the longest prefix of digits, and what follows
    it. *)
Fixpoint span_digits (s : string) : string * string :=
  match s with
  | String c s' =>
      if is_digit c
      then let '(ds, rest) := span_digits s' in (String c ds, rest)
      else (EmptyString, s)
  | EmptyString => (EmptyString, EmptyString)
  end.

Definition is_sep (c : ascii) : bool :=
  (Ascii.eqb c ","%char || Ascii.eqb c "."%char)%bool.

Definition is_colon (c : ascii) : bool := Ascii.eqb c ":"%char.

(** The groups of a successful match. *)
Record groups := Groups {
  g_hours : string; g_minutes : string; g_seconds : string; g_ms : string }.

(** [:(\d{2}):(\d{2})[,.](\d+)] matched at the start of [s], after the hours. *)
Definition match_tail (hours : string) (s : string) : option groups :=
  match s with
  | String c0 (String m1 (String m2 (String c1 (String s1 (String s2
      (String p rest)))))) =>
      if (is_colon c0 && is_digit m1 && is_digit m2 && is_colon c1
          && is_digit s1 && is_digit s2 && is_sep p)%bool
      then
        let '(ms_str, _) := span_digits rest in
        match ms_str with
        | EmptyString => None
        | _ => Some (Groups hours (String m1 (String m2 EmptyString))
                       (String s1 (String s2 EmptyString)) ms_str)
        end
      else None
  | _ => None
  end.

(** [re.match(r"(\d{1,2}):(\d{2}):(\d{2})[,.](\d+)", time_str)]: the pattern
    is anchored at the start of the string only.  [\d{1,2}] first takes two
    digits and falls back to one. *)
Definition re_match (time_str : string) : option groups :=
  match time_str with
  | String h1 rest1 =>
      if is_digit h1 then
        let one := match_tail (String h1 EmptyString) rest1 in
        match rest1 with
        | String h2 rest2 =>
            if is_digit h2 then
              match match_tail (String h1 (String h2 EmptyString)) rest2 with
              | Some g => Some g
              | None => one
              end
            else one
        | EmptyString => one
        end
      else None
  | EmptyString => None
  end.

(** [s.ljust(3, '0')]. *)
Definition ljust3 (s : string) : string :=
  (s ++ string_of_list_ascii (repeat "0"%char (3 - String.length s)))%string.

(** [s[:3]]. *)
Definition first3 (s : string) : string := String.substring 0 3 s.

(** [time_to_seconds]; [None] stands for the raised [ValueError]. *)
Definition time_to_seconds (time_str : string) : option Q :=
  match re_match time_str with
  | None => None
  | Some g =>
      let ms := int_of_digits (first3 (ljust3 (g_ms g))) in
      Some (inject_Z (int_of_digits (g_hours g) * 3600
                      + int_of_digits (g_minutes g) * 60
                      + int_of_digits (g_seconds g))
            + inject_Z ms / 1000)
  end.

(** *** The shape of a timestamp *)

(** A string of decimal digits only. *)
Definition all_digits (s : string) : bool :=
  forallb is_digit (list_ascii_of_string s).

Definition starts_with_digit (s : string) : bool :=
  match s with
  | String c _ => is_digit c
  | EmptyString => false
  end.

(** The parts of [H:MM:SS] or [HH:MM:SS], a comma or a dot, and one or more
    digits. *)
Definition timestamp_parts (h m sec : string) (sep : ascii) (frac : string)
    : Prop :=
  all_digits h = true /\ (String.length h = 1 \/ String.length h = 2)%nat
  /\ all_digits m = true /\ String.length m = 2%nat
  /\ all_digits sec = true /\ String.length sec = 2%nat
  /\ is_sep sep = true
  /\ all_digits frac = true /\ frac <> EmptyString.

Definition timestamp (h m sec : string) (sep : ascii) (frac : string) : string :=
  (h ++ ":" ++ m ++ ":" ++ sec ++ String sep frac)%string.

(** The seconds a timestamp stands for: the fraction counts milliseconds, read
    from its first three digits, with zeros put after fewer than three. *)
Definition timestamp_value (h m sec frac : string) : Q :=
  inject_Z (int_of_digits h * 3600 + int_of_digits m * 60 + int_of_digits sec)
  + inject_Z (int_of_digits (String.substring 0 3 (frac ++ "00")%string)) / 1000.

End Time.

(** ** Subtitle records *)

(** A dictionary built by [parse_srt], and a record written to the output
    file (before its times are formatted). *)
Record segment := Seg {
  index : Z; start_time : Q; end_time : Q; text : string }.

(** The last statement of [parse_srt]:
    [segments.sort(key=lambda x: x['index'])]. *)
Definition parse_srt (matched : list segment) : list segment :=
  stable_sort (fun a b => (index a <? index b)%Z) matched.

(** Indices in ascending order, as [parse_srt] leaves them. *)
Definition index_ascending (l : list segment) : Prop :=
  StronglySorted (fun a b => (index a <= index b)%Z) l.

(** ** The silence builder ([main], the loop over [audio_events]) *)

Module Builder.

(** [analysis_window = 0.01  # 10 ms] *)
Definition analysis_window : Q := 1 # 100.

(** The command line's default for [--min_silence_dur]. *)
Definition default_min_silence_dur : Q := 5 # 100.

(** An [AudioRegion] of auditok, reduced to the two fields the loop reads. *)
Record region := Region { r_start : Q; r_end : Q }.

(** The variables the loop updates. *)
Record state := State { cur_pos : Q; silence_segments : list (Q * Q) }.

Definition init : state := State 0 [].

(** One iteration of [for i, r in enumerate(audio_events)] when [negate] is
    off.  [start += analysis_window if start > 0 else 0] leaves [start] as
    it is when the cursor is not positive. *)
Definition step (min_silence_dur : Q) (st : state) (r : region) : state :=
  let start := cur_pos st in
  let end_ := r_start r in
  let cur_pos' := r_end r in
  let start := if Qltb 0 start then start + analysis_window else start in
  let end_ := end_ - analysis_window in
  if Qltb (end_ - start) min_silence_dur
  then State cur_pos' (silence_segments st)                         (* continue *)
  else State cur_pos' (silence_segments st ++ [(start, end_)]).

(** The whole loop.  With [--negate] the loop only reports the events and
    [silence_segments] stays empty. *)
Definition run (negate : bool) (min_silence_dur : Q)
    (audio_events : list region) : state :=
  if negate then init
  else fold_left (step min_silence_dur) audio_events init.

Definition build (min_silence_dur : Q) (audio_events : list region)
    : list (Q * Q) :=
  silence_segments (run false min_silence_dur audio_events).

(** The events the detector delivers: each one starts before it ends, none
    starts before the end of the previous one, and none before time 0. *)
Fixpoint ordered_from (cursor : Q) (audio_events : list region) : Prop :=
  match audio_events with
  | [] => True
  | r :: rest =>
      cursor <= r_start r /\ r_start r < r_end r /\ ordered_from (r_end r) rest
  end.

Definition valid_events (audio_events : list region) : Prop :=
  ordered_from 0 audio_events.

(** Segment [a] lies wholly before segment [b], and starts before it. *)
Definition before (a b : Q * Q) : Prop := snd a < fst b /\ fst a < fst b.

(** What holds of the loop's variables between two iterations. *)
Definition builder_inv (min : Q) (st : state) : Prop :=
  0 <= cur_pos st
  /\ (silence_segments st = [] \/ 0 < cur_pos st)
  /\ Forall (fun a => fst a < cur_pos st + analysis_window
                      /\ snd a < cur_pos st) (silence_segments st)
  /\ StronglySorted before (silence_segments st)
  /\ Forall (fun a => min <= snd a - fst a) (silence_segments st).

End Builder.

(** ** Subtract-only mode ([main], [if args.subtract_only:]) *)

Module Subtract.

(** [while index < len(silence_segments) and silence_segments[index][1] < bound:
       index += 1].
    Every iteration increases [index], so [len(silence_segments) - index]
    iterations are enough; [advance_exit] below shows that the loop leaves by
    its own test. *)
Fixpoint advance_loop (fuel : nat) (silence_segments : list (Q * Q))
    (index : nat) (bound : Q) : nat :=
  match fuel with
  | O => index
  | S fuel' =>
      match silence_segments !! index with
      | Some (_, silence_end) =>
          if Qltb silence_end bound
          then advance_loop fuel' silence_segments (index + 1) bound
          else index
      | None => index
      end
  end.

Definition advance (silence_segments : list (Q * Q)) (index : nat) (bound : Q)
    : nat :=
  advance_loop (length silence_segments - index) silence_segments index bound.

(** The body of [for s in segments], up to the record it writes. *)
Definition adjust (silence_segments : list (Q * Q)) (index : nat) (s : segment)
    : nat * segment :=
  let 'Seg s_index start end_ s_text := s in
  let index := advance silence_segments index start in
  let start :=
    match silence_segments !! index with
    | Some (silence_start, silence_end) =>
        if (Qltb silence_start start && Qltb start silence_end
            && Qltb silence_end end_)%bool
        then silence_end else start
    | None => start
    end in
  let index := advance silence_segments index end_ in
  let end_ :=
    match silence_segments !! index with
    | Some (silence_start, silence_end) =>
        if (Qltb start silence_start && Qltb end_ silence_end
            && Qltb silence_start end_)%bool
        then silence_start else end_
    | None => end_
    end in
  (index, Seg s_index start end_ s_text).

End Subtract.

(** The loop over the segments: the pointer into [silence_segments] is kept
    from one segment to the next, and every segment is written. *)
Definition subtract_step (silence_segments : list (Q * Q))
    (st : nat * list segment) (s : segment) : nat * list segment :=
  let '(index, written) := st in
  let '(index, s') := Subtract.adjust silence_segments index s in
  (index, written ++ [s']).

(** The records written to the output file in subtract-only mode.  When
    [parse_srt] yields nothing, [main] returns and the file stays empty. *)
Definition subtract_only (silence_segments : list (Q * Q))
    (matched : list segment) : list segment :=
  let segments := parse_srt matched in
  snd (fold_left (subtract_step silence_segments) segments (0%nat, [])).

(** A written record keeps the index and the text of its segment and lies
    within its times. *)
Definition within (s o : segment) : Prop :=
  index o = index s /\ text o = text s
  /\ start_time s <= start_time o /\ end_time o <= end_time s.

(** Each silence segment ends before every later one starts. *)
Definition apart (silence_segments : list (Q * Q)) : Prop :=
  StronglySorted (fun a b => snd a < fst b) silence_segments.

(** Where the loop stops: everything it went over ends before [bound], and
    the silence it stops at, if any, does not. *)
Definition stops_at (S : list (Q * Q)) (bound : Q) (i j : nat) : Prop :=
  (i <= j)%nat
  /\ (forall k, (i <= k < j)%nat -> exists x, S !! k = Some x /\ snd x < bound)
  /\ match S !! j with Some x => bound <= snd x | None => True end.

(** ** Expand/subtract mode ([main], the [else] branch) *)

Module Expand.

(** An element of [full_list]: a dictionary whose ['kind'] is ['segment'] or
    ['silence']. *)
Inductive entry :=
| Segment (start end_ : Q) (text : string) (index : Z)
| Silence (start end_ : Q).

Definition e_start (e : entry) : Q :=
  match e with Segment start _ _ _ => start | Silence start _ => start end.

Definition e_end (e : entry) : Q :=
  match e with Segment _ end_ _ _ => end_ | Silence _ end_ => end_ end.

Definition is_segment (e : entry) : bool :=
  match e with Segment _ _ _ _ => true | Silence _ _ => false end.

Definition is_silence (e : entry) : bool := negb (is_segment e).

Definition of_segment (s : segment) : entry :=
  Segment (start_time s) (end_time s) (text s) (index s).

Definition of_silence (s : Q * Q) : entry := Silence (fst s) (snd s).

(** [full_list]: the subtitle segments are appended first, then the silence
    segments, and the list is sorted by ['start']. *)
Definition merge (segments : list segment) (silence_segments : list (Q * Q))
    : list entry :=
  stable_sort (fun a b => Qltb (e_start a) (e_start b))
    (map of_segment segments ++ map of_silence silence_segments).

(** A silence entry is never followed by a subtitle entry with the same
    start. *)
Definition tie_ok (x y : entry) : Prop :=
  is_silence x = true -> is_segment y = true -> ~ e_start y == e_start x.

(** An entry of [non_speech_srt_entries]. *)
Record ns_entry := NsEntry {
  ns_index : Z; ns_start_time : Q; ns_end_time : Q; ns_text : string }.

(** What the walk reads from outside: whether
    [args.non_speech_dir and loaded_audio_for_ns] holds, and whether slicing
    and saving the clip with a given number and range succeeds (the [try]
    around it logs a failure and goes on). *)
Record audio_io := AudioIO {
  non_speech_on : bool;
  save_ok : Z -> Q -> Q -> bool }.

(** The variables of the walk. *)
Record state := State {
  full_list : list entry;
  written : list segment;
  non_speech_srt_entries : list ns_entry;
  non_speech_file_counter : Z }.

(** [str(i)] for an integer. *)
Definition str (i : Z) : string := NilZero.string_of_int (Z.to_int i).

(** [str(obj['index']) + " " + obj['text'] if obj else sentinel]. *)
Definition idx_text (obj : option entry) (sentinel : string) : string :=
  match obj with
  | Some (Segment _ _ text index) => (str index ++ " " ++ text)%string
  | _ => sentinel
  end.

(** [for i in range(index - 1, -1, -1)]: the nearest segment before [index]. *)
Definition prev_asr_segment (fl : list entry) (index : nat) : option entry :=
  List.find is_segment (rev (take index fl)).

(** [for i in range(index + 2, len(full_list))]: the nearest segment from
    [index + 2] on. *)
Definition next_asr_segment (fl : list entry) (index : nat) : option entry :=
  List.find is_segment (drop (index + 2) fl).

Definition srt_text (fl : list entry) (index : nat) : string :=
  ("Non-speech segment detected between segment '"
   ++ idx_text (prev_asr_segment fl index) "start of audio"
   ++ "' and segment '"
   ++ idx_text (next_asr_segment fl index) "end of audio" ++ "'.")%string.

(** The result of one iteration: go on, or the [ValueError] of an invalid
    segment with the two times of its message. *)
Inductive outcome :=
| Continue
| Raised (start end_ : Q).

(** [s['start']] after
    [if index - 1 >= 0 and full_list[index - 1]['kind'] == 'silence'
        and full_list[index - 1]['end'] < s['end']:
       s['start'] = full_list[index - 1]['end']]. *)
Definition new_start (fl : list entry) (index : nat) (start end_ : Q) : Q :=
  match (if (1 <=? index)%nat then fl !! (index - 1)%nat else None) with
  | Some (Silence _ prev_end) => if Qltb prev_end end_ then prev_end else start
  | _ => start
  end.

(** [s['end']] after
    [if index + 1 < len(full_list) and full_list[index + 1]['kind'] == 'silence':
       s['end'] = full_list[index + 1]['start']]. *)
Definition new_end (fl : list entry) (index : nat) (end_ : Q) : Q :=
  match fl !! (index + 1)%nat with
  | Some (Silence next_start _) => next_start
  | _ => end_
  end.

(** The body of [while index < len(full_list)] at position [index].  The
    segment is updated in [full_list] before its times are checked. *)
Definition body (io : audio_io) (index : nat) (st : state) : state * outcome :=
  let fl := full_list st in
  match fl !! index with
  | Some (Segment start end_ text idx) =>
      let start := new_start fl index start end_ in
      let end_ := new_end fl index end_ in
      let fl := <[index := Segment start end_ text idx]> fl in
      if Qltb end_ start
      then (State fl (written st) (non_speech_srt_entries st)
              (non_speech_file_counter st), Raised start end_)
      else (State fl (written st ++ [Seg idx start end_ text])
              (non_speech_srt_entries st) (non_speech_file_counter st),
            Continue)
  | Some (Silence _ s_end) =>
      match fl !! (index + 1)%nat with
      | Some (Silence next_start _) =>
          let ns_start_time := s_end + Builder.analysis_window in
          let ns_end_time := next_start - Builder.analysis_window in
          if Qltb ns_start_time ns_end_time
          then
            if (non_speech_on io
                && save_ok io (non_speech_file_counter st)
                     ns_start_time ns_end_time)%bool
            then (State fl (written st)
                    (non_speech_srt_entries st
                     ++ [NsEntry (non_speech_file_counter st) ns_start_time
                           ns_end_time (srt_text fl index)])
                    (non_speech_file_counter st + 1)%Z, Continue)
            else (st, Continue)
          else (st, Continue)                                     (* WARN *)
      | _ => (st, Continue)
      end
  | None => (st, Continue)
  end.

(** The walk: [index] starts at 0 and is increased once at the end of every
    iteration, and the length of [full_list] never changes, so the [while]
    loop visits the positions [0 .. len(full_list) - 1] in order.  It stops
    at the first [raise]. *)
Fixpoint walk_from (io : audio_io) (indices : list nat) (st : state)
    : state * outcome :=
  match indices with
  | [] => (st, Continue)
  | index :: indices' =>
      match body io index st with
      | (st', Continue) => walk_from io indices' st'
      | (st', Raised a b) => (st', Raised a b)
      end
  end.

Definition walk (io : audio_io) (fl : list entry) : state * outcome :=
  walk_from io (seq 0 (length fl)) (State fl [] [] 1).

(** *** The walk as a function of the merged list

    The walk changes the times of the subtitle entries only, and reads the
    times of the silence entries only (and of the subtitle entry it is at,
    before changing it), so that what it does at a position is determined by
    the merged list it started from. *)

(** The record written for a subtitle entry. *)
Definition segment_of (e : entry) : option segment :=
  match e with
  | Segment start end_ text index => Some (Seg index start end_ text)
  | Silence _ _ => None
  end.

(** The entry at position [index] once the walk has passed it. *)
Definition adjust_at (fl : list entry) (index : nat) (e : entry) : entry :=
  match e with
  | Segment start end_ text idx =>
      Segment (new_start fl index start end_) (new_end fl index end_) text idx
  | Silence start end_ => Silence start end_
  end.

Definition adjusted (fl : list entry) : list entry := imap (adjust_at fl) fl.

(** [cur] is [fl] with the positions below [i] adjusted. *)
Definition agrees (fl : list entry) (i : nat) (cur : list entry) : Prop :=
  forall j : nat,
    cur !! j = if (j <? i)%nat then adjust_at fl j <$> fl !! j else fl !! j.

(** A subtitle entry that passes the check [s['start'] > s['end']]. *)
Definition well_timed (e : entry) : Prop :=
  match e with
  | Segment start end_ _ _ => start <= end_
  | Silence _ _ => True
  end.

(** The range of the non-speech event between the silence at [index] and a
    silence right after it, when it has a positive duration. *)
Definition orphan_at (fl : list entry) (index : nat) : option (Q * Q) :=
  match fl !! index, fl !! (index + 1)%nat with
  | Some (Silence _ s_end), Some (Silence next_start _) =>
      if Qltb (s_end + Builder.analysis_window)
              (next_start - Builder.analysis_window)
      then Some (s_end + Builder.analysis_window,
                 next_start - Builder.analysis_window)
      else None
  | _, _ => None
  end.

(** What the walk does to [non_speech_srt_entries] and
    [non_speech_file_counter] at position [index]. *)
Definition ns_step (io : audio_io) (fl : list entry)
    (acc : list ns_entry * Z) (index : nat) : list ns_entry * Z :=
  match orphan_at fl index with
  | Some (a, b) =>
      if (non_speech_on io && save_ok io (snd acc) a b)%bool
      then (fst acc ++ [NsEntry (snd acc) a b (srt_text fl index)],
            (snd acc + 1)%Z)
      else acc
  | None => acc
  end.

(** Two entries of the same kind, with the same index and text. *)
Definition same_label (x y : entry) : Prop :=
  match x, y with
  | Segment _ _ t k, Segment _ _ t' k' => t = t' /\ k = k'
  | Silence _ _, Silence _ _ => True
  | _, _ => False
  end.

(** What holds when [walk_from] has gone through the positions
    [i .. i + n - 1], from a state [st] that agrees with [fl] up to [i]. *)
Definition walk_post (io : audio_io) (fl : list entry) (i n : nat)
    (st st' : state) (o : outcome) : Prop :=
  match o with
  | Continue =>
      agrees fl (i + n) (full_list st')
      /\ written st'
         = written st ++ omap segment_of (take n (drop i (adjusted fl)))
      /\ Forall well_timed (take n (drop i (adjusted fl)))
      /\ (non_speech_srt_entries st', non_speech_file_counter st')
         = fold_left (ns_step io fl) (seq i n)
             (non_speech_srt_entries st, non_speech_file_counter st)
  | Raised a b =>
      exists (m : nat) (t : string) (k : Z),
        (m < n)%nat
        /\ adjusted fl !! (i + m)%nat = Some (Segment a b t k)
        /\ b < a
        /\ agrees fl (S (i + m)) (full_list st')
        /\ written st'
           = written st ++ omap segment_of (take m (drop i (adjusted fl)))
        /\ Forall well_timed (take m (drop i (adjusted fl)))
        /\ (non_speech_srt_entries st', non_speech_file_counter st')
           = fold_left (ns_step io fl) (seq i m)
               (non_speech_srt_entries st, non_speech_file_counter st)
  end.

(** An audio file that loads, with clips that can always be saved, and
    [--non-speech-dir] given. *)
Definition all_ok : audio_io := AudioIO true (fun _ _ _ => true).

(** *** Well-formed input of expand/subtract mode *)

Definition silence_of (e : entry) : option (Q * Q) :=
  match e with
  | Silence start end_ => Some (start, end_)
  | Segment _ _ _ _ => None
  end.

(** Silence segments that last: each one starts before it ends. *)
Definition lasting (silence_segments : list (Q * Q)) : Prop :=
  Forall (fun x => fst x < snd x) silence_segments.

(** Subtitle segments in sequence: no one ends before it starts, and each
    one ends no later than the ones after it start. *)
Definition in_sequence (segments : list segment) : Prop :=
  Forall (fun s => start_time s <= end_time s) segments
  /\ StronglySorted (fun a b => end_time a <= start_time b) segments.

(** No subtitle segment lies inside a silence segment: one that starts after
    the start of a silence ends after its end. *)
Definition outside (silence_segments : list (Q * Q)) (segments : list segment)
    : Prop :=
  Forall (fun s =>
            Forall (fun x => fst x < start_time s -> snd x < end_time s)
              silence_segments)
    segments.

(** What the merged timeline of such input looks like. *)
Record timeline_ok (fl : list entry) : Prop := TimelineOk {
  tl_asc : forall (i j : nat) (x y : entry),
    (i < j)%nat -> fl !! i = Some x -> fl !! j = Some y ->
    e_start x <= e_start y;
  tl_tie : forall (i j : nat) (a b s e : Q) (t : string) (k : Z),
    (i < j)%nat -> fl !! i = Some (Silence a b) ->
    fl !! j = Some (Segment s e t k) -> a < s;
  tl_sil : forall (i j : nat) (a b c d : Q),
    (i < j)%nat -> fl !! i = Some (Silence a b) ->
    fl !! j = Some (Silence c d) -> b < c;
  tl_pos : forall (i : nat) (a b : Q), fl !! i = Some (Silence a b) -> a < b;
  tl_seg : forall (i j : nat) (s e s' e' : Q) (t t' : string) (k k' : Z),
    (i < j)%nat -> fl !! i = Some (Segment s e t k) ->
    fl !! j = Some (Segment s' e' t' k') -> e <= s';
  tl_out : forall (i j : nat) (a b s e : Q) (t : string) (k : Z),
    fl !! i = Some (Silence a b) -> fl !! j = Some (Segment s e t k) ->
    a < s -> b < e;
  tl_val : forall (i : nat) (s e : Q) (t : string) (k : Z),
    fl !! i = Some (Segment s e t k) -> s <= e }.

(** What a run leaves behind. *)
Record result := Result {
  output_srt : list segment;          (* the records written to the output *)
  non_speech_srt : list ns_entry;     (* the records of non-speech.srt *)
  corrected : list entry;             (* [full_list] when the run ended *)
  error : option (Q * Q) }.           (* the uncaught [ValueError] *)

(** The [else] branch of [main] and the writing of [non-speech.srt] after it.
    Nothing is walked when [parse_srt] yields no segment; a [ValueError]
    leaves the output file with what was written before it, and
    [non-speech.srt] is not written. *)
Definition run (io : audio_io) (silence_segments : list (Q * Q))
    (matched : list segment) : result :=
  let segments := parse_srt matched in
  match segments with
  | [] => Result [] [] [] None
  | _ =>
      let '(st, o) := walk io (merge segments silence_segments) in
      match o with
      | Continue =>
          Result (written st) (non_speech_srt_entries st) (full_list st) None
      | Raised a b => Result (written st) [] (full_list st) (Some (a, b))
      end
  end.

End Expand.

(** ** Further notions used to state what the code keeps *)

(** The silence segment [x] keeps the analysis window between itself and the
    audio event [r]: it ends that long before the event starts, or starts
    that long after the event ends. *)
Definition clear_of (x : Q * Q) (r : Builder.region) : Prop :=
  snd x <= Builder.r_start r - Builder.analysis_window
  \/ Builder.r_end r + Builder.analysis_window <= fst x.

(** A segment that does not end before it starts is written as one that does
    not, and one that lasts is written as one that lasts. *)
Definition stays_valid (s o : segment) : Prop :=
  (start_time s <= end_time s -> start_time o <= end_time o)
  /\ (start_time s < end_time s -> start_time o < end_time o).

(** Two entries of the same kind: silences with the same times, subtitles
    with the same text and index. *)
Definition same_but_times (x y : Expand.entry) : Prop :=
  match x, y with
  | Expand.Segment _ _ t k, Expand.Segment _ _ t' k' => t = t' /\ k = k'
  | Expand.Silence a b, Expand.Silence a' b' => a = a' /\ b = b'
  | _, _ => False
  end.

(** What a walk leaves, whatever the audio: either every adjusted subtitle
    passes the check of its times and all are written, or the walk stops at
    the first one that does not. *)
Definition walk_result (fl : list Expand.entry) (st : Expand.state)
    (o : Expand.outcome) : Prop :=
  match o with
  | Expand.Continue =>
      Expand.full_list st = Expand.adjusted fl
      /\ Expand.written st = omap Expand.segment_of (Expand.adjusted fl)
      /\ Forall Expand.well_timed (Expand.adjusted fl)
  | Expand.Raised a b =>
      exists (m : nat) (t : string) (k : Z),
        Expand.adjusted fl !! m = Some (Expand.Segment a b t k)
        /\ b < a
        /\ Expand.agrees fl (S m) (Expand.full_list st)
        /\ Expand.written st
           = omap Expand.segment_of (take m (Expand.adjusted fl))
        /\ Forall Expand.well_timed (take m (Expand.adjusted fl))
  end.

(** ** [seconds_to_srt_time] *)

Module Stamp.

(** [x // y] on floats, for a positive [y]: the floor of the quotient (still a
    float). *)
Definition floordiv (x y : Q) : Q := inject_Z (Qfloor (x / y)).

(** [x % y] on floats, for a positive [y]: what [x // y] leaves, which is not
    negative. *)
Definition fmod (x y : Q) : Q := x - inject_Z (Qfloor (x / y)) * y.

(** [int(x)] for a float: the fraction is cut off, towards zero. *)
Definition int (x : Q) : Z := Z.quot (Qnum x) (Z.pos (Qden x)).

(** The decimal digits of a natural number, as [str] writes them. *)
Definition digits (n : N) : string := NilZero.string_of_uint (N.to_uint n).

Definition zeros (n : nat) : string := string_of_list_ascii (repeat "0"%char n).

(** [f"{n:0w}"] for an integer [n] and a width [w]: zeros are put between the
    sign and the digits until the whole is [w] characters long. *)
Definition zero_pad (width : nat) (n : Z) : string :=
  let ds := digits (Z.abs_N n) in
  if (n <? 0)%Z
  then String "-" (zeros (width - 1 - String.length ds) ++ ds)
  else (zeros (width - String.length ds) ++ ds)%string.

(** [seconds_to_srt_time]. *)
Definition seconds_to_srt_time (seconds : Q) : string :=
  let hours := int (floordiv seconds 3600) in
  let minutes := int (floordiv (fmod seconds 3600) 60) in
  let seconds := fmod seconds 60 in
  let milliseconds := int ((seconds - inject_Z (int seconds)) * 1000) in
  (zero_pad 2 hours ++ ":" ++ zero_pad 2 minutes ++ ":"
   ++ zero_pad 2 (int seconds) ++ "," ++ zero_pad 3 milliseconds)%string.

End Stamp.

(** The checks of [zero_pad 2] on 0..99 and of [zero_pad 3] on 0..999: the
    result has that many digits and reads back as the number. *)
Definition check_pad2 (k : nat) : bool :=
  match Stamp.zero_pad 2 (Z.of_nat k) with
  | String a (String b EmptyString) =>
      Time.is_digit a && Time.is_digit b
      && (Time.int_of_digits (String a (String b EmptyString)) =? Z.of_nat k)%Z
  | _ => false
  end.

Definition check_pad3 (k : nat) : bool :=
  match Stamp.zero_pad 3 (Z.of_nat k) with
  | String a (String b (String c EmptyString)) =>
      Time.is_digit a && Time.is_digit b && Time.is_digit c
      && (Time.int_of_digits (String a (String b (String c EmptyString)))
          =? Z.of_nat k)%Z
  | _ => false
  end.

(** The number written by the digits of [d], read after the digits that
    gave [acc]. *)
Fixpoint uint_value (d : Decimal.uint) (acc : Z) : Z :=
  match d with
  | Decimal.Nil => acc
  | Decimal.D0 d => uint_value d (10 * acc + 0)
  | Decimal.D1 d => uint_value d (10 * acc + 1)
  | Decimal.D2 d => uint_value d (10 * acc + 2)
  | Decimal.D3 d => uint_value d (10 * acc + 3)
  | Decimal.D4 d => uint_value d (10 * acc + 4)
  | Decimal.D5 d => uint_value d (10 * acc + 5)
  | Decimal.D6 d => uint_value d (10 * acc + 6)
  | Decimal.D7 d => uint_value d (10 * acc + 7)
  | Decimal.D8 d => uint_value d (10 * acc + 8)
  | Decimal.D9 d => uint_value d (10 * acc + 9)
  end%Z.

(** ** Reading and writing subtitle files ([parse_srt], the [f.write] of [main]) *)

Module Srt.

(** The line feed. *)
Definition nl : ascii := "010"%char.

(** *** The combinators of a backtracking matcher

    A pattern is matched against the text that is left, and what follows the
    pattern is a continuation [k] that gets the text the pattern took and
    the text after it.  A quantifier tries its alternatives in the order of
    the [re] module, and goes to the next one when the continuation fails. *)
Section Combinators.
Context {R : Type}.

(** [p*] (greedy): one more character first, none last. *)
Fixpoint star_greedy (p : ascii -> bool) (s : string)
    (k : string -> string -> option R) : option R :=
  match s with
  | String c s' =>
      if p c then
        match star_greedy p s' (fun m rest => k (String c m) rest) with
        | Some r => Some r
        | None => k EmptyString s
        end
      else k EmptyString s
  | EmptyString => k EmptyString s
  end.

(** [p+] (greedy). *)
Definition plus_greedy (p : ascii -> bool) (s : string)
    (k : string -> string -> option R) : option R :=
  match s with
  | String c s' =>
      if p c then star_greedy p s' (fun m rest => k (String c m) rest)
      else None
  | EmptyString => None
  end.

(** [p*?] (lazy): none first, one more character last. *)
Fixpoint star_lazy (p : ascii -> bool) (s : string)
    (k : string -> string -> option R) : option R :=
  match k EmptyString s with
  | Some r => Some r
  | None =>
      match s with
      | String c s' =>
          if p c then star_lazy p s' (fun m rest => k (String c m) rest)
          else None
      | EmptyString => None
      end
  end.

(** [p+?] (lazy). *)
Definition plus_lazy (p : ascii -> bool) (s : string)
    (k : string -> string -> option R) : option R :=
  match s with
  | String c s' =>
      if p c then star_lazy p s' (fun m rest => k (String c m) rest)
      else None
  | EmptyString => None
  end.

End Combinators.

(** A sequence of single characters, each from its class: the text taken and
    the text after it. *)
Fixpoint take_classes (cs : list (ascii -> bool)) (s : string)
    : option (string * string) :=
  match cs with
  | [] => Some (EmptyString, s)
  | p :: cs' =>
      match s with
      | String c s' =>
          if p c then
            match take_classes cs' s' with
            | Some (m, rest) => Some (String c m, rest)
            | None => None
            end
          else None
      | EmptyString => None
      end
  end.

(** The class of one character. *)
Definition chr (a : ascii) (c : ascii) : bool := Ascii.eqb c a.

(** [\d{2}:\d{2}:\d{2},\d{3}] *)
Definition stamp_classes : list (ascii -> bool) :=
  [Time.is_digit; Time.is_digit; chr ":"; Time.is_digit; Time.is_digit;
   chr ":"; Time.is_digit; Time.is_digit; chr ","; Time.is_digit;
   Time.is_digit; Time.is_digit].

(** [ --> ] *)
Definition arrow_classes : list (ascii -> bool) :=
  [chr " "; chr "-"; chr "-"; chr ">"; chr " "].

(** [.] under [re.DOTALL]. *)
Definition any (c : ascii) : bool := true.

(** [(?=\d+\n\d{2}:\d{2}:\d{2},\d{3}|\Z)]: the next record's first two lines
    begin here, or the text ends here ([\Z] is the end of the text also under
    [re.MULTILINE]). *)
Definition look (s : string) : bool :=
  match plus_greedy Time.is_digit s
          (fun _ rest =>
             match rest with
             | String c rest' =>
                 if chr nl c then
                   match take_classes stamp_classes rest' with
                   | Some _ => Some tt
                   | None => None
                   end
                 else None
             | EmptyString => None
             end) with
  | Some _ => true
  | None => match s with EmptyString => true | _ => false end
  end.

(** The four groups of a match. *)
Record groups := Groups {
  g_index : string; g_start : string; g_end : string; g_text : string }.

(** [srt_pattern] matched at the start of [s]: the groups and the text after
    the match. *)
Definition match_record (s : string) : option (groups * string) :=
  plus_greedy Time.is_digit s (fun g1 r1 =>
    match r1 with
    | String c r2 =>
        if chr nl c then
          match take_classes stamp_classes r2 with
          | Some (g2, r3) =>
              match take_classes arrow_classes r3 with
              | Some (_, r4) =>
                  match take_classes stamp_classes r4 with
                  | Some (g3, String c' r6) =>
                      if chr nl c' then
                        plus_lazy any r6 (fun g4 r7 =>
                          star_greedy (chr nl) r7 (fun _ r8 =>
                            if look r8
                            then Some (Groups g1 g2 g3 g4, r8)
                            else None))
                      else None
                  | _ => None
                  end
              | None => None
              end
          | None => None
          end
        else None
    | EmptyString => None
    end).

(** [srt_pattern.finditer(content)]: the matches from left to right, none
    overlapping another.  [skip] counts the characters that are still part
    of the last match. *)
Fixpoint finditer (skip : nat) (content : string) : list groups :=
  match content with
  | EmptyString => []
  | String _ content' =>
      match skip with
      | S skip' => finditer skip' content'
      | O =>
          match match_record content with
          | Some (g, rest) =>
              g :: finditer (String.length content' - String.length rest)
                     content'
          | None => finditer O content'
          end
      end
  end.

(** [str.isspace()] on code points below 256. *)
Definition is_space (c : ascii) : bool :=
  let n := nat_of_ascii c in
  (((9 <=? n) && (n <=? 13)) || ((28 <=? n) && (n <=? 32))
   || (n =? 133) || (n =? 160))%nat.

Fixpoint lstrip (s : string) : string :=
  match s with
  | String c s' => if is_space c then lstrip s' else s
  | EmptyString => EmptyString
  end.

Fixpoint rstrip (s : string) : string :=
  match s with
  | String c s' =>
      match rstrip s' with
      | EmptyString => if is_space c then EmptyString else String c EmptyString
      | r => String c r
      end
  | EmptyString => EmptyString
  end.

(** [s.strip()] *)
Definition strip (s : string) : string := rstrip (lstrip s).

(** [s.replace('\n', ' ')] *)
Fixpoint replace_nl (s : string) : string :=
  match s with
  | String c s' => String (if chr nl c then " "%char else c) (replace_nl s')
  | EmptyString => EmptyString
  end.

(** The dictionary of a match; [None] stands for the [ValueError] of
    [time_to_seconds], after which the match is left out. *)
Definition record_of (g : groups) : option segment :=
  match Time.time_to_seconds (g_start g), Time.time_to_seconds (g_end g) with
  | Some start_time, Some end_time =>
      Some (Seg (Time.int_of_digits (g_index g)) start_time end_time
              (replace_nl (strip (g_text g))))
  | _, _ => None
  end.

(** [parse_srt] on the content of the file. *)
Definition parse_content (content : string) : list segment :=
  parse_srt (omap record_of (finditer 0 content)).

(** [parse_srt]: a file that cannot be read gives no segment. *)
Definition parse_file (file : option string) : list segment :=
  match file with
  | Some content => parse_content content
  | None => parse_srt []
  end.

(** The four [f.write] of a record: the index, the times, the text and an
    empty line. *)
Definition srt_record (s : segment) : string :=
  (Expand.str (index s) ++ String nl
     (Stamp.seconds_to_srt_time (start_time s) ++ " --> "
      ++ Stamp.seconds_to_srt_time (end_time s) ++ String nl
           (text s ++ String nl (String nl EmptyString))))%string.

Definition write_srt (l : list segment) : string :=
  fold_right (fun s acc => (srt_record s ++ acc)%string) EmptyString l.

(** *** Written records *)

(** Whole seconds and whole milliseconds of a time: what is left of it when
    it is written with three digits for the milliseconds. *)
Definition truncate_ms (t : Q) : Q :=
  inject_Z (Qfloor t)
  + inject_Z (Qfloor (t * 1000) - 1000 * Qfloor t) / 1000.

(** No line feed in a text. *)
Definition no_nl (s : string) : bool :=
  forallb (fun c => negb (chr nl c)) (list_ascii_of_string s).





End Srt.

(** The times [time_to_seconds] gives for the two timestamps of a match. *)
Definition stamp_value (v : Q) : Prop :=
  exists A ms : Z,
    v = inject_Z A + inject_Z ms / 1000
    /\ (0 <= A < 362440)%Z /\ (0 <= ms < 1000)%Z.

(** What holds of every segment that [parse_srt] returns. *)
Definition parsed_ok (seg : segment) : Prop :=
  (0 <= index seg)%Z
  /\ stamp_value (start_time seg) /\ stamp_value (end_time seg)
  /\ Srt.replace_nl (Srt.strip (text seg)) = text seg.

(** No comma in a text. *)
Definition no_comma (s : string) : bool :=
  forallb (fun c => negb (Srt.chr "," c)) (list_ascii_of_string s).

(** ** [main]: the loop over the audio events and the files written *)

Module Main.

(** The arguments that [main] reads.  [file_to_fix] is [None] when the option
    is not given; otherwise it holds what reading the file gives: its content,
    or nothing when the file cannot be read.  The command line is refused
    when [--negate] comes with [--file_to_fix], so that [main] is not called
    with both. *)
Record args := Args {
  negate : bool;
  file_to_fix : option (option string);
  min_silence_dur : Q;
  subtract_only : bool;
  non_speech_dir : bool }.

(** The variables of the loop over [audio_events], and what was written to
    the output file. *)
Record loop_state := LoopState {
  cur_pos : Q;
  region_id : Z;
  silence_segments : list (Q * Q);
  f : string }.

(** One iteration of [for i, r in enumerate(audio_events)]. *)
Definition loop_step (a : args) (st : loop_state) (ir : nat * Builder.region)
    : loop_state :=
  let '(i, r) := ir in
  if negate a then
    LoopState (cur_pos st) (region_id st) (silence_segments st)
      (f st
       ++ Srt.srt_record
            (Seg (Z.of_nat i + 1) (Builder.r_start r) (Builder.r_end r)
               ("Event " ++ Expand.str (Z.of_nat i + 1))))
  else
    let start := cur_pos st in
    let end_ := Builder.r_start r in
    let cur_pos' := Builder.r_end r in
    let start :=
      if Qltb 0 start then start + Builder.analysis_window else start in
    let end_ := end_ - Builder.analysis_window in
    if Qltb (end_ - start) (min_silence_dur a)
    then LoopState cur_pos' (region_id st) (silence_segments st) (f st)
    else
      match file_to_fix a with
      | None =>
          LoopState cur_pos' (region_id st + 1)
            (silence_segments st ++ [(start, end_)])
            (f st
             ++ Srt.srt_record
                  (Seg (region_id st) start end_
                     ("Silence " ++ Expand.str (region_id st))))
      | Some _ =>
          LoopState cur_pos' (region_id st)
            (silence_segments st ++ [(start, end_)]) (f st)
      end.

(** [enumerate(audio_events)] *)
Definition enumerate {A : Type} (l : list A) : list (nat * A) :=
  combine (seq 0 (length l)) l.

Definition loop (a : args) (audio_events : list Builder.region) : loop_state :=
  fold_left (loop_step a) (enumerate audio_events)
    (LoopState 0 1 [] EmptyString).

(** What [main] leaves: the content of the output file, the content of
    non-speech.srt when it is written, and the [ValueError] that ends the run
    when a segment is invalid. *)
Record result := Result {
  output_file : string;
  non_speech_file : option string;
  error : option (Q * Q) }.

(** The records that [parse_srt] builds before it sorts them. *)
Definition matched (file : option string) : list segment :=
  match file with
  | Some content => omap Srt.record_of (Srt.finditer 0 content)
  | None => []
  end.

Definition ns_record (n : Expand.ns_entry) : segment :=
  Seg (Expand.ns_index n) (Expand.ns_start_time n) (Expand.ns_end_time n)
    (Expand.ns_text n).

End Main.

(** [main], for an output file and a directory that can be written.
    [load_ok] tells whether the audio is loaded for the non-speech clips,
    and [save_ok] which clips can be saved. *)
Definition main (a : Main.args) (audio_events : list Builder.region)
    (load_ok : bool) (save_ok : Z -> Q -> Q -> bool) : Main.result :=
  let st := Main.loop a audio_events in
  match Main.file_to_fix a with
  | None => Main.Result (Main.f st) None None               (* early exit *)
  | Some file =>
      match Srt.parse_file file with
      | [] => Main.Result (Main.f st) None None      (* no segments found *)
      | _ =>
          if Main.subtract_only a then
            Main.Result
              (Srt.write_srt
                 (subtract_only (Main.silence_segments st) (Main.matched file)))
              None None
          else
            let r :=
              Expand.run
                (Expand.AudioIO (Main.non_speech_dir a && load_ok) save_ok)
                (Main.silence_segments st) (Main.matched file) in
            match Expand.error r with
            | Some e =>
                Main.Result (Srt.write_srt (Expand.output_srt r)) None (Some e)
            | None =>
                Main.Result (Srt.write_srt (Expand.output_srt r))
                  (if Main.non_speech_dir a
                   then match Expand.non_speech_srt r with
                        | [] => None
                        | entries =>
                            Some (Srt.write_srt (map Main.ns_record entries))
                        end
                   else None)
                  None
            end
      end
  end.

(** The record of the [i]-th silence of the report, and of the [i]-th event
    with [--negate]; both count from 1. *)
Definition silence_record (i : nat) (x : Q * Q) : segment :=
  Seg (Z.of_nat i + 1) (fst x) (snd x)
    ("Silence " ++ Expand.str (Z.of_nat i + 1)).

Definition event_record (i : nat) (r : Builder.region) : segment :=
  Seg (Z.of_nat i + 1) (Builder.r_start r) (Builder.r_end r)
    ("Event " ++ Expand.str (Z.of_nat i + 1)).

(** The records of the report that [main] writes without [--file_to_fix]. *)
Definition report (a : Main.args) (audio_events : list Builder.region)
    : list segment :=
  if Main.negate a then imap event_record audio_events
  else imap silence_record
         (Builder.build (Main.min_silence_dur a) audio_events).






(** * Facts *)

Lemma Qltb_lt (x y : Q) : Qltb x y = true <-> x < y.
Proof.
  unfold Qltb. rewrite Qlt_alt. destruct (x ?= y); split; congruence.
Qed.

Lemma Qltb_ge (x y : Q) : Qltb x y = false <-> y <= x.
Proof.
  split; intros H.
  - apply Qnot_lt_le. intros Hlt. apply Qltb_lt in Hlt. congruence.
  - destruct (Qltb x y) eqn:E; [|reflexivity].
    apply Qltb_lt in E. exfalso. revert E. by apply Qle_not_lt.
Qed.


(** ** The silence builder *)

Section BuilderFacts.
Import Builder.

Lemma analysis_window_pos : 0 < analysis_window.
Proof. reflexivity. Qed.

(** Segments already collected are never touched by later iterations. *)
Lemma fold_step_prefix (min : Q) (audio_events : list region) :
  forall (c : Q) (p l : list (Q * Q)),
    silence_segments (fold_left (step min) audio_events (State c (p ++ l)))
    = p ++ silence_segments (fold_left (step min) audio_events (State c l)).
Proof.
  induction audio_events as [|r rest IH]; intros c p l; simpl; [reflexivity|].
  unfold step at 2 4; simpl.
  destruct (Qltb _ min); [apply IH|].
  rewrite <- app_assoc. apply IH.
Qed.

Lemma StronglySorted_snoc {A : Type} (R : A -> A -> Prop) (l : list A) (x : A) :
  StronglySorted R l -> Forall (fun a => R a x) l -> StronglySorted R (l ++ [x]).
Proof.
  induction 1 as [|a l Hl IH Ha]; intros Hx; simpl.
  - repeat constructor.
  - inversion Hx; subst. constructor; [by apply IH|].
    apply Forall_app; split; [assumption|by constructor].
Qed.

Lemma builder_inv_init (min : Q) : builder_inv min init.
Proof.
  unfold builder_inv, init; simpl.
  repeat split; try constructor; auto. lra.
Qed.

Lemma builder_inv_step (min : Q) (st : state) (r : region) :
  builder_inv min st -> cur_pos st <= r_start r -> r_start r < r_end r ->
  builder_inv min (step min st r).
Proof.
  intros (Hc & Hne & Hall & Hsort & Hdur) Hle Hlt.
  pose proof analysis_window_pos as Haw.
  assert (Hold : Forall (fun a => fst a < r_end r + analysis_window
                                  /\ snd a < r_end r) (silence_segments st)).
  { eapply Forall_impl; [exact Hall|]. intros [a b]; simpl. lra. }
  unfold step.
  destruct (Qltb (r_start r - analysis_window - _) min) eqn:Hkeep; simpl.
  - unfold builder_inv; simpl.
    split; [lra|]. split; [right; lra|]. auto.
  - apply Qltb_ge in Hkeep.
    unfold builder_inv; simpl.
    split; [lra|]. split; [right; lra|]. split; [|split].
    + apply Forall_app; split; [exact Hold|].
      constructor; [|constructor]. simpl.
      destruct (Qltb 0 (cur_pos st)); lra.
    + apply StronglySorted_snoc; [exact Hsort|].
      destruct Hne as [Hnil|Hpos].
      * rewrite Hnil. constructor.
      * apply Qltb_lt in Hpos. rewrite Hpos.
        eapply Forall_impl; [exact Hall|].
        intros [a b]; unfold before; simpl. lra.
    + apply Forall_app; split; [exact Hdur|].
      constructor; [|constructor]. simpl. exact Hkeep.
Qed.

Lemma builder_inv_fold (min : Q) (audio_events : list region) :
  forall st, builder_inv min st -> ordered_from (cur_pos st) audio_events ->
    builder_inv min (fold_left (step min) audio_events st).
Proof.
  induction audio_events as [|r rest IH]; intros st Hinv Hord; simpl; [exact Hinv|].
  destruct Hord as (Hle & Hlt & Hrest).
  apply IH.
  - by apply builder_inv_step.
  - unfold step. destruct (Qltb _ min); exact Hrest.
Qed.

Lemma StronglySorted_lookup {A : Type} (R : A -> A -> Prop) (l : list A) :
  StronglySorted R l ->
  forall (i j : nat) (a b : A),
    (i < j)%nat -> l !! i = Some a -> l !! j = Some b -> R a b.
Proof.
  induction 1 as [|x l Hl IH Hx]; intros i j a b Hij Hi Hj.
  - by rewrite lookup_nil in Hi.
  - destruct j as [|j]; [lia|]. simpl in Hj.
    destruct i as [|i]; simpl in Hi.
    + injection Hi as <-. rewrite List.Forall_forall in Hx. apply Hx.
      apply list_elem_of_In. by eapply list_elem_of_lookup_2.
    + apply (IH i j); [lia|assumption..].
Qed.

(** C1, as the code has it.  For the events [(1.0,2.0),(5.0,6.0)] and the
    default minimum duration the builder yields two silence segments: the
    leading one, from 0 to the first event's start minus the tolerance, and the
    one between the two events.  In general the first candidate of the loop is
    the leading gap [0, first.start - tolerance]; it is kept exactly when its
    duration is not below the minimum silence duration, and the loop goes on
    from the first event's end. *)
Theorem C1_leading_silence_is_derived :
  build default_min_silence_dur [Region 1 2; Region 5 6]
  = [(0, 1 - analysis_window); (2 + analysis_window, 5 - analysis_window)]
  /\ forall (min : Q) (r : region) (rest : list region),
       build min (r :: rest)
       = (if Qltb (r_start r - analysis_window - 0) min
          then []
          else [(0, r_start r - analysis_window)])
         ++ silence_segments
              (fold_left (step min) rest (State (r_end r) [])).
Proof.
  split; [reflexivity|].
  intros min r rest. unfold build, run, init. simpl.
  unfold step at 2. simpl.
  destruct (Qltb _ min); [reflexivity|].
  apply (fold_step_prefix min rest (r_end r) [_] []).
Qed.

(** C1 as stated fails: the events [(1.0,2.0),(5.0,6.0)] do not give exactly
    one silence segment, and the first one lies before the first event. *)
Lemma C1_counterexample :
  build default_min_silence_dur [Region 1 2; Region 5 6]
  = [(0, 99 # 100); (201 # 100, 499 # 100)]
  /\ length (build default_min_silence_dur [Region 1 2; Region 5 6]) <> 1%nat.
Proof. split; [reflexivity|discriminate]. Qed.

(** C8.  For events that are ordered and do not overlap, every silence
    segment of the result ends before every later one starts and starts
    before it, and lasts at least the minimum silence duration; a candidate
    shorter than that is dropped and the cursor still moves to the event's
    end. *)
Theorem C8_silence_segments_disjoint_increasing
    (min : Q) (audio_events : list region) :
  valid_events audio_events ->
  (forall (i j : nat) (a b : Q * Q),
      (i < j)%nat ->
      build min audio_events !! i = Some a ->
      build min audio_events !! j = Some b ->
      snd a < fst b /\ fst a < fst b)
  /\ Forall (fun a => min <= snd a - fst a) (build min audio_events)
  /\ (forall (st : state) (r : region),
        r_start r - analysis_window
          - (if Qltb 0 (cur_pos st) then cur_pos st + analysis_window
             else cur_pos st) < min ->
        step min st r = State (r_end r) (silence_segments st)).
Proof.
  intros Hvalid.
  destruct (builder_inv_fold min audio_events init (builder_inv_init min) Hvalid)
    as (_ & _ & _ & Hsort & Hdur).
  split; [|split].
  - intros i j a b Hij Hi Hj.
    exact (StronglySorted_lookup before _ Hsort i j a b Hij Hi Hj).
  - exact Hdur.
  - intros st r Hshort. unfold step.
    apply Qltb_lt in Hshort. by rewrite Hshort.
Qed.

Lemma C8_witness :
  valid_events [Region 1 2; Region 5 6]
  /\ Forall (fun a => default_min_silence_dur <= snd a - fst a)
       (build default_min_silence_dur [Region 1 2; Region 5 6]).
Proof.
  assert (Hvalid : valid_events [Region 1 2; Region 5 6]).
  { unfold valid_events; simpl. repeat split; unfold Qle, Qlt; simpl; lia. }
  split; [exact Hvalid|].
  exact (proj1 (proj2 (C8_silence_segments_disjoint_increasing
                         default_min_silence_dur _ Hvalid))).
Defined.

End BuilderFacts.

(** ** [time_to_seconds] *)

Section TimeFacts.
Import Time.

Lemma span_digits_app (ds rest : string) :
  all_digits ds = true -> starts_with_digit rest = false ->
  span_digits (ds ++ rest) = (ds, rest).
Proof.
  induction ds as [|c ds IH]; intros Hd Hr; simpl.
  - destruct rest as [|c r]; [reflexivity|]. simpl in *. by rewrite Hr.
  - unfold all_digits in Hd; simpl in Hd. apply andb_prop in Hd as [Hc Hd].
    rewrite Hc, IH; auto.
Qed.

Lemma span_digits_spec (s ds rest : string) :
  span_digits s = (ds, rest) ->
  s = (ds ++ rest)%string /\ all_digits ds = true /\ starts_with_digit rest = false.
Proof.
  revert ds rest. induction s as [|c s IH]; intros ds rest H; simpl in H.
  - injection H as <- <-. auto.
  - destruct (is_digit c) eqn:Hc.
    + destruct (span_digits s) as [ds' rest'] eqn:E. injection H as <- <-.
      destruct (IH _ _ eq_refl) as (-> & Hd & Hr).
      repeat split; auto. unfold all_digits; simpl. by rewrite Hc.
    + injection H as <- <-. simpl. auto.
Qed.

Lemma is_colon_eq c : is_colon c = true -> c = ":"%char.
Proof. apply Ascii.eqb_eq. Qed.

Lemma colon_not_digit c : is_colon c = true -> is_digit c = false.
Proof. intros ->%is_colon_eq. reflexivity. Qed.

Lemma match_tail_timestamp (h m sec : string) (sep : ascii) (frac rest : string) :
  all_digits m = true -> String.length m = 2%nat ->
  all_digits sec = true -> String.length sec = 2%nat ->
  is_sep sep = true -> all_digits frac = true -> frac <> EmptyString ->
  starts_with_digit rest = false ->
  match_tail h (":" ++ m ++ ":" ++ sec ++ String sep (frac ++ rest))
  = Some (Groups h m sec frac).
Proof.
  intros Hm Lm Hs Ls Hp Hf Hne Hr.
  destruct m as [|m1 [|m2 [|]]]; try discriminate.
  destruct sec as [|s1 [|s2 [|]]]; try discriminate.
  unfold all_digits in Hm, Hs; simpl in Hm, Hs.
  apply andb_prop in Hm as [Hm1 Hm2]. apply andb_prop in Hm2 as [Hm2 _].
  apply andb_prop in Hs as [Hs1 Hs2]. apply andb_prop in Hs2 as [Hs2 _].
  simpl. rewrite Hm1, Hm2, Hs1, Hs2, Hp. simpl.
  rewrite span_digits_app by assumption.
  destruct frac; [congruence|reflexivity].
Qed.

Lemma match_tail_Some (h s : string) (g : groups) :
  match_tail h s = Some g ->
  exists m sec sep frac rest,
    s = (":" ++ m ++ ":" ++ sec ++ String sep (frac ++ rest))%string
    /\ all_digits m = true /\ String.length m = 2%nat
    /\ all_digits sec = true /\ String.length sec = 2%nat
    /\ is_sep sep = true /\ all_digits frac = true /\ frac <> EmptyString
    /\ starts_with_digit rest = false
    /\ g = Groups h m sec frac.
Proof.
  intros H.
  destruct s as [|c0 [|m1 [|m2 [|c1 [|s1 [|s2 [|p rest]]]]]]]; try discriminate.
  unfold match_tail in H.
  destruct (is_colon c0) eqn:H0; [|discriminate].
  destruct (is_digit m1) eqn:H1; [|discriminate].
  destruct (is_digit m2) eqn:H2; [|discriminate].
  destruct (is_colon c1) eqn:H3; [|discriminate].
  destruct (is_digit s1) eqn:H4; [|discriminate].
  destruct (is_digit s2) eqn:H5; [|discriminate].
  destruct (is_sep p) eqn:H6; [|discriminate].
  simpl in H.
  destruct (span_digits rest) as [ms_str rest'] eqn:E.
  apply span_digits_spec in E as (-> & Hd & Hr).
  apply is_colon_eq in H0 as ->. apply is_colon_eq in H3 as ->.
  destruct ms_str as [|f frac]; [discriminate|]. injection H as <-.
  exists (String m1 (String m2 EmptyString)), (String s1 (String s2 EmptyString)), p,
    (String f frac), rest'.
  unfold all_digits; simpl. rewrite H1, H2, H4, H5.
  repeat split; auto.
Qed.

Lemma re_match_timestamp (h m sec : string) (sep : ascii) (frac rest : string) :
  timestamp_parts h m sec sep frac -> starts_with_digit rest = false ->
  re_match (timestamp h m sec sep frac ++ rest) = Some (Groups h m sec frac).
Proof.
  intros (Hh & Lh & Hm & Lm & Hs & Ls & Hp & Hf & Hne) Hr.
  pose proof (match_tail_timestamp) as MT.
  destruct h as [|h1 [|h2 [|]]]; simpl in Lh; try lia.
  - unfold all_digits in Hh; simpl in Hh. apply andb_prop in Hh as [Hh1 _].
    specialize (MT (String h1 EmptyString) m sec sep frac rest Hm Lm Hs Ls Hp Hf Hne Hr).
    destruct m as [|m1 [|m2 [|]]]; try discriminate.
    destruct sec as [|s1 [|s2 [|]]]; try discriminate.
    simpl in *. rewrite Hh1. exact MT.
  - unfold all_digits in Hh; simpl in Hh. apply andb_prop in Hh as [Hh1 Hh2].
    apply andb_prop in Hh2 as [Hh2 _].
    specialize (MT (String h1 (String h2 EmptyString)) m sec sep frac rest
                  Hm Lm Hs Ls Hp Hf Hne Hr).
    destruct m as [|m1 [|m2 [|]]]; try discriminate.
    destruct sec as [|s1 [|s2 [|]]]; try discriminate.
    simpl in *. rewrite Hh1, Hh2. by rewrite MT.
Qed.

Lemma re_match_Some (s : string) (g : groups) :
  re_match s = Some g ->
  exists h m sec sep frac rest,
    s = (timestamp h m sec sep frac ++ rest)%string
    /\ timestamp_parts h m sec sep frac
    /\ starts_with_digit rest = false
    /\ g = Groups h m sec frac.
Proof.
  intros H. destruct s as [|h1 rest1]; [discriminate|].
  unfold re_match in H.
  destruct (is_digit h1) eqn:Hh1; [|discriminate].
  assert (Hone : match_tail (String h1 EmptyString) rest1 = Some g ->
                 exists h m sec sep frac rest,
                   String h1 rest1 = (timestamp h m sec sep frac ++ rest)%string
                   /\ timestamp_parts h m sec sep frac
                   /\ starts_with_digit rest = false
                   /\ g = Groups h m sec frac).
  { intros (m & sec & sep & frac & rest & -> & Hm & Lm & Hs & Ls & Hp & Hf & Hne & Hr & ->)%match_tail_Some.
    exists (String h1 EmptyString), m, sec, sep, frac, rest.
    split.
    - destruct m as [|m1 [|m2 [|]]]; try discriminate.
      destruct sec as [|s1 [|s2 [|]]]; try discriminate. reflexivity.
    - unfold timestamp_parts, all_digits; simpl. rewrite Hh1. auto 12. }
  destruct rest1 as [|h2 rest2]; [by apply Hone|].
  destruct (is_digit h2) eqn:Hh2; [|by apply Hone].
  destruct (match_tail (String h1 (String h2 EmptyString)) rest2) as [g'|] eqn:E2;
    [|by apply Hone].
  injection H as <-.
  apply match_tail_Some in E2
    as (m & sec & sep & frac & rest & -> & Hm & Lm & Hs & Ls & Hp & Hf & Hne & Hr & ->).
  exists (String h1 (String h2 EmptyString)), m, sec, sep, frac, rest.
  split.
  - destruct m as [|m1 [|m2 [|]]]; try discriminate.
    destruct sec as [|s1 [|s2 [|]]]; try discriminate. reflexivity.
  - unfold timestamp_parts, all_digits; simpl. rewrite Hh1, Hh2. auto 12.
Qed.

Lemma string_app_assoc (a b c : string) : ((a ++ b) ++ c = a ++ (b ++ c))%string.
Proof. induction a as [|x a IH]; simpl; [reflexivity|by rewrite IH]. Qed.

Lemma string_app_nil (a : string) : (a ++ EmptyString)%string = a.
Proof. induction a as [|x a IH]; simpl; [reflexivity|by rewrite IH]. Qed.

Lemma all_digits_app (a b : string) :
  all_digits a = true -> all_digits b = true -> all_digits (a ++ b) = true.
Proof.
  unfold all_digits. induction a as [|x a IH]; simpl; [auto|].
  intros [Hx Ha]%andb_prop Hb. rewrite Hx. simpl. auto.
Qed.

Lemma timestamp_app (h m sec : string) (sep : ascii) (frac rest : string) :
  (timestamp h m sec sep frac ++ rest)%string
  = (h ++ ":" ++ m ++ ":" ++ sec ++ String sep (frac ++ rest))%string.
Proof.
  unfold timestamp. rewrite string_app_assoc. simpl. f_equal. f_equal.
  rewrite string_app_assoc. simpl. f_equal. f_equal.
  rewrite string_app_assoc. reflexivity.
Qed.

(** Digits that follow a timestamp belong to its fraction. *)
Lemma timestamp_absorb (h m sec : string) (sep : ascii) (frac rest : string) :
  timestamp_parts h m sec sep frac ->
  exists frac' rest',
    timestamp_parts h m sec sep frac'
    /\ starts_with_digit rest' = false
    /\ (timestamp h m sec sep frac ++ rest
        = timestamp h m sec sep frac' ++ rest')%string.
Proof.
  intros (Hh & Lh & Hm & Lm & Hs & Ls & Hp & Hf & Hne).
  destruct (span_digits rest) as [ds rest'] eqn:E.
  apply span_digits_spec in E as (-> & Hd & Hr).
  exists (frac ++ ds)%string, rest'. split; [|split; [exact Hr|]].
  - unfold timestamp_parts. repeat split; auto using all_digits_app.
    destruct frac; [congruence|discriminate].
  - rewrite !timestamp_app, string_app_assoc. reflexivity.
Qed.

Lemma ms_digits (frac : string) :
  frac <> EmptyString ->
  first3 (ljust3 frac) = String.substring 0 3 (frac ++ "00")%string.
Proof.
  intros Hne. unfold first3, ljust3.
  destruct frac as [|a [|b [|c frac]]]; try congruence; simpl; try reflexivity.
  destruct frac; reflexivity.
Qed.

(** C10, as the code has it.  [re.match] anchors the pattern at the start of
    the string only.  A string that begins with [H:MM:SS] or [HH:MM:SS], a
    comma or a dot and one or more digits gives hours * 3600 + minutes * 60 +
    seconds + milliseconds / 1000, where the milliseconds are the first three
    digits of the fraction, zeros being put after fewer than three, and what
    follows the digits is ignored; [ValueError] is raised exactly for the
    strings that do not begin with that shape. *)
Theorem C10_time_to_seconds_prefix :
  (forall (h m sec : string) (sep : ascii) (frac rest : string),
      timestamp_parts h m sec sep frac ->
      starts_with_digit rest = false ->
      time_to_seconds (timestamp h m sec sep frac ++ rest)
      = Some (timestamp_value h m sec frac))
  /\ (forall s : string,
        time_to_seconds s = None
        <-> ~ exists h m sec sep frac rest,
                timestamp_parts h m sec sep frac
                /\ s = (timestamp h m sec sep frac ++ rest)%string).
Proof.
  assert (Hval : forall h m sec sep frac rest,
             timestamp_parts h m sec sep frac ->
             starts_with_digit rest = false ->
             time_to_seconds (timestamp h m sec sep frac ++ rest)
             = Some (timestamp_value h m sec frac)).
  { intros h m sec sep frac rest Hparts Hr. unfold time_to_seconds.
    rewrite re_match_timestamp by assumption. simpl.
    unfold timestamp_value. rewrite ms_digits; [reflexivity|].
    apply Hparts. }
  split; [exact Hval|].
  intros s. split.
  - intros Hnone (h & m & sec & sep & frac & rest & Hparts & ->).
    destruct (timestamp_absorb h m sec sep frac rest Hparts)
      as (frac' & rest' & Hparts' & Hr & Heq).
    rewrite Heq, Hval in Hnone by assumption. discriminate.
  - intros Hno. unfold time_to_seconds.
    destruct (re_match s) as [g|] eqn:E; [|reflexivity].
    exfalso. apply Hno.
    apply re_match_Some in E as (h & m & sec & sep & frac & rest & -> & Hparts & _).
    by exists h, m, sec, sep, frac, rest.
Qed.

(** ["0:00:01,5"] is one second and a half. *)
Lemma C10_witness :
  time_to_seconds "0:00:01,5" = Some (timestamp_value "0" "00" "01" "5")
  /\ timestamp_value "0" "00" "01" "5" == 3 # 2.
Proof.
  split; [|reflexivity].
  apply (proj1 C10_time_to_seconds_prefix "0" "00" "01" ","%char "5" EmptyString)%string.
  - unfold timestamp_parts. repeat split; try reflexivity; [by left|discriminate].
  - reflexivity.
Defined.

(** C10 as stated fails: ["0:00:01,5xyz"] is not a timestamp followed by a
    separator and digits only, and no [ValueError] is raised for it. *)
Lemma C10_counterexample :
  (~ exists h m sec sep frac,
       timestamp_parts h m sec sep frac
       /\ "0:00:01,5xyz"%string = timestamp h m sec sep frac)
  /\ exists v, time_to_seconds "0:00:01,5xyz" = Some v /\ v == 3 # 2.
Proof.
  split.
  - intros (h & m & sec & sep & frac & Hparts & Heq).
    pose proof (re_match_timestamp h m sec sep frac EmptyString Hparts eq_refl) as H.
    rewrite string_app_nil, <- Heq in H. vm_compute in H.
    injection H as <- <- <- <-.
    destruct Hparts as (_ & _ & _ & _ & _ & _ & Hp & _).
    unfold timestamp in Heq. simpl in Heq. congruence.
  - eexists. split; [reflexivity|reflexivity].
Qed.

End TimeFacts.

(** ** Subtract-only mode *)

Section SubtractFacts.

Lemma adjust_within (silence_segments : list (Q * Q)) (i : nat) (s : segment) :
  within s (snd (Subtract.adjust silence_segments i s)).
Proof.
  destruct s as [k a b t]. unfold Subtract.adjust, within. simpl.
  set (i1 := Subtract.advance silence_segments i a).
  set (a' := match silence_segments !! i1 with
             | Some (silence_start, silence_end) =>
                 if (Qltb silence_start a && Qltb a silence_end
                     && Qltb silence_end b)%bool
                 then silence_end else a
             | None => a
             end).
  assert (Ha : a <= a').
  { subst a'. destruct (silence_segments !! i1) as [[ss se]|]; [|lra].
    destruct (Qltb ss a && Qltb a se && Qltb se b)%bool eqn:E; [|lra].
    apply andb_prop in E as [[_ E]%andb_prop _]. apply Qltb_lt in E. lra. }
  repeat split; auto. clearbody a' i1.
  destruct (silence_segments !! _) as [[ss se]|]; [|lra].
  destruct (Qltb a' ss && Qltb b se && Qltb ss b)%bool eqn:E; [|lra].
  apply andb_prop in E as [_ E]. apply Qltb_lt in E. lra.
Qed.

Lemma subtract_fold_within (silence_segments : list (Q * Q)) (segments : list segment) :
  forall (i : nat) (written : list segment),
  exists new,
    snd (fold_left (subtract_step silence_segments) segments (i, written))
    = written ++ new
    /\ Forall2 within segments new.
Proof.
  induction segments as [|s segments IH]; intros i written; simpl.
  - exists []. by rewrite app_nil_r.
  - pose proof (adjust_within silence_segments i s) as Hs.
    destruct (Subtract.adjust silence_segments i s) as [i' s']. simpl in Hs.
    destruct (IH i' (written ++ [s'])) as (new & -> & Hnew).
    exists (s' :: new). rewrite <- app_assoc. split; [reflexivity|].
    by constructor.
Qed.

(** C2.  In subtract-only mode every written record keeps the index and the
    text of its segment, starts no earlier than it and ends no later: the
    segment is never extended. *)
Theorem C2_subtract_only_never_extends
    (silence_segments : list (Q * Q)) (matched : list segment) :
  Forall2 (fun s o => index o = index s /\ text o = text s
                      /\ start_time s <= start_time o
                      /\ end_time o <= end_time s)
    (parse_srt matched) (subtract_only silence_segments matched).
Proof.
  unfold subtract_only.
  destruct (subtract_fold_within silence_segments (parse_srt matched) 0 [])
    as (new & -> & Hnew).
  exact Hnew.
Qed.

End SubtractFacts.

(** ** Stable sorting *)

Section SortFacts.
Context {A : Type} (key_lt : A -> A -> bool).

Lemma insert_sorted_perm (x : A) (l : list A) :
  Permutation (insert_sorted key_lt x l) (x :: l).
Proof.
  induction l as [|y l IH]; simpl; [reflexivity|].
  destruct (key_lt y x); [|reflexivity].
  rewrite IH. apply perm_swap.
Qed.

Lemma stable_sort_perm (l : list A) : Permutation (stable_sort key_lt l) l.
Proof.
  induction l as [|x l IH]; simpl; [reflexivity|].
  rewrite insert_sorted_perm. by constructor.
Qed.

(** A relation between an element and every later one survives sorting when
    it holds of every pair that sorting can swap. *)
Lemma insert_sorted_pairs (R : A -> A -> Prop) (x : A) (l : list A) :
  (forall y, key_lt y x = true -> R y x) ->
  StronglySorted R l -> Forall (R x) l ->
  StronglySorted R (insert_sorted key_lt x l).
Proof.
  intros Hswap. induction 1 as [|y l Hl IH Hy]; intros Hx; simpl.
  - repeat constructor.
  - destruct (key_lt y x) eqn:E.
    + inversion Hx; subst. constructor; [by apply IH|].
      rewrite insert_sorted_perm. constructor; [by apply Hswap|assumption].
    + constructor; [by constructor|assumption].
Qed.

Lemma stable_sort_pairs (R : A -> A -> Prop) (l : list A) :
  (forall x y, key_lt y x = true -> R y x) ->
  StronglySorted R l -> StronglySorted R (stable_sort key_lt l).
Proof.
  intros Hswap. induction 1 as [|x l Hl IH Hx]; simpl; [constructor|].
  apply insert_sorted_pairs; [by apply Hswap|assumption|].
  by rewrite stable_sort_perm.
Qed.

End SortFacts.

(** ** The merged timeline *)

Section MergeFacts.
Import Expand.

Lemma tie_ok_unsorted (segments : list segment) (silence_segments : list (Q * Q)) :
  StronglySorted tie_ok
    (map of_segment segments ++ map of_silence silence_segments).
Proof.
  induction segments as [|s segments IH]; simpl.
  - induction silence_segments as [|x sil IH]; simpl; constructor; [exact IH|].
    apply List.Forall_forall. intros y [z [<- _]]%in_map_iff _. discriminate.
  - constructor; [exact IH|]. apply List.Forall_forall. intros y _. discriminate.
Qed.

Lemma merge_tie_ok (segments : list segment) (silence_segments : list (Q * Q)) :
  StronglySorted tie_ok (merge segments silence_segments).
Proof.
  apply stable_sort_pairs; [|apply tie_ok_unsorted].
  intros x y Hlt%Qltb_lt _ _ Heq. rewrite Heq in Hlt. revert Hlt. apply Qlt_irrefl.
Qed.

(** C6, as the code has it.  The subtitle segments are put into [full_list]
    before the silence segments and the sort is stable, so when a silence
    segment and a subtitle segment have equal start times the subtitle entry
    comes first in the merged sequence, for every input. *)
Theorem C6_subtitle_before_silence_on_ties
    (segments : list segment) (silence_segments : list (Q * Q))
    (i j : nat) (a b s e : Q) (t : string) (k : Z) :
  merge segments silence_segments !! i = Some (Silence a b) ->
  merge segments silence_segments !! j = Some (Segment s e t k) ->
  s == a ->
  (j < i)%nat.
Proof.
  intros Hi Hj Heq.
  destruct (Nat.lt_trichotomy j i) as [Hlt|[->|Hgt]]; [exact Hlt|congruence|].
  exfalso.
  apply (StronglySorted_lookup tie_ok _ (merge_tie_ok segments silence_segments)
           i j _ _ Hgt Hi Hj); auto.
Qed.

(** The subtitle that starts with the silence [1,2] is at position 0, the
    silence at position 1. *)
Lemma C6_witness :
  (0 < 1)%nat
  /\ merge [Seg 1 1 3 "hi"] [(1, 2)] = [Segment 1 3 "hi" 1; Silence 1 2].
Proof.
  split; [|reflexivity].
  apply (C6_subtitle_before_silence_on_ties [Seg 1 1 3 "hi"] [(1, 2)]
           1 0 1 2 1 3 "hi" 1); reflexivity.
Defined.

(** C6 as stated fails: with the silence [1,2] and a subtitle that starts at 1
    the silence entry is not placed before the subtitle entry. *)
Lemma C6_counterexample :
  merge [Seg 1 1 3 "hi"] [(1, 2)] = [Segment 1 3 "hi" 1; Silence 1 2]
  /\ ~ (forall (i j : nat) (a b s e : Q) (t : string) (k : Z),
          merge [Seg 1 1 3 "hi"] [(1, 2)] !! i = Some (Silence a b) ->
          merge [Seg 1 1 3 "hi"] [(1, 2)] !! j = Some (Segment s e t k) ->
          s == a -> (i < j)%nat).
Proof.
  split; [reflexivity|].
  intros H.
  specialize (H 1%nat 0%nat 1 2 1 3 "hi"%string 1%Z eq_refl eq_refl (Qeq_refl 1)).
  lia.
Qed.

End MergeFacts.

(** ** The walk of expand/subtract mode *)

Section WalkFacts.
Import Expand.
Context (io : audio_io) (fl : list entry).

Lemma adjust_at_same_label (j : nat) (e : entry) : same_label (adjust_at fl j e) e.
Proof. destruct e; simpl; auto. Qed.

Lemma agrees_length (i : nat) (cur : list entry) :
  agrees fl i cur -> length cur = length fl.
Proof.
  intros H. apply Nat.le_antisymm.
  - apply lookup_ge_None. rewrite H.
    destruct (_ <? _)%nat; [|by apply lookup_ge_None].
    by rewrite (lookup_ge_None_2 fl).
  - apply lookup_ge_None. specialize (H (length cur)).
    rewrite (lookup_ge_None_2 cur) in H by lia.
    destruct (_ <? _)%nat; [|done].
    destruct (fl !! length cur); [discriminate|done].
Qed.

Lemma agrees_init : agrees fl 0 fl.
Proof. intros j. reflexivity. Qed.

Lemma agrees_at (i : nat) (cur : list entry) :
  agrees fl i cur -> cur !! i = fl !! i.
Proof. intros H. rewrite H. by rewrite Nat.ltb_irrefl. Qed.

Lemma agrees_after (i j : nat) (cur : list entry) :
  agrees fl i cur -> (i <= j)%nat -> cur !! j = fl !! j.
Proof.
  intros H Hij. rewrite H.
  destruct (Nat.ltb_spec j i); [lia|reflexivity].
Qed.

Lemma agrees_same_label (i j : nat) (cur : list entry) (x : entry) :
  agrees fl i cur -> cur !! j = Some x ->
  exists y, fl !! j = Some y /\ same_label x y.
Proof.
  intros H Hx. rewrite H in Hx.
  destruct (j <? i)%nat.
  - destruct (fl !! j) as [y|]; [|discriminate]. injection Hx as <-.
    exists y. split; [reflexivity|apply adjust_at_same_label].
  - exists x. split; [assumption|]. destruct x; simpl; auto.
Qed.

(** A silence entry is the same in [cur] and in [fl]. *)
Lemma agrees_silence (i j : nat) (cur : list entry) :
  agrees fl i cur ->
  match cur !! j with Some (Silence a b) => Some (a, b) | _ => None end
  = match fl !! j with Some (Silence a b) => Some (a, b) | _ => None end.
Proof.
  intros H. rewrite H. destruct (j <? i)%nat; [|reflexivity].
  destruct (fl !! j) as [[]|]; reflexivity.
Qed.

Lemma new_start_agrees (i : nat) (cur : list entry) (s e : Q) :
  agrees fl i cur -> new_start cur i s e = new_start fl i s e.
Proof.
  intros H. unfold new_start.
  destruct (1 <=? i)%nat; [|reflexivity].
  pose proof (agrees_silence i (i - 1) cur H) as Hs.
  destruct (cur !! (i - 1)%nat) as [[]|], (fl !! (i - 1)%nat) as [[]|];
    simpl in *; try congruence.
  by injection Hs as -> ->.
Qed.

Lemma new_end_agrees (i : nat) (cur : list entry) (e : Q) :
  agrees fl i cur -> new_end cur i e = new_end fl i e.
Proof.
  intros H. unfold new_end. by rewrite (agrees_after i (i + 1) cur H) by lia.
Qed.

Lemma orphan_at_agrees (i : nat) (cur : list entry) :
  agrees fl i cur -> orphan_at cur i = orphan_at fl i.
Proof.
  intros H. unfold orphan_at.
  by rewrite (agrees_at i cur H), (agrees_after i (i + 1) cur H) by lia.
Qed.

Lemma agrees_step (i : nat) (cur : list entry) (x : entry) :
  agrees fl i cur -> fl !! i = Some x ->
  agrees fl (S i) (<[i := adjust_at fl i x]> cur).
Proof.
  intros H Hx j.
  pose proof (agrees_length i cur H) as Hlen.
  apply lookup_lt_Some in Hx as Hi.
  destruct (decide (i = j)) as [<-|Hne].
  - rewrite list_lookup_insert_eq by lia.
    destruct (Nat.ltb_spec i (S i)); [|lia]. by rewrite Hx.
  - rewrite list_lookup_insert_ne by done. rewrite H.
    destruct (Nat.ltb_spec j i), (Nat.ltb_spec j (S i)); try lia; reflexivity.
Qed.

Lemma agrees_step_silence (i : nat) (cur : list entry) (a b : Q) :
  agrees fl i cur -> fl !! i = Some (Silence a b) -> agrees fl (S i) cur.
Proof.
  intros H Hx.
  rewrite <- (list_insert_id cur i (Silence a b)).
  - by apply (agrees_step i cur (Silence a b)).
  - by rewrite (agrees_at i cur H).
Qed.

Lemma find_same_label (l l' : list entry) :
  Forall2 same_label l l' ->
  option_Forall2 same_label (List.find is_segment l) (List.find is_segment l').
Proof.
  induction 1 as [|x y l l' Hxy Hl IH]; simpl; [constructor|].
  destruct x, y; simpl in *; try tauto. by constructor.
Qed.

Lemma idx_text_same_label (o o' : option entry) (sentinel : string) :
  option_Forall2 same_label o o' -> idx_text o sentinel = idx_text o' sentinel.
Proof.
  destruct 1 as [x y Hxy|]; [|reflexivity].
  destruct x, y; simpl in *; try tauto. by destruct Hxy as [-> ->].
Qed.

Lemma srt_text_agrees (i : nat) (cur : list entry) :
  agrees fl i cur -> srt_text cur i = srt_text fl i.
Proof.
  intros H. unfold srt_text, prev_asr_segment, next_asr_segment.
  assert (Hdrop : drop (i + 2) cur = drop (i + 2) fl).
  { apply list_eq. intros j. rewrite !lookup_drop.
    apply (agrees_after i); [assumption|lia]. }
  assert (Htake : Forall2 same_label (take i cur) (take i fl)).
  { apply Forall2_take, Forall2_same_length_lookup_2.
    - by apply (agrees_length i).
    - intros j x y Hx Hy.
      destruct (agrees_same_label i j cur x H Hx) as (y' & Hy' & Hl). congruence. }
  rewrite Hdrop.
  rewrite (idx_text_same_label
             (List.find is_segment (rev (take i cur)))
             (List.find is_segment (rev (take i fl)))); [reflexivity|].
  apply find_same_label. rewrite !rev_alt. by apply Forall2_reverse.
Qed.

Lemma body_segment (i : nat) (st : state) (s e : Q) (t : string) (k : Z) :
  agrees fl i (full_list st) -> fl !! i = Some (Segment s e t k) ->
  body io i st
  = let s' := new_start fl i s e in
    let e' := new_end fl i e in
    let cur := <[i := Segment s' e' t k]> (full_list st) in
    if Qltb e' s'
    then (State cur (written st) (non_speech_srt_entries st)
            (non_speech_file_counter st), Raised s' e')
    else (State cur (written st ++ [Seg k s' e' t])
            (non_speech_srt_entries st) (non_speech_file_counter st), Continue).
Proof.
  intros H Hx. unfold body.
  rewrite (agrees_at i _ H), Hx.
  by rewrite (new_start_agrees i _ s e H), (new_end_agrees i _ e H).
Qed.

Lemma body_silence (i : nat) (st : state) (a b : Q) :
  agrees fl i (full_list st) -> fl !! i = Some (Silence a b) ->
  body io i st
  = (State (full_list st) (written st)
       (fst (ns_step io fl (non_speech_srt_entries st,
                            non_speech_file_counter st) i))
       (snd (ns_step io fl (non_speech_srt_entries st,
                            non_speech_file_counter st) i)),
     Continue).
Proof.
  intros H Hx. unfold body, ns_step.
  rewrite <- (orphan_at_agrees i _ H), <- (srt_text_agrees i _ H).
  unfold orphan_at. rewrite (agrees_at i _ H), Hx.
  destruct st as [cur w ns c]; simpl.
  destruct (cur !! (i + 1)%nat) as [[|ns_start ns_end]|]; try reflexivity.
  destruct (Qltb _ _); [|reflexivity].
  destruct (non_speech_on io && save_ok io c _ _)%bool; reflexivity.
Qed.

Lemma ns_step_segment (i : nat) (s e : Q) (t : string) (k : Z)
    (acc : list ns_entry * Z) :
  fl !! i = Some (Segment s e t k) -> ns_step io fl acc i = acc.
Proof. intros Hx. unfold ns_step, orphan_at. by rewrite Hx. Qed.

Lemma adjusted_lookup (i : nat) (x : entry) :
  fl !! i = Some x -> adjusted fl !! i = Some (adjust_at fl i x).
Proof. intros Hx. unfold adjusted. by rewrite list_lookup_imap, Hx. Qed.

Lemma adjusted_drop (i : nat) (x : entry) :
  fl !! i = Some x ->
  drop i (adjusted fl) = adjust_at fl i x :: drop (S i) (adjusted fl).
Proof. intros Hx. by apply drop_S, adjusted_lookup. Qed.

Lemma walk_from_spec (n : nat) :
  forall (i : nat) (st : state),
    agrees fl i (full_list st) -> (i + n <= length fl)%nat ->
    exists st' o, walk_from io (seq i n) st = (st', o) /\ walk_post io fl i n st st' o.
Proof.
  induction n as [|n IH]; intros i st H Hlen.
  - exists st, Continue. split; [reflexivity|]. simpl.
    rewrite Nat.add_0_r, app_nil_r. repeat split; auto.
  - destruct (lookup_lt_is_Some_2 fl i) as [x Hx]; [lia|].
    simpl seq. simpl walk_from.
    destruct x as [s e t k|a b].
    + rewrite (body_segment i st s e t k H Hx). cbv zeta.
      pose proof (agrees_step i _ _ H Hx) as H'. simpl in H'.
      pose proof (adjusted_lookup i _ Hx) as Hadj. simpl in Hadj.
      destruct (Qltb (new_end fl i e) (new_start fl i s e)) eqn:Hchk.
      * eexists _, _. split; [reflexivity|]. simpl.
        exists 0%nat, t, k. rewrite Nat.add_0_r, app_nil_r.
        apply Qltb_lt in Hchk. repeat split; auto. lia.
      * apply Qltb_ge in Hchk.
        match goal with |- context [walk_from io _ ?s1] =>
          destruct (IH (S i) s1) as (st' & o & Hw & Hpost); [exact H'|lia|]
        end.
        rewrite Hw. exists st', o. split; [by destruct o|].
        unfold walk_post in *. rewrite (adjusted_drop i _ Hx).
        destruct o as [|a b]; simpl in Hpost |- *.
        -- destruct Hpost as (Hag & Hwr & Hwt & Hns).
           rewrite Nat.add_succ_r. split; [exact Hag|].
           split; [by rewrite Hwr, <- app_assoc|].
           split; [by constructor|].
           by rewrite (ns_step_segment i s e t k _ Hx).
        -- destruct Hpost as (m & t' & k' & Hm & Hlk & Hlt & Hag & Hwr & Hwt & Hns).
           exists (S m), t', k'. rewrite Nat.add_succ_r.
           split; [lia|]. split; [exact Hlk|]. split; [exact Hlt|].
           split; [exact Hag|]. simpl.
           split; [by rewrite Hwr, <- app_assoc|].
           split; [by constructor|].
           by rewrite (ns_step_segment i s e t k _ Hx).
    + rewrite (body_silence i st a b H Hx).
      match goal with |- context [walk_from io _ ?s1] =>
        destruct (IH (S i) s1) as (st' & o & Hw & Hpost);
          [exact (agrees_step_silence i _ a b H Hx)|lia|]
      end.
      rewrite Hw. exists st', o. split; [by destruct o|].
      unfold walk_post in *. rewrite (adjusted_drop i _ Hx).
      destruct o as [|a' b']; simpl in Hpost |- *.
      * destruct Hpost as (Hag & Hwr & Hwt & Hns).
        rewrite Nat.add_succ_r. split; [exact Hag|].
        split; [exact Hwr|]. split; [by constructor|].
        rewrite Hns. by destruct (ns_step io fl _ i).
      * destruct Hpost as (m & t' & k' & Hm & Hlk & Hlt & Hag & Hwr & Hwt & Hns).
        exists (S m), t', k'. rewrite Nat.add_succ_r.
        split; [lia|]. split; [exact Hlk|]. split; [exact Hlt|].
        split; [exact Hag|]. simpl.
        split; [exact Hwr|]. split; [by constructor|].
        rewrite Hns. by destruct (ns_step io fl _ i).
Qed.

Lemma agrees_full (cur : list entry) :
  agrees fl (length fl) cur -> cur = adjusted fl.
Proof.
  intros H. apply list_eq. intros j. rewrite H.
  unfold adjusted. rewrite list_lookup_imap.
  destruct (Nat.ltb_spec j (length fl)); [reflexivity|].
  by rewrite (lookup_ge_None_2 fl).
Qed.

Lemma walk_spec :
  exists st o,
    walk io fl = (st, o) /\ walk_post io fl 0 (length fl) (State fl [] [] 1) st o.
Proof. apply walk_from_spec; [apply agrees_init|simpl; lia]. Qed.

Lemma segment_of_well_timed (l : list entry) :
  Forall well_timed l ->
  Forall (fun w => start_time w <= end_time w) (omap segment_of l).
Proof.
  induction 1 as [|x l Hx Hl IH]; [constructor|].
  destruct x; simpl; [by constructor|exact IH].
Qed.

End WalkFacts.

Section WalkClaims.
Import Expand.

(** C3.  The walk never writes a record whose start is after its end; and
    when the adjustment of some subtitle entry yields start > end, the walk
    stops with the [ValueError] at the first such entry, reporting its
    adjusted, unclamped times, and has written the records of the subtitle
    entries before that one and nothing else. *)
Theorem C3_invalid_segment_raises
    (io : audio_io) (fl : list entry) (st : state) (o : outcome) :
  walk io fl = (st, o) ->
  Forall (fun w => start_time w <= end_time w) (written st)
  /\ forall (i : nat) (s e : Q) (t : string) (k : Z),
       fl !! i = Some (Segment s e t k) ->
       new_end fl i e < new_start fl i s e ->
       exists (j : nat) (s' e' : Q) (t' : string) (k' : Z),
         (j <= i)%nat
         /\ fl !! j = Some (Segment s' e' t' k')
         /\ new_end fl j e' < new_start fl j s' e'
         /\ o = Raised (new_start fl j s' e') (new_end fl j e')
         /\ written st = omap segment_of (take j (adjusted fl)).
Proof.
  intros Hw.
  destruct (walk_spec io fl) as (st' & o' & Hw' & Hpost).
  rewrite Hw in Hw'. injection Hw' as <- <-.
  destruct o as [|a b]; simpl in Hpost.
  - destruct Hpost as (_ & Hwr & Hwt & _). simpl in Hwr.
    split; [rewrite Hwr; by apply segment_of_well_timed|].
    intros i s e t k Hi Hbad. exfalso.
    rewrite drop_0 in Hwt.
    rewrite Forall_lookup in Hwt.
    pose proof (adjusted_lookup fl i _ Hi) as Hadj.
    apply lookup_lt_Some in Hi as Hlt.
    specialize (Hwt i _ ltac:(rewrite lookup_take_lt by lia; exact Hadj)).
    simpl in Hwt. lra.
  - destruct Hpost as (m & t' & k' & Hm & Hlk & Hlt & _ & Hwr & Hwt & _).
    simpl in Hwr, Hlk, Hwt. rewrite drop_0 in Hwr, Hwt.
    split; [rewrite Hwr; by apply segment_of_well_timed|].
    intros i s e t k Hi Hbad.
    unfold adjusted in Hlk. rewrite list_lookup_imap in Hlk.
    destruct (fl !! m) as [[s' e' t'' k''|]|] eqn:Hm'; try discriminate.
    simpl in Hlk. injection Hlk as <- <- <- <-.
    exists m, s', e', t'', k''. repeat split; auto.
    destruct (Nat.le_gt_cases m i) as [Hle|Hgt]; [exact Hle|exfalso].
    rewrite Forall_lookup in Hwt.
    pose proof (adjusted_lookup fl i _ Hi) as Hadj.
    specialize (Hwt i _ ltac:(rewrite lookup_take_lt by lia; exact Hadj)).
    simpl in Hwt. lra.
Qed.

(** The subtitle [1,6] between the overlapping silences [0,5] and [4,7] is
    adjusted to start 5 and end 4. *)
Lemma C3_witness :
  walk all_ok [Silence 0 5; Segment 1 6 "a" 1; Silence 4 7]
  = (State [Silence 0 5; Segment 5 4 "a" 1; Silence 4 7] [] [] 1, Raised 5 4)
  /\ Forall (fun w => start_time w <= end_time w)
       (written (State [Silence 0 5; Segment 5 4 "a" 1; Silence 4 7] [] [] 1)).
Proof.
  split; [reflexivity|].
  exact (proj1 (C3_invalid_segment_raises all_ok
                  [Silence 0 5; Segment 1 6 "a" 1; Silence 4 7]
                  _ _ eq_refl)).
Defined.

End WalkClaims.

(** ** Runs of expand/subtract mode *)

Section RunFacts.
Import Expand.

Lemma run_walk (io : audio_io) (silence_segments : list (Q * Q))
    (matched : list segment) (st : state) (o : outcome) :
  parse_srt matched <> [] ->
  walk io (merge (parse_srt matched) silence_segments) = (st, o) ->
  run io silence_segments matched
  = match o with
    | Continue =>
        Result (written st) (non_speech_srt_entries st) (full_list st) None
    | Raised a b => Result (written st) [] (full_list st) (Some (a, b))
    end.
Proof.
  intros Hne Hw. unfold run.
  destruct (parse_srt matched) as [|s segments]; [congruence|].
  by rewrite Hw.
Qed.

Lemma merge_nil_silence (silence_segments : list (Q * Q)) (i : nat) (x : entry) :
  merge [] silence_segments !! i = Some x -> is_silence x = true.
Proof.
  intros Hx. apply list_elem_of_lookup_2 in Hx.
  unfold merge in Hx. rewrite stable_sort_perm in Hx. simpl in Hx.
  apply list_elem_of_In, in_map_iff in Hx as (y & <- & _). reflexivity.
Qed.

Lemma take_adjusted_all (fl : list entry) :
  take (length fl) (adjusted fl) = adjusted fl.
Proof. apply take_ge. unfold adjusted. by rewrite length_imap. Qed.

(** C4, as the code has it.  In a run that ends without error, a subtitle
    entry that comes right after a silence entry and right before another
    one in the merged timeline, and that ends after the end of the silence
    before it, ends up from the end of that silence to the start of the
    silence after it, in the timeline and in the written record. *)
Theorem C4_between_silences
    (io : audio_io) (silence_segments : list (Q * Q)) (matched : list segment)
    (i : nat) (pa pe s e na ne : Q) (t : string) (k : Z) :
  let fl := merge (parse_srt matched) silence_segments in
  fl !! i = Some (Silence pa pe) ->
  fl !! S i = Some (Segment s e t k) ->
  fl !! S (S i) = Some (Silence na ne) ->
  pe < e ->
  error (run io silence_segments matched) = None ->
  corrected (run io silence_segments matched) !! S i
  = Some (Segment pe na t k)
  /\ Seg k pe na t ∈ output_srt (run io silence_segments matched).
Proof.
  intros fl Hp Hs Hn Hlt Herr.
  assert (Hne : parse_srt matched <> []).
  { intros Hnil. subst fl. rewrite Hnil in Hs.
    by apply merge_nil_silence in Hs. }
  destruct (walk_spec io fl) as (st & o & Hw & Hpost).
  rewrite (run_walk io silence_segments matched st o Hne Hw) in Herr |- *.
  destruct o as [|a b]; [|discriminate]. simpl in Hpost |- *.
  destruct Hpost as (Hag & Hwr & _ & _).
  apply agrees_full in Hag. rewrite drop_0, take_adjusted_all in Hwr. simpl in Hwr.
  assert (Hadj : adjusted fl !! S i = Some (Segment pe na t k)).
  { rewrite (adjusted_lookup fl (S i) _ Hs). simpl.
    unfold new_start, new_end. simpl. rewrite Nat.sub_0_r, Hp.
    replace (S (i + 1)) with (S (S i)) by lia. rewrite Hn.
    apply Qltb_lt in Hlt. by rewrite Hlt. }
  split; [by rewrite Hag|].
  rewrite Hwr. apply list_elem_of_omap.
  exists (Segment pe na t k). split; [|reflexivity].
  by eapply list_elem_of_lookup_2.
Qed.

(** The subtitle [1,3] between the silences [0,2] and [6,7] becomes [2,6]. *)
Lemma C4_witness :
  corrected (run all_ok [(0, 2); (6, 7)] [Seg 1 1 3 "a"]) !! 1%nat
  = Some (Segment 2 6 "a" 1)
  /\ Seg 1 2 6 "a" ∈ output_srt (run all_ok [(0, 2); (6, 7)] [Seg 1 1 3 "a"]).
Proof.
  apply (C4_between_silences all_ok [(0, 2); (6, 7)] [Seg 1 1 3 "a"]
           0 0 2 1 3 6 7 "a" 1); reflexivity.
Defined.

(** C4 as stated fails: the subtitle [1,3] lies between the silences [0,5]
    and [6,7] in the merged timeline and ends up as [1,6]; its start is not
    the end of the preceding silence. *)
Lemma C4_counterexample :
  run all_ok [(0, 5); (6, 7)] [Seg 1 1 3 "a"]
  = Result [Seg 1 1 6 "a"] []
      [Silence 0 5; Segment 1 6 "a" 1; Silence 6 7] None
  /\ ~ (forall (i : nat) (pa pe s e na ne : Q) (t : string) (k : Z),
          merge (parse_srt [Seg 1 1 3 "a"]) [(0, 5); (6, 7)] !! i
          = Some (Silence pa pe) ->
          merge (parse_srt [Seg 1 1 3 "a"]) [(0, 5); (6, 7)] !! S i
          = Some (Segment s e t k) ->
          merge (parse_srt [Seg 1 1 3 "a"]) [(0, 5); (6, 7)] !! S (S i)
          = Some (Silence na ne) ->
          exists s' e',
            corrected (run all_ok [(0, 5); (6, 7)] [Seg 1 1 3 "a"]) !! S i
            = Some (Segment s' e' t k)
            /\ s' == pe /\ e' == na).
Proof.
  split; [reflexivity|].
  intros H.
  destruct (H 0%nat 0 5 1 3 6 7 "a"%string 1%Z eq_refl eq_refl eq_refl)
    as (s' & e' & Hc & Hs & _).
  vm_compute in Hc. injection Hc as <- <-. discriminate.
Qed.

End RunFacts.

(** ** Non-speech events *)

Section NonSpeechFacts.
Import Expand.

Lemma ns_fold_none (io : audio_io) (fl : list entry) (indices : list nat) :
  forall acc,
    Forall (fun j => orphan_at fl j = None) indices ->
    fold_left (ns_step io fl) indices acc = acc.
Proof.
  induction indices as [|j indices IH]; intros acc Hall; simpl; [reflexivity|].
  inversion Hall as [|? ? Hj Hrest]; subst.
  unfold ns_step at 2. rewrite Hj. by apply IH.
Qed.

Lemma orphan_at_segment (fl : list entry) (j : nat) (x : entry) :
  fl !! j = Some x -> is_segment x = true -> orphan_at fl j = None.
Proof. intros Hx Hseg. unfold orphan_at. rewrite Hx. by destruct x. Qed.

Lemma orphan_at_next_not_silence (fl : list entry) (j : nat) :
  match fl !! (j + 1)%nat with Some (Silence _ _) => False | _ => True end ->
  orphan_at fl j = None.
Proof.
  intros H. unfold orphan_at.
  destruct (fl !! j) as [[]|]; try reflexivity.
  destruct (fl !! (j + 1)%nat) as [[]|]; try reflexivity. contradiction.
Qed.

Lemma orphan_at_positive (fl : list entry) (j : nat) (a b : Q) :
  orphan_at fl j = Some (a, b) -> a < b.
Proof.
  unfold orphan_at.
  destruct (fl !! j) as [[|? s_end]|]; try discriminate.
  destruct (fl !! (j + 1)%nat) as [[|next_start ?]|]; try discriminate.
  destruct (Qltb _ _) eqn:E; [|discriminate].
  intros [= <- <-]. by apply Qltb_lt.
Qed.

Lemma ns_fold_positive (io : audio_io) (fl : list entry) (indices : list nat) :
  forall acc,
    Forall (fun n => ns_start_time n < ns_end_time n) (fst acc) ->
    Forall (fun n => ns_start_time n < ns_end_time n)
      (fst (fold_left (ns_step io fl) indices acc)).
Proof.
  induction indices as [|j indices IH]; intros acc Hacc; simpl; [exact Hacc|].
  apply IH. unfold ns_step.
  destruct (orphan_at fl j) as [[a b]|] eqn:E; [|exact Hacc].
  destruct (non_speech_on io && save_ok io (snd acc) a b)%bool; [|exact Hacc].
  simpl. apply Forall_app. split; [exact Hacc|].
  constructor; [|constructor]. simpl. by eapply orphan_at_positive.
Qed.

(** C9.  With the non-speech directory given, the audio loaded and the clip
    saved: in a timeline where the silences [1,2] and [4,5] follow one
    another, with subtitle entries only before and after them, a walk that
    ends without error yields exactly one non-speech entry, with number 1
    and the range from 2 plus the tolerance to 4 minus the tolerance.  And at
    two silences in a row whose range, after the tolerance is applied, has no
    positive duration, the walk goes on with nothing changed and no error, so
    that every entry a walk yields has a positive duration. *)
Theorem C9_orphan_between_silences :
  (forall (io : audio_io) (pre post : list entry) (st : state),
      non_speech_on io = true ->
      save_ok io 1 (2 + Builder.analysis_window) (4 - Builder.analysis_window) = true ->
      Forall (fun x => is_segment x = true) pre ->
      Forall (fun x => is_segment x = true) post ->
      walk io (pre ++ [Silence 1 2; Silence 4 5] ++ post) = (st, Continue) ->
      non_speech_srt_entries st
      = [NsEntry 1 (2 + Builder.analysis_window) (4 - Builder.analysis_window)
           (srt_text (pre ++ [Silence 1 2; Silence 4 5] ++ post) (length pre))])
  /\ (forall (io : audio_io) (index : nat) (st : state)
             (a s_end next_start b : Q),
        full_list st !! index = Some (Silence a s_end) ->
        full_list st !! (index + 1)%nat = Some (Silence next_start b) ->
        next_start - Builder.analysis_window <= s_end + Builder.analysis_window ->
        body io index st = (st, Continue))
  /\ (forall (io : audio_io) (fl : list entry) (st : state) (o : outcome),
        walk io fl = (st, o) ->
        Forall (fun n => ns_start_time n < ns_end_time n)
          (non_speech_srt_entries st)).
Proof.
  split; [|split].
  - intros io pre post st Hon Hsave Hpre Hpost Hw.
    set (fl := pre ++ [Silence 1 2; Silence 4 5] ++ post) in *.
    destruct (walk_spec io fl) as (st' & o & Hw' & Hpost').
    rewrite Hw in Hw'. injection Hw' as <- <-. simpl in Hpost'.
    destruct Hpost' as (_ & _ & _ & Hns). simpl in Hns.
    assert (Hlen : length fl = (length pre + S (S (length post)))%nat).
    { subst fl. rewrite !length_app. simpl. lia. }
    rewrite Hlen, seq_app, fold_left_app in Hns. simpl in Hns.
    rewrite (ns_fold_none io fl (seq 0 (length pre))) in Hns.
    2:{ apply List.Forall_forall. intros j [_ Hj]%in_seq.
        destruct (lookup_lt_is_Some_2 pre j) as [x Hx]; [lia|].
        apply (orphan_at_segment fl j x).
        - subst fl. by apply lookup_app_l_Some.
        - rewrite Forall_lookup in Hpre. by apply (Hpre j). }
    assert (H1 : fl !! length pre = Some (Silence 1 2)).
    { subst fl. by rewrite lookup_app_r, Nat.sub_diag by lia. }
    assert (H2 : fl !! (length pre + 1)%nat = Some (Silence 4 5)).
    { subst fl. rewrite lookup_app_r by lia.
      by replace (length pre + 1 - length pre)%nat with 1%nat by lia. }
    assert (Hafter : forall j, (length pre + 2 <= j)%nat ->
               match fl !! j with Some (Silence _ _) => False | _ => True end).
    { intros j Hj. subst fl. rewrite lookup_app_r by lia.
      replace (j - length pre)%nat with (S (S (j - length pre - 2))) by lia.
      simpl. destruct (post !! _) as [x|] eqn:Hx; [|exact I].
      rewrite Forall_lookup in Hpost. specialize (Hpost _ _ Hx). by destruct x. }
    unfold ns_step at 3 in Hns. unfold orphan_at at 1 in Hns.
    rewrite H1, H2 in Hns.
    change (Qltb (2 + Builder.analysis_window) (4 - Builder.analysis_window)) with true in Hns.
    simpl fst in Hns. simpl snd in Hns. rewrite Hon, Hsave in Hns. simpl in Hns.
    unfold ns_step at 2 in Hns.
    rewrite (orphan_at_next_not_silence fl (S (length pre))) in Hns.
    2:{ apply Hafter. lia. }
    rewrite ns_fold_none in Hns.
    2:{ apply List.Forall_forall. intros j [Hj _]%in_seq.
        destruct (fl !! j) as [x|] eqn:Hx.
        - apply (orphan_at_segment fl j x Hx).
          specialize (Hafter j ltac:(lia)). rewrite Hx in Hafter.
          by destruct x.
        - unfold orphan_at. by rewrite Hx. }
    by injection Hns as -> _.
  - intros io index st a s_end next_start b Hi Hn Hle.
    unfold body. rewrite Hi, Hn.
    apply Qltb_ge in Hle. by rewrite Hle.
  - intros io fl st o Hw.
    destruct (walk_spec io fl) as (st' & o' & Hw' & Hpost).
    rewrite Hw in Hw'. injection Hw' as <- <-.
    assert (Hpos : forall indices,
               Forall (fun n => ns_start_time n < ns_end_time n)
                 (fst (fold_left (ns_step io fl) indices ([], 1%Z)))).
    { intros indices. apply ns_fold_positive. constructor. }
    destruct o as [|a b]; simpl in Hpost.
    + destruct Hpost as (_ & _ & _ & Hns). simpl in Hns.
      specialize (Hpos (seq 0 (length fl))). by rewrite <- Hns in Hpos.
    + destruct Hpost as (m & t & k & _ & _ & _ & _ & _ & _ & Hns). simpl in Hns.
      specialize (Hpos (seq 0 m)). by rewrite <- Hns in Hpos.
Qed.

(** The silences [1,2] and [4,5] before the subtitle 1. *)
Lemma C9_witness :
  non_speech_srt_entries
    (fst (walk all_ok [Silence 1 2; Silence 4 5; Segment 6 7 "hi" 1]))
  = [NsEntry 1 (201 # 100) (399 # 100)
       "Non-speech segment detected between segment 'start of audio' and segment '1 hi'."].
Proof.
  apply (proj1 C9_orphan_between_silences all_ok [] [Segment 6 7 "hi" 1]
           (fst (walk all_ok [Silence 1 2; Silence 4 5; Segment 6 7 "hi" 1])));
    try reflexivity; repeat constructor.
Defined.

End NonSpeechFacts.

(** ** Sorting by a key in seconds *)

Section KeySort.
Context {A : Type} (key : A -> Q).

Lemma insert_sorted_head (x : A) (l : list A) :
  match l with
  | y :: _ => key x <= key y
  | [] => True
  end ->
  insert_sorted (key_ltb key) x l = x :: l.
Proof.
  destruct l as [|y l]; [reflexivity|]. intros Hy. simpl.
  apply Qltb_ge in Hy. unfold key_ltb. by rewrite Hy.
Qed.

Lemma insert_sorted_ascending (x : A) (l : list A) :
  ascending key l -> ascending key (insert_sorted (key_ltb key) x l).
Proof.
  induction 1 as [|y l Hl IH Hy]; simpl.
  - repeat constructor.
  - destruct (key_ltb key y x) eqn:E; unfold key_ltb in E.
    + apply Qltb_lt in E. constructor; [exact IH|].
      rewrite insert_sorted_perm. constructor; [lra|exact Hy].
    + apply Qltb_ge in E. constructor; [by constructor|].
      constructor; [exact E|].
      eapply Forall_impl; [exact Hy|]. simpl. intros z Hz. lra.
Qed.

Lemma stable_sort_ascending (l : list A) : ascending key (stable_sort (key_ltb key) l).
Proof.
  induction l as [|x l IH]; simpl; [constructor|].
  by apply insert_sorted_ascending.
Qed.

Lemma stable_sort_id (l : list A) : ascending key l -> stable_sort (key_ltb key) l = l.
Proof.
  induction 1 as [|x l Hl IH Hx]; simpl; [reflexivity|].
  rewrite IH. apply insert_sorted_head.
  destruct l as [|y l]; [exact I|]. by inversion Hx.
Qed.

End KeySort.

Section KeySortMap.
Context {A B : Type} (keyA : A -> Q) (keyB : B -> Q) (f : A -> option B).
Hypothesis key_f : forall a b, f a = Some b -> keyB b = keyA a.

Lemma omap_head_key (x : A) (l : list A) :
  Forall (fun y => keyA x <= keyA y) l ->
  match omap f l with
  | b :: _ => keyA x <= keyB b
  | [] => True
  end.
Proof.
  induction 1 as [|y l Hy Hl IH]; simpl; [exact I|].
  destruct (f y) as [b|] eqn:E; [|exact IH].
  by rewrite (key_f y b E).
Qed.

Lemma omap_insert_sorted (x : A) (l : list A) :
  ascending keyA l ->
  omap f (insert_sorted (key_ltb keyA) x l)
  = match f x with
    | Some b => insert_sorted (key_ltb keyB) b (omap f l)
    | None => omap f l
    end.
Proof.
  induction 1 as [|y l Hl IH Hy]; csimpl.
  - by destruct (f x).
  - destruct (key_ltb keyA y x) eqn:E; csimpl.
    + rewrite IH. destruct (f y) as [c|] eqn:Ey, (f x) as [b|] eqn:Ex;
        csimpl; try reflexivity.
      replace (key_ltb keyB c b) with true; [reflexivity|].
      unfold key_ltb in *. by rewrite (key_f y c Ey), (key_f x b Ex).
    + apply Qltb_ge in E.
      destruct (f x) as [b|] eqn:Ex; [|reflexivity].
      symmetry. apply insert_sorted_head.
      rewrite (key_f x b Ex).
      apply (omap_head_key x (y :: l)). constructor; [exact E|].
      eapply Forall_impl; [exact Hy|]. simpl. intros z Hz. lra.
Qed.

Lemma omap_stable_sort (l : list A) :
  omap f (stable_sort (key_ltb keyA) l)
  = stable_sort (key_ltb keyB) (omap f l).
Proof.
  induction l as [|x l IH]; csimpl; [reflexivity|].
  rewrite omap_insert_sorted by apply stable_sort_ascending.
  rewrite IH. by destruct (f x).
Qed.

End KeySortMap.

Section OrderFacts.
Import Expand.

Lemma merge_key (segments : list segment) (silence_segments : list (Q * Q)) :
  merge segments silence_segments
  = stable_sort (key_ltb e_start)
      (map of_segment segments ++ map of_silence silence_segments).
Proof. reflexivity. Qed.

Lemma omap_segment_of_unsorted
    (segments : list segment) (silence_segments : list (Q * Q)) :
  omap segment_of (map of_segment segments ++ map of_silence silence_segments)
  = segments.
Proof.
  induction segments as [|s segments IH]; csimpl.
  - induction silence_segments as [|x sil IH]; csimpl; [reflexivity|exact IH].
  - rewrite IH. by destruct s.
Qed.

(** The subtitle entries of the merged timeline are the subtitle segments in
    ascending order of their start times. *)
Lemma merge_segments (segments : list segment) (silence_segments : list (Q * Q)) :
  omap segment_of (merge segments silence_segments)
  = stable_sort (key_ltb start_time) segments.
Proof.
  rewrite merge_key.
  rewrite (omap_stable_sort e_start start_time segment_of).
  - by rewrite omap_segment_of_unsorted.
  - intros [] b; simpl; [|discriminate]. by intros [= <-].
Qed.

Lemma same_label_index (l l' : list entry) :
  Forall2 same_label l l' ->
  map index (omap segment_of l) = map index (omap segment_of l').
Proof.
  induction 1 as [|x y l l' Hxy Hl IH]; [reflexivity|].
  destruct x, y; simpl in Hxy; try contradiction; csimpl; [|exact IH].
  destruct Hxy as [_ ->]. by rewrite IH.
Qed.

Lemma adjusted_same_label (fl : list entry) : Forall2 same_label (adjusted fl) fl.
Proof.
  apply Forall2_same_length_lookup_2.
  - unfold adjusted. by rewrite length_imap.
  - intros i x y Hx Hy. rewrite (adjusted_lookup fl i y Hy) in Hx.
    injection Hx as <-. apply adjust_at_same_label.
Qed.

(** C5, as the code has it.  In a run that ends without error the corrected
    subtitle segments are written in the order of the merged timeline, which
    is the ascending order of their original start times, segments with equal
    starts staying in index order; this is the original index order whenever
    the start times do not decrease along the index order. *)
Theorem C5_output_in_start_order
    (io : audio_io) (silence_segments : list (Q * Q)) (matched : list segment) :
  error (run io silence_segments matched) = None ->
  map index (output_srt (run io silence_segments matched))
  = map index
      (stable_sort (fun a b => Qltb (start_time a) (start_time b))
         (parse_srt matched))
  /\ (StronglySorted (fun a b => start_time a <= start_time b)
        (parse_srt matched) ->
      map index (output_srt (run io silence_segments matched))
      = map index (parse_srt matched)).
Proof.
  intros Herr.
  assert (Hout : map index (output_srt (run io silence_segments matched))
                 = map index (stable_sort (key_ltb start_time) (parse_srt matched))).
  { destruct (parse_srt matched) as [|s0 segments] eqn:Hseg.
    { unfold run. by rewrite Hseg. }
    rewrite <- Hseg in *.
    assert (Hne : parse_srt matched <> []) by (rewrite Hseg; discriminate).
    destruct (walk_spec io (merge (parse_srt matched) silence_segments))
      as (st & o & Hw & Hpost).
    rewrite (run_walk io silence_segments matched st o Hne Hw) in Herr |- *.
    destruct o as [|a b]; [|discriminate]. simpl in Hpost |- *.
    destruct Hpost as (_ & Hwr & _ & _).
    rewrite drop_0, take_adjusted_all in Hwr. simpl in Hwr. rewrite Hwr.
    rewrite (same_label_index _ _ (adjusted_same_label _)).
    by rewrite merge_segments. }
  split; [exact Hout|].
  intros Hasc. rewrite Hout. by rewrite (stable_sort_id start_time).
Qed.

(** Two subtitles whose starts ascend with their indices. *)
Lemma C5_witness :
  map index (output_srt (run all_ok [(3, 4)] [Seg 1 1 2 "a"; Seg 2 5 6 "b"]))
  = [1%Z; 2%Z].
Proof.
  apply (proj1 (C5_output_in_start_order all_ok [(3, 4)]
                  [Seg 1 1 2 "a"; Seg 2 5 6 "b"] eq_refl)).
Defined.

(** C5 as stated fails: the subtitle with index 2 starts before the one with
    index 1 and is written first. *)
Lemma C5_counterexample :
  run all_ok [(3, 4)] [Seg 1 5 6 "a"; Seg 2 1 2 "b"]
  = Result [Seg 2 1 3 "b"; Seg 1 4 6 "a"] []
      [Segment 1 3 "b" 2; Silence 3 4; Segment 4 6 "a" 1] None
  /\ map index (output_srt (run all_ok [(3, 4)] [Seg 1 5 6 "a"; Seg 2 1 2 "b"]))
     <> map index (parse_srt [Seg 1 5 6 "a"; Seg 2 1 2 "b"]).
Proof. split; [reflexivity|discriminate]. Qed.

End OrderFacts.

(** ** Running subtract-only mode again *)

Section AdvanceFacts.
Import Subtract.
Context (S : list (Q * Q)) (bound : Q).

Lemma advance_loop_stops (fuel : nat) :
  forall i, (length S - i <= fuel)%nat -> stops_at S bound i (advance_loop fuel S i bound).
Proof.
  induction fuel as [|fuel IH]; intros i Hfuel; simpl.
  - split; [lia|]. split; [intros k Hk; lia|].
    by rewrite (lookup_ge_None_2 S i) by lia.
  - destruct (S !! i) as [[a e]|] eqn:Hi.
    + destruct (Qltb e bound) eqn:E.
      * destruct (IH (i + 1)%nat ltac:(lia)) as (Hle & Hskip & Hstop).
        split; [lia|]. split; [|exact Hstop].
        intros k Hk. destruct (decide (k = i)) as [->|Hne].
        -- exists (a, e). split; [exact Hi|]. by apply Qltb_lt.
        -- apply Hskip. lia.
      * split; [lia|]. split; [intros k Hk; lia|].
        rewrite Hi. by apply Qltb_ge.
    + split; [lia|]. split; [intros k Hk; lia|]. by rewrite Hi.
Qed.

Lemma advance_stops (i : nat) : stops_at S bound i (advance S i bound).
Proof. apply advance_loop_stops. lia. Qed.

Lemma stops_at_unique (i j j' : nat) :
  stops_at S bound i j -> stops_at S bound i j' -> j = j'.
Proof.
  intros (Hle & Hskip & Hstop) (Hle' & Hskip' & Hstop').
  destruct (Nat.lt_trichotomy j j') as [Hlt|[Heq|Hgt]]; [|exact Heq|]; exfalso.
  - destruct (Hskip' j ltac:(lia)) as (x & Hx & Hlt').
    rewrite Hx in Hstop. lra.
  - destruct (Hskip j' ltac:(lia)) as (x & Hx & Hlt').
    rewrite Hx in Hstop'. lra.
Qed.

End AdvanceFacts.

Section SubtractIdem.
Import Subtract.
Context (S : list (Q * Q)) (Hapart : apart S).

Lemma apart_lookup (i j : nat) (x y : Q * Q) :
  (i < j)%nat -> S !! i = Some x -> S !! j = Some y -> snd x < fst y.
Proof. intros Hij Hi Hj. exact (StronglySorted_lookup _ S Hapart i j x y Hij Hi Hj). Qed.

(** Moving the bound down to the start of the silence the loop stopped at
    does not move the place where it stops. *)
Lemma stops_at_lower (i j : nat) (bound a b : Q) :
  stops_at S bound i j -> S !! j = Some (a, b) -> a <= b ->
  stops_at S a i j.
Proof.
  intros (Hle & Hskip & Hstop) Hj Hab.
  split; [exact Hle|]. split; [|by rewrite Hj].
  intros k Hk. destruct (Hskip k Hk) as (x & Hx & _).
  exists x. split; [exact Hx|].
  exact (apart_lookup k j x (a, b) ltac:(lia) Hx Hj).
Qed.

(** Moving the bound up to the end of the silence the loop stopped at does
    not move the place where it stops. *)
Lemma stops_at_raise (i j : nat) (bound a b : Q) :
  stops_at S bound i j -> S !! j = Some (a, b) -> bound <= b ->
  stops_at S b i j.
Proof.
  intros (Hle & Hskip & Hstop) Hj Hb.
  split; [exact Hle|]. split; [|rewrite Hj; simpl; lra].
  intros k Hk. destruct (Hskip k Hk) as (x & Hx & Hlt).
  exists x. split; [exact Hx|lra].
Qed.

Lemma adjust_again (p : nat) (s : segment) :
  adjust S p (snd (adjust S p s)) = adjust S p s.
Proof.
  destruct s as [k s e t]. unfold adjust. cbn [snd].
  remember (advance S p s) as p1 eqn:Ep1.
  pose proof (advance_stops S s p) as Hp1. rewrite <- Ep1 in Hp1.
  remember (match S !! p1 with
            | Some (a, b) =>
                if (Qltb a s && Qltb s b && Qltb b e)%bool then b else s
            | None => s
            end) as s' eqn:Es'.
  remember (advance S p1 e) as p2 eqn:Ep2.
  pose proof (advance_stops S e p1) as Hp2. rewrite <- Ep2 in Hp2.
  remember (match S !! p2 with
            | Some (a, b) =>
                if (Qltb s' a && Qltb e b && Qltb a e)%bool then a else e
            | None => e
            end) as e' eqn:Ee'.
  assert (He' : e' <= e).
  { subst e'. destruct (S !! p2) as [[a b]|]; [|lra].
    destruct (Qltb s' a && Qltb e b && Qltb a e)%bool eqn:C; [|lra].
    apply andb_prop in C as [_ C]. apply Qltb_lt in C. lra. }
  assert (Hq1 : advance S p s' = p1).
  { apply (stops_at_unique S s' p); [apply advance_stops|].
    subst s'. destruct (S !! p1) as [[a b]|] eqn:E1; [|exact Hp1].
    destruct (Qltb a s && Qltb s b && Qltb b e)%bool eqn:C; [|exact Hp1].
    apply andb_prop in C as [[_ C]%andb_prop _]. apply Qltb_lt in C.
    apply (stops_at_raise p p1 s a b Hp1 E1). lra. }
  rewrite Hq1.
  assert (Hs'' : match S !! p1 with
                 | Some (a, b) =>
                     if (Qltb a s' && Qltb s' b && Qltb b e')%bool then b else s'
                 | None => s'
                 end = s').
  { destruct (S !! p1) as [[a b]|] eqn:E1; [|reflexivity].
    destruct (Qltb a s' && Qltb s' b && Qltb b e')%bool eqn:C2; [|reflexivity].
    exfalso. apply andb_prop in C2 as [[Ca Cb]%andb_prop Cc].
    apply Qltb_lt in Ca, Cb, Cc.
    destruct (Qltb a s && Qltb s b && Qltb b e)%bool eqn:C1.
    - subst s'. lra.
    - subst s'.
      assert (Qltb a s && Qltb s b && Qltb b e = true)%bool; [|congruence].
      rewrite !andb_true_iff, !Qltb_lt. repeat split; lra. }
  rewrite Hs''.
  assert (Hq2 : advance S p1 e' = p2).
  { apply (stops_at_unique S e' p1); [apply advance_stops|].
    subst e'. destruct (S !! p2) as [[a b]|] eqn:E2; [|exact Hp2].
    destruct (Qltb s' a && Qltb e b && Qltb a e)%bool eqn:C; [|exact Hp2].
    apply andb_prop in C as [[_ Cb]%andb_prop Cc]. apply Qltb_lt in Cb, Cc.
    apply (stops_at_lower p1 p2 e a b Hp2 E2). lra. }
  rewrite Hq2.
  f_equal. f_equal.
  destruct (S !! p2) as [[a b]|] eqn:E2; [|reflexivity].
  destruct (Qltb s' a && Qltb e' b && Qltb a e')%bool eqn:C2; [|reflexivity].
  exfalso. apply andb_prop in C2 as [[Ca Cb]%andb_prop Cc].
  apply Qltb_lt in Ca, Cb, Cc.
  destruct (Qltb s' a && Qltb e b && Qltb a e)%bool eqn:C1.
  - subst e'. lra.
  - subst e'.
    assert (Qltb s' a && Qltb e b && Qltb a e = true)%bool; [|congruence].
    rewrite !andb_true_iff, !Qltb_lt. repeat split; lra.
Qed.

End SubtractIdem.

Section IndexSort.

Lemma parse_srt_insert_ascending (x : segment) (l : list segment) :
  index_ascending l ->
  index_ascending (insert_sorted (fun a b => (index a <? index b)%Z) x l).
Proof.
  induction 1 as [|y l Hl IH Hy]; simpl.
  - repeat constructor.
  - destruct (Z.ltb_spec (index y) (index x)) as [Hlt|Hge].
    + constructor; [exact IH|].
      rewrite insert_sorted_perm. constructor; [lia|exact Hy].
    + constructor; [by constructor|].
      constructor; [exact Hge|].
      eapply Forall_impl; [exact Hy|]. simpl. intros z Hz. lia.
Qed.

Lemma parse_srt_ascending (matched : list segment) :
  index_ascending (parse_srt matched).
Proof.
  unfold parse_srt. induction matched as [|x l IH]; simpl; [constructor|].
  by apply parse_srt_insert_ascending.
Qed.

Lemma parse_srt_id (l : list segment) : index_ascending l -> parse_srt l = l.
Proof.
  unfold parse_srt. induction 1 as [|x l Hl IH Hx]; simpl; [reflexivity|].
  rewrite IH. destruct l as [|y l]; [reflexivity|]. simpl.
  inversion Hx as [|? ? Hxy _]; subst.
  destruct (Z.ltb_spec (index y) (index x)); [lia|reflexivity].
Qed.

Lemma index_ascending_same (l o : list segment) :
  Forall2 (fun s w => index w = index s) l o ->
  index_ascending l -> index_ascending o.
Proof.
  induction 1 as [|s w l o Hsw Hlo IH]; intros Hasc; [constructor|].
  inversion Hasc as [|? ? Hl Hs]; subst.
  constructor; [by apply IH|].
  clear IH Hl Hasc. induction Hlo as [|s' w' l o Hsw' Hlo IH]; [constructor|].
  inversion Hs; subst. constructor; [lia|by apply IH].
Qed.

End IndexSort.

Section SubtractOnlyIdem.
Context (S : list (Q * Q)) (Hapart : apart S).

Lemma subtract_fold_again (segments : list segment) :
  forall (p : nat) (w : list segment),
  exists new,
    snd (fold_left (subtract_step S) segments (p, w)) = w ++ new
    /\ forall w0,
         fold_left (subtract_step S) new (p, w0)
         = (fst (fold_left (subtract_step S) segments (p, w)), w0 ++ new).
Proof.
  induction segments as [|s segments IH]; intros p w; simpl.
  - exists []. split; [by rewrite app_nil_r|]. intros w0. by rewrite app_nil_r.
  - pose proof (adjust_again S Hapart p s) as Hagain.
    destruct (Subtract.adjust S p s) as [p' o] eqn:E. simpl in Hagain.
    destruct (IH p' (w ++ [o])) as (new & Hsnd & Hfold).
    exists (o :: new). split; [by rewrite Hsnd, <- app_assoc|].
    intros w0. simpl. rewrite Hagain, Hfold. by rewrite <- app_assoc.
Qed.

Lemma subtract_only_again (matched : list segment) :
  subtract_only S (subtract_only S matched) = subtract_only S matched.
Proof.
  unfold subtract_only at 1 3.
  destruct (subtract_fold_again (parse_srt matched) 0 []) as (new & Hsnd & Hfold).
  simpl in Hsnd. unfold subtract_only. rewrite Hsnd.
  assert (Hid : parse_srt new = new).
  { apply parse_srt_id.
    apply (index_ascending_same (parse_srt matched)); [|apply parse_srt_ascending].
    destruct (subtract_fold_within S (parse_srt matched) 0 [])
      as (new' & Hsnd' & Hnew).
    rewrite Hsnd in Hsnd'. simpl in Hsnd'. subst new'.
    eapply Forall2_impl; [exact Hnew|]. unfold within. simpl. tauto. }
  rewrite Hid, Hfold. reflexivity.
Qed.

End SubtractOnlyIdem.

(** ** Sorting what is already in order *)

Section Regroup.
Context {A : Type} (key : A -> Q) (first : A -> bool).

Lemma insert_sorted_swap (x y : A) (l : list A) :
  ascending key l -> key x < key y ->
  insert_sorted (key_ltb key) y (insert_sorted (key_ltb key) x l)
  = insert_sorted (key_ltb key) x (insert_sorted (key_ltb key) y l).
Proof.
  intros Hasc Hxy. induction Hasc as [|z l Hl IH Hz]; simpl.
  - unfold key_ltb. apply Qltb_lt in Hxy as Hlt. rewrite Hlt.
    assert (Qltb (key y) (key x) = false) as -> by (apply Qltb_ge; lra).
    reflexivity.
  - destruct (key_ltb key z x) eqn:Ezx; unfold key_ltb in Ezx.
    + apply Qltb_lt in Ezx.
      assert (key_ltb key z y = true) as Ezy by (apply Qltb_lt; lra).
      simpl. rewrite Ezy. simpl.
      assert (key_ltb key z x = true) as -> by (by apply Qltb_lt).
      by rewrite IH.
    + apply Qltb_ge in Ezx. simpl.
      assert (key_ltb key x y = true) as -> by (by apply Qltb_lt).
      destruct (key_ltb key z y) eqn:Ezy; simpl.
      * assert (key_ltb key y x = false) as Eyx by (apply Qltb_ge; lra).
        assert (key_ltb key z x = false) as -> by (by apply Qltb_ge).
        reflexivity.
      * assert (key_ltb key y x = false) as -> by (apply Qltb_ge; lra).
        reflexivity.
Qed.

Lemma stable_sort_middle (x : A) (l1 l2 : list A) :
  List.Forall (fun a => key x < key a) l1 ->
  stable_sort (key_ltb key) (l1 ++ x :: l2)
  = insert_sorted (key_ltb key) x (stable_sort (key_ltb key) (l1 ++ l2)).
Proof.
  induction 1 as [|a l1 Ha Hl1 IH]; simpl; [reflexivity|].
  rewrite IH. apply insert_sorted_swap; [apply stable_sort_ascending|exact Ha].
Qed.

(** A list in ascending order of keys is what sorting gives when its [first]
    elements are put in front of the others, provided no other element came
    before a [first] one with the same key. *)
Lemma stable_sort_regroup (l : list A) :
  ascending key l -> grouped key first l ->
  stable_sort (key_ltb key)
    (List.filter first l ++ List.filter (fun x => negb (first x)) l)
  = l.
Proof.
  intros Hasc Hgr. induction l as [|x l IH]; [reflexivity|].
  inversion Hasc as [|? ? Hasc' Hx]; subst.
  inversion Hgr as [|? ? Hgr' Hgx]; subst.
  assert (Hhead : insert_sorted (key_ltb key) x l = x :: l).
  { apply insert_sorted_head. destruct l as [|y l]; [exact I|]. by inversion Hx. }
  simpl. destruct (first x) eqn:Ex; simpl.
  - by rewrite IH.
  - rewrite stable_sort_middle.
    + by rewrite IH.
    + apply List.Forall_forall. intros a [Ha Hfa]%filter_In.
      rewrite List.Forall_forall in Hgx. by apply Hgx.
Qed.

End Regroup.

(** ** The merged timeline of well-formed input *)

Section PairFacts.

Lemma StronglySorted_of_lookup {A : Type} (R : A -> A -> Prop) (l : list A) :
  (forall (i j : nat) (x y : A),
      (i < j)%nat -> l !! i = Some x -> l !! j = Some y -> R x y) ->
  StronglySorted R l.
Proof.
  induction l as [|x l IH]; intros H; constructor.
  - apply IH. intros i j a b Hij Hi Hj. by apply (H (S i) (S j)); [lia|..].
  - apply Forall_lookup. intros j y Hj. by apply (H 0%nat (S j)); [lia|..].
Qed.

(** A relation between the elements of [omap f l] holds between the elements
    of [l] they come from. *)
Lemma omap_pairs {A B : Type} (f : A -> option B) (R : B -> B -> Prop)
    (l : list A) :
  StronglySorted R (omap f l) ->
  forall (i j : nat) (x y : A) (a b : B),
    (i < j)%nat -> l !! i = Some x -> l !! j = Some y ->
    f x = Some a -> f y = Some b -> R a b.
Proof.
  induction l as [|z l IH]; intros Hs i j x y a b Hij Hi Hj Ha Hb.
  - by rewrite lookup_nil in Hi.
  - destruct j as [|j]; [lia|]. simpl in Hj.
    assert (Hs' : StronglySorted R (omap f l)).
    { csimpl in Hs. destruct (f z); [by inversion Hs|exact Hs]. }
    destruct i as [|i]; simpl in Hi.
    + injection Hi as ->. csimpl in Hs. rewrite Ha in Hs.
      inversion Hs as [|? ? _ Hall]; subst.
      rewrite Forall_forall in Hall. apply Hall.
      apply list_elem_of_omap. exists y. split; [|exact Hb].
      by eapply list_elem_of_lookup_2.
    + apply (IH Hs' i j x y a b); [lia|assumption..].
Qed.

Lemma apart_ascending (l : list (Q * Q)) :
  apart l -> Expand.lasting l -> ascending fst l.
Proof.
  unfold ascending, apart, Expand.lasting.
  induction 1 as [|x l Hl IH Hx]; intros Hlast; [constructor|].
  inversion Hlast; subst. constructor; [by apply IH|].
  eapply Forall_impl; [exact Hx|]. simpl. intros y Hy. lra.
Qed.

Lemma in_sequence_ascending (l : list segment) :
  Expand.in_sequence l -> ascending start_time l.
Proof.
  intros [Hvalid Hchain]. unfold ascending. revert Hvalid.
  induction Hchain as [|x l Hl IH Hx]; intros Hvalid; [constructor|].
  inversion Hvalid; subst. constructor; [by apply IH|].
  eapply Forall_impl; [exact Hx|]. simpl. intros y Hy. lra.
Qed.

Lemma omap_silence_of_unsorted
    (segments : list segment) (silence_segments : list (Q * Q)) :
  omap Expand.silence_of
    (map Expand.of_segment segments ++ map Expand.of_silence silence_segments)
  = silence_segments.
Proof.
  induction segments as [|s l IH]; csimpl; [|exact IH].
  induction silence_segments as [|x l IH]; csimpl; [reflexivity|].
  rewrite IH. by destruct x.
Qed.

End PairFacts.

Section TimelineFacts.
Import Expand.
Context (segments : list segment) (silence_segments : list (Q * Q)).
Context (Hapart : apart silence_segments) (Hlast : lasting silence_segments).
Context (Hseq : in_sequence segments) (Hout : outside silence_segments segments).

Lemma silences_ascending : ascending fst silence_segments.
Proof. by apply apart_ascending. Qed.

Lemma segments_ascending : ascending start_time segments.
Proof. by apply in_sequence_ascending. Qed.

Lemma merge_silences :
  omap silence_of (merge segments silence_segments) = silence_segments.
Proof.
  rewrite merge_key.
  rewrite (omap_stable_sort e_start fst silence_of).
  - rewrite omap_silence_of_unsorted.
    apply stable_sort_id, silences_ascending.
  - intros [] b; simpl; [discriminate|]. by intros [= <-].
Qed.

Lemma merge_subtitles :
  omap segment_of (merge segments silence_segments) = segments.
Proof. rewrite merge_segments. apply stable_sort_id, segments_ascending. Qed.

Lemma merge_elem (i : nat) (x : entry) :
  merge segments silence_segments !! i = Some x ->
  match x with
  | Segment s e t k => Seg k s e t ∈ segments
  | Silence a b => (a, b) ∈ silence_segments
  end.
Proof.
  intros Hx. apply list_elem_of_lookup_2 in Hx.
  destruct x as [s e t k|a b].
  - rewrite <- merge_subtitles. apply list_elem_of_omap.
    by exists (Segment s e t k).
  - rewrite <- merge_silences. apply list_elem_of_omap.
    by exists (Silence a b).
Qed.

Lemma merge_timeline_ok : timeline_ok (merge segments silence_segments).
Proof.
  set (fl := merge segments silence_segments).
  assert (Hasc : forall i j x y, (i < j)%nat -> fl !! i = Some x ->
                   fl !! j = Some y -> e_start x <= e_start y).
  { intros i j x y Hij Hi Hj.
    pose proof (stable_sort_ascending e_start
                  (map of_segment segments ++ map of_silence silence_segments))
      as Hs.
    exact (StronglySorted_lookup _ _ Hs i j x y Hij Hi Hj). }
  constructor.
  - exact Hasc.
  - intros i j a b s e t k Hij Hi Hj.
    pose proof (Hasc i j _ _ Hij Hi Hj) as Hle. simpl in Hle.
    pose proof (StronglySorted_lookup tie_ok _
                  (merge_tie_ok segments silence_segments) i j _ _ Hij Hi Hj
                  eq_refl eq_refl) as Hne. simpl in Hne.
    destruct (Qlt_le_dec a s) as [Hlt|Hge]; [exact Hlt|].
    exfalso. apply Hne. lra.
  - intros i j a b c d Hij Hi Hj.
    assert (Hs : StronglySorted (fun x y : Q * Q => snd x < fst y)
                   (omap silence_of fl)).
    { subst fl. rewrite merge_silences. exact Hapart. }
    exact (omap_pairs silence_of _ fl Hs i j _ _ (a, b) (c, d) Hij Hi Hj
             eq_refl eq_refl).
  - intros i a b Hi. apply merge_elem in Hi.
    unfold lasting in Hlast. rewrite Forall_forall in Hlast.
    exact (Hlast _ Hi).
  - intros i j s e s' e' t t' k k' Hij Hi Hj.
    assert (Hs : StronglySorted (fun a b => end_time a <= start_time b)
                   (omap segment_of fl)).
    { subst fl. rewrite merge_subtitles. apply Hseq. }
    exact (omap_pairs segment_of _ fl Hs i j _ _ (Seg k s e t) (Seg k' s' e' t')
             Hij Hi Hj eq_refl eq_refl).
  - intros i j a b s e t k Hi Hj Has.
    apply merge_elem in Hi, Hj.
    unfold outside in Hout. rewrite Forall_forall in Hout.
    specialize (Hout _ Hj). rewrite Forall_forall in Hout.
    exact (Hout _ Hi Has).
  - intros i s e t k Hi. apply merge_elem in Hi.
    destruct Hseq as [Hval _]. rewrite Forall_forall in Hval.
    exact (Hval _ Hi).
Qed.

End TimelineFacts.

(** ** The adjusted timeline of well-formed input *)

Section AdjustedFacts.
Import Expand.
Context (fl : list entry) (Hok : timeline_ok fl).

Lemma adjusted_agrees : agrees fl (length fl) (adjusted fl).
Proof.
  intros j. unfold adjusted. rewrite list_lookup_imap.
  destruct (Nat.ltb_spec j (length fl)); [reflexivity|].
  by rewrite (lookup_ge_None_2 fl).
Qed.

Lemma new_start_adjusted (k : nat) (s e : Q) :
  new_start (adjusted fl) k s e = new_start fl k s e.
Proof.
  unfold new_start. destruct (1 <=? k)%nat; [|reflexivity].
  pose proof (agrees_silence fl (length fl) (k - 1) _ adjusted_agrees) as Hs.
  destruct (adjusted fl !! (k - 1)%nat) as [[]|], (fl !! (k - 1)%nat) as [[]|];
    simpl in *; try congruence.
  by injection Hs as -> ->.
Qed.

Lemma new_end_adjusted (k : nat) (e : Q) :
  new_end (adjusted fl) k e = new_end fl k e.
Proof.
  unfold new_end.
  pose proof (agrees_silence fl (length fl) (k + 1) _ adjusted_agrees) as Hs.
  destruct (adjusted fl !! (k + 1)%nat) as [[]|], (fl !! (k + 1)%nat) as [[]|];
    simpl in *; congruence.
Qed.

(** After a silence the start of a subtitle is always moved. *)
Lemma new_start_after_silence (k : nat) (pa pe s e : Q) (t : string) (i : Z) :
  fl !! k = Some (Silence pa pe) ->
  fl !! S k = Some (Segment s e t i) ->
  new_start fl (S k) s e = pe.
Proof.
  intros Hp Hs. unfold new_start. simpl. rewrite Nat.sub_0_r, Hp.
  assert (Hlt : pe < e).
  { apply (tl_out fl Hok k (S k) pa pe s e t i Hp Hs).
    apply (tl_tie fl Hok k (S k) pa pe s e t i); [lia|assumption..]. }
  apply Qltb_lt in Hlt. by rewrite Hlt.
Qed.

Lemma new_start_cases (k : nat) (s e : Q) :
  new_start fl k s e = s
  \/ exists k' pa pe, k = S k' /\ fl !! k' = Some (Silence pa pe)
                      /\ new_start fl k s e = pe /\ pe < e.
Proof.
  unfold new_start. destruct k as [|k']; [by left|]. simpl.
  rewrite Nat.sub_0_r.
  destruct (fl !! k') as [[|pa pe]|] eqn:Hp; try by left.
  destruct (Qltb pe e) eqn:E; [|by left].
  right. exists k', pa, pe. apply Qltb_lt in E. auto.
Qed.

(** The adjusted start of an entry is not after the start of a later one. *)
Lemma adjusted_start_upper (i j : nat) (x y : entry) :
  (i < j)%nat -> fl !! i = Some x -> fl !! j = Some y ->
  e_start (adjust_at fl i x) <= e_start y.
Proof.
  intros Hij Hi Hj.
  pose proof (tl_asc fl Hok i j x y Hij Hi Hj) as Hasc.
  destruct x as [s e t k|a b]; simpl in *; [|exact Hasc].
  destruct (new_start_cases i s e) as [->|(i' & pa & pe & -> & Hp & -> & Hlt)];
    [exact Hasc|].
  destruct y as [s' e' t' k'|c d]; simpl.
  - pose proof (tl_seg fl Hok (S i') j s e s' e' t t' k k' Hij Hi Hj). lra.
  - pose proof (tl_sil fl Hok i' j pa pe c d ltac:(lia) Hp Hj). lra.
Qed.

Lemma adjusted_start_pair (i j : nat) (x y : entry) :
  (i < j)%nat -> fl !! i = Some x -> fl !! j = Some y ->
  e_start (adjust_at fl i x) <= e_start (adjust_at fl j y)
  /\ (is_segment x = false -> is_segment y = true ->
      e_start (adjust_at fl i x) < e_start (adjust_at fl j y)).
Proof.
  intros Hij Hi Hj.
  pose proof (adjusted_start_upper i j x y Hij Hi Hj) as Hup.
  destruct y as [s' e' t' k'|c d]; simpl in *; [|split; [exact Hup|discriminate]].
  destruct j as [|j']; [lia|].
  destruct (fl !! j') as [[|pa pe]|] eqn:Hp.
  - assert (new_start fl (S j') s' e' = s') as ->.
    { unfold new_start. simpl. by rewrite Nat.sub_0_r, Hp. }
    split; [exact Hup|]. intros Hx _.
    destruct x as [|a b]; [discriminate|]. simpl.
    apply (tl_tie fl Hok i (S j') a b s' e' t' k' Hij Hi Hj).
  - rewrite (new_start_after_silence j' pa pe s' e' t' k' Hp Hj).
    pose proof (tl_pos fl Hok j' pa pe Hp) as Hpos.
    assert (e_start (adjust_at fl i x) <= pa).
    { destruct (decide (i = j')) as [->|Hne].
      - rewrite Hp in Hi. injection Hi as <-. simpl. lra.
      - apply (adjusted_start_upper i j' x (Silence pa pe)); [lia|assumption..]. }
    split; [lra|intros _ _; lra].
  - apply lookup_lt_Some in Hj. apply lookup_ge_None in Hp. lia.
Qed.

Lemma adjusted_lookup_inv (i : nat) (x' : entry) :
  adjusted fl !! i = Some x' ->
  exists x, fl !! i = Some x /\ x' = adjust_at fl i x.
Proof.
  unfold adjusted. rewrite list_lookup_imap.
  destruct (fl !! i) as [x|]; [|discriminate].
  intros [= <-]. by exists x.
Qed.

Lemma adjust_at_is_segment (i : nat) (x : entry) :
  is_segment (adjust_at fl i x) = is_segment x.
Proof. by destruct x. Qed.

Lemma adjusted_ascending : ascending e_start (adjusted fl).
Proof.
  apply StronglySorted_of_lookup. intros i j x' y' Hij Hi Hj.
  apply adjusted_lookup_inv in Hi as (x & Hi & ->).
  apply adjusted_lookup_inv in Hj as (y & Hj & ->).
  apply (adjusted_start_pair i j x y Hij Hi Hj).
Qed.

Lemma adjusted_grouped : grouped e_start is_segment (adjusted fl).
Proof.
  apply StronglySorted_of_lookup. intros i j x' y' Hij Hi Hj.
  apply adjusted_lookup_inv in Hi as (x & Hi & ->).
  apply adjusted_lookup_inv in Hj as (y & Hj & ->).
  rewrite !adjust_at_is_segment.
  apply (adjusted_start_pair i j x y Hij Hi Hj).
Qed.

(** Adjusting the adjusted timeline changes nothing. *)
Lemma adjusted_again : adjusted (adjusted fl) = adjusted fl.
Proof.
  apply list_eq. intros k. unfold adjusted at 1. rewrite list_lookup_imap.
  destruct (adjusted fl !! k) as [x'|] eqn:Hx'; [|reflexivity].
  simpl. f_equal.
  apply adjusted_lookup_inv in Hx' as (x & Hx & ->).
  destruct x as [s e t i|a b]; [|reflexivity]. simpl.
  rewrite new_start_adjusted, new_end_adjusted. f_equal.
  - destruct k as [|k']; [reflexivity|].
    destruct (fl !! k') as [[|pa pe]|] eqn:Hp.
    + unfold new_start. simpl. by rewrite Nat.sub_0_r, Hp.
    + rewrite (new_start_after_silence k' pa pe s e t i Hp Hx).
      unfold new_start. simpl. rewrite Nat.sub_0_r, Hp.
      by destruct (Qltb pe _).
    + unfold new_start. simpl. by rewrite Nat.sub_0_r, Hp.
  - unfold new_end. by destruct (fl !! (k + 1)%nat) as [[]|].
Qed.

(** Every adjusted subtitle passes the check of its times. *)
Lemma adjusted_well_timed : Forall well_timed (adjusted fl).
Proof.
  apply Forall_lookup. intros k x' Hx'.
  apply adjusted_lookup_inv in Hx' as (x & Hx & ->).
  destruct x as [s e t i|a b]; simpl; [|exact I].
  pose proof (tl_val fl Hok k s e t i Hx) as Hval.
  assert (Hend : new_end fl k e = e
                 \/ exists na ne, fl !! S k = Some (Silence na ne)
                                   /\ new_end fl k e = na).
  { unfold new_end. rewrite Nat.add_1_r.
    destruct (fl !! S k) as [[|na ne]|]; eauto. }
  destruct (new_start_cases k s e)
    as [->|(k' & pa & pe & -> & Hp & -> & Hlt)],
     Hend as [->|(na & ne & Hn & ->)].
  - exact Hval.
  - apply (tl_asc fl Hok k (S k) _ _ ltac:(lia) Hx Hn).
  - lra.
  - pose proof (tl_sil fl Hok k' (S (S k')) pa pe na ne ltac:(lia) Hp Hn). lra.
Qed.

End AdjustedFacts.

(** ** Running expand/subtract mode again *)

Section RunAgain.
Import Expand.

Lemma filter_segments (l : list entry) :
  map of_segment (omap segment_of l) = List.filter is_segment l.
Proof.
  induction l as [|[s e t k|a b] l IH]; csimpl; [reflexivity| |exact IH].
  by rewrite IH.
Qed.

Lemma filter_silences (l : list entry) :
  map of_silence (omap silence_of l)
  = List.filter (fun x => negb (is_segment x)) l.
Proof.
  induction l as [|[s e t k|a b] l IH]; csimpl; [reflexivity|exact IH|].
  by rewrite IH.
Qed.

Lemma omap_silence_of_imap (g : nat -> entry -> entry) (l : list entry) :
  (forall i x, silence_of (g i x) = silence_of x) ->
  omap silence_of (imap g l) = omap silence_of l.
Proof.
  revert g. induction l as [|x l IH]; intros g Hg; [reflexivity|].
  csimpl. rewrite Hg, IH; [reflexivity|]. intros i y. apply Hg.
Qed.

Lemma adjusted_silences (fl : list entry) :
  omap silence_of (adjusted fl) = omap silence_of fl.
Proof. apply omap_silence_of_imap. by intros i []. Qed.

(** Merging the adjusted subtitles with the silences gives the adjusted
    timeline back. *)
Lemma merge_adjusted (fl : list entry) :
  timeline_ok fl ->
  merge (omap segment_of (adjusted fl)) (omap silence_of fl) = adjusted fl.
Proof.
  intros Hok. rewrite merge_key, <- adjusted_silences.
  rewrite filter_segments, filter_silences.
  apply stable_sort_regroup.
  - by apply adjusted_ascending.
  - by apply adjusted_grouped.
Qed.

(** A walk over a timeline whose adjusted subtitles are all well timed ends
    without error, with all of them written. *)
Lemma walk_well_timed (io : audio_io) (fl : list entry) :
  Forall well_timed (adjusted fl) ->
  exists st, walk io fl = (st, Continue)
             /\ written st = omap segment_of (adjusted fl).
Proof.
  intros Hwt. destruct (walk_spec io fl) as (st & o & Hw & Hpost).
  destruct o as [|a b]; simpl in Hpost.
  - exists st. split; [exact Hw|].
    destruct Hpost as (_ & Hwr & _). simpl in Hwr.
    by rewrite drop_0, take_adjusted_all in Hwr.
  - destruct Hpost as (m & t & k & _ & Hm & Hlt & _).
    rewrite Forall_lookup in Hwt. specialize (Hwt _ _ Hm). simpl in Hwt. lra.
Qed.

Lemma index_ascending_map (l o : list segment) :
  map index o = map index l -> index_ascending l -> index_ascending o.
Proof.
  intros Hmap. apply index_ascending_same.
  revert o Hmap. induction l as [|s l IH]; intros [|w o] Hmap;
    simpl in Hmap; try discriminate; constructor.
  - congruence.
  - apply IH. congruence.
Qed.

(** A run over a timeline whose adjusted subtitles are all well timed ends
    without error and writes all of them. *)
Lemma run_well_timed (io : audio_io) (silence_segments : list (Q * Q))
    (matched : list segment) :
  Forall well_timed (adjusted (merge (parse_srt matched) silence_segments)) ->
  (parse_srt matched = [] ->
   omap segment_of (adjusted (merge (parse_srt matched) silence_segments)) = []) ->
  error (run io silence_segments matched) = None
  /\ output_srt (run io silence_segments matched)
     = omap segment_of (adjusted (merge (parse_srt matched) silence_segments)).
Proof.
  intros Hwt Hnil.
  destruct (walk_well_timed io _ Hwt) as (st & Hw & Hwr).
  destruct (parse_srt matched) as [|s l] eqn:E.
  - unfold run. rewrite E. simpl. by rewrite Hnil.
  - rewrite <- E in *.
    rewrite (run_walk io silence_segments matched st Continue); [|congruence|exact Hw].
    by simpl.
Qed.

Lemma adjusted_no_segment (fl : list entry) :
  omap segment_of fl = [] -> omap segment_of (adjusted fl) = [].
Proof.
  intros Hnil. apply (map_eq_nil index).
  by rewrite (same_label_index _ fl (adjusted_same_label fl)), Hnil.
Qed.

Section Timeline.
Context (io : audio_io) (silence_segments : list (Q * Q)).
Context (matched : list segment).
Context (Hapart : apart silence_segments) (Hlast : lasting silence_segments).
Context (Hseq : in_sequence (parse_srt matched)).
Context (Hout : outside silence_segments (parse_srt matched)).
Context (fl : list entry).
Context (Hfl : fl = merge (parse_srt matched) silence_segments).

Lemma run_timeline_ok : timeline_ok fl.
Proof. rewrite Hfl. by apply merge_timeline_ok. Qed.

(** The first run ends without error. *)
Lemma run_first :
  error (run io silence_segments matched) = None
  /\ output_srt (run io silence_segments matched)
     = omap segment_of (adjusted fl).
Proof.
  rewrite Hfl. apply run_well_timed; rewrite <- Hfl.
  - apply adjusted_well_timed, run_timeline_ok.
  - intros Hnil. apply adjusted_no_segment.
    rewrite Hfl, (merge_subtitles _ _ Hseq). exact Hnil.
Qed.

Lemma run_first_parsed :
  parse_srt (omap segment_of (adjusted fl)) = omap segment_of (adjusted fl).
Proof.
  apply parse_srt_id, (index_ascending_map (parse_srt matched)).
  - rewrite (same_label_index _ fl (adjusted_same_label fl)).
    by rewrite Hfl, (merge_subtitles _ _ Hseq).
  - apply parse_srt_ascending.
Qed.

(** The timeline of the second run is the adjusted timeline of the first. *)
Lemma run_second_timeline :
  merge (parse_srt (omap segment_of (adjusted fl))) silence_segments
  = adjusted fl.
Proof.
  rewrite run_first_parsed.
  assert (Hsil : omap silence_of fl = silence_segments).
  { rewrite Hfl. by apply merge_silences. }
  rewrite <- Hsil at 1. apply merge_adjusted, run_timeline_ok.
Qed.

(** The second run ends without error and writes what the first one wrote. *)
Lemma run_second :
  error (run io silence_segments (omap segment_of (adjusted fl))) = None
  /\ output_srt (run io silence_segments (omap segment_of (adjusted fl)))
     = omap segment_of (adjusted fl).
Proof.
  pose proof (run_well_timed io silence_segments (omap segment_of (adjusted fl)))
    as H.
  rewrite run_second_timeline in H.
  rewrite (adjusted_again fl run_timeline_ok) in H.
  apply H.
  - apply adjusted_well_timed, run_timeline_ok.
  - rewrite run_first_parsed. auto.
Qed.

End Timeline.

(** C7, as the code has it.  Running the same mode again on the corrected
    subtitles, taken with the times the first run gave them and with the same
    silence segments, changes nothing when the input is well formed.  In
    subtract-only mode it is enough that each silence segment ends before the
    next one starts.  In expand mode, when in addition every silence segment
    starts before it ends, the subtitles in index order are valid and each
    one ends no later than the following ones start, and no subtitle that
    starts after the start of a silence ends by the end of that silence, the
    first run ends without error, and so does the second one, which writes
    the same segments again. *)
Theorem C7_idempotent_on_well_formed_input
    (io : audio_io) (silence_segments : list (Q * Q)) (matched : list segment) :
  apart silence_segments ->
  subtract_only silence_segments (subtract_only silence_segments matched)
  = subtract_only silence_segments matched
  /\ (lasting silence_segments ->
      in_sequence (parse_srt matched) ->
      outside silence_segments (parse_srt matched) ->
      error (run io silence_segments matched) = None
      /\ error (run io silence_segments
                  (output_srt (run io silence_segments matched))) = None
      /\ output_srt (run io silence_segments
                       (output_srt (run io silence_segments matched)))
         = output_srt (run io silence_segments matched)).
Proof.
  intros Hapart. split; [by apply subtract_only_again|].
  intros Hlast Hseq Hout.
  destruct (run_first io silence_segments matched Hapart Hlast Hseq Hout
              _ eq_refl) as [Herr Hfirst].
  destruct (run_second io silence_segments matched Hapart Hlast Hseq Hout
              _ eq_refl) as [Herr' Hsecond].
  rewrite Hfirst. auto.
Qed.

(** Two subtitles around two silences: the first run moves the subtitles to
    the silences, the second run leaves them there. *)
Lemma C7_witness :
  output_srt (run all_ok [(0, 2); (5, 7)] [Seg 1 1 4 "a"; Seg 2 8 9 "b"])
  = [Seg 1 2 5 "a"; Seg 2 7 9 "b"]
  /\ output_srt
       (run all_ok [(0, 2); (5, 7)]
          (output_srt
             (run all_ok [(0, 2); (5, 7)] [Seg 1 1 4 "a"; Seg 2 8 9 "b"])))
     = output_srt (run all_ok [(0, 2); (5, 7)] [Seg 1 1 4 "a"; Seg 2 8 9 "b"])
  /\ subtract_only [(0, 2); (5, 7)]
       (subtract_only [(0, 2); (5, 7)] [Seg 1 1 4 "a"; Seg 2 8 9 "b"])
     = subtract_only [(0, 2); (5, 7)] [Seg 1 1 4 "a"; Seg 2 8 9 "b"].
Proof.
  assert (Hapart : apart [(0, 2); (5, 7)]).
  { repeat constructor; simpl; lra. }
  assert (Hlast : lasting [(0, 2); (5, 7)]).
  { repeat constructor; simpl; lra. }
  assert (Hseq : in_sequence (parse_srt [Seg 1 1 4 "a"; Seg 2 8 9 "b"])).
  { split; repeat constructor; simpl; lra. }
  assert (Hout : outside [(0, 2); (5, 7)]
                   (parse_srt [Seg 1 1 4 "a"; Seg 2 8 9 "b"])).
  { repeat constructor; simpl; lra. }
  destruct (C7_idempotent_on_well_formed_input all_ok [(0, 2); (5, 7)]
              [Seg 1 1 4 "a"; Seg 2 8 9 "b"] Hapart) as [Hsub Hexp].
  destruct (Hexp Hlast Hseq Hout) as (_ & _ & Hrun).
  split; [reflexivity|]. split; [exact Hrun|exact Hsub].
Defined.

(** C7 as stated fails in both modes.  In expand mode the subtitle [1,3]
    after the start of the silence [0,5] becomes [1,6] in a first run that
    succeeds, and [5,6] in the second.  In subtract-only mode, with the
    silence [0,2] touching the silence [2,4], the subtitle [1,4] is left as it
    is by the first run and becomes [2,4] in the second. *)
Lemma C7_counterexample :
  run all_ok [(0, 5); (6, 7)] [Seg 1 1 3 "a"]
  = Result [Seg 1 1 6 "a"] []
      [Silence 0 5; Segment 1 6 "a" 1; Silence 6 7] None
  /\ run all_ok [(0, 5); (6, 7)] [Seg 1 1 6 "a"]
     = Result [Seg 1 5 6 "a"] []
         [Silence 0 5; Segment 5 6 "a" 1; Silence 6 7] None
  /\ ~ Forall2 (fun a b => start_time a == start_time b
                           /\ end_time a == end_time b)
         (output_srt
            (run all_ok [(0, 5); (6, 7)]
               (output_srt (run all_ok [(0, 5); (6, 7)] [Seg 1 1 3 "a"]))))
         (output_srt (run all_ok [(0, 5); (6, 7)] [Seg 1 1 3 "a"]))
  /\ subtract_only [(0, 2); (2, 4)] [Seg 1 0 3 "a"; Seg 2 1 4 "b"]
     = [Seg 1 0 2 "a"; Seg 2 1 4 "b"]
  /\ subtract_only [(0, 2); (2, 4)] [Seg 1 0 2 "a"; Seg 2 1 4 "b"]
     = [Seg 1 0 2 "a"; Seg 2 2 4 "b"].
Proof.
  split; [reflexivity|]. split; [reflexivity|].
  split; [|split; reflexivity].
  intros H. vm_compute in H.
  inversion H as [|? ? ? ? [Hs _] _]; subst. discriminate.
Qed.

End RunAgain.

(** * Further properties of the code

    What follows goes beyond the statements of the specification: properties
    that the functions themselves show. *)

(** ** The silence builder: where the silence segments lie *)

Section BuilderMore.
Import Builder.

Lemma step_cur_pos (min : Q) (st : state) (r : region) :
  cur_pos (step min st r) = r_end r.
Proof. unfold step. by destruct (Qltb _ min). Qed.

Lemma clear_fold (min : Q) (audio_events : list region) :
  forall (st : state) (done : list region),
    0 <= cur_pos st ->
    ordered_from (cur_pos st) audio_events ->
    Forall (fun r => r_end r <= cur_pos st /\ 0 < cur_pos st) done ->
    Forall (fun x => snd x + analysis_window <= cur_pos st
                     /\ Forall (clear_of x) done) (silence_segments st) ->
    Forall (fun x => Forall (clear_of x) (done ++ audio_events))
      (silence_segments (fold_left (step min) audio_events st)).
Proof.
  pose proof analysis_window_pos as Haw.
  induction audio_events as [|r rest IH]; intros st done Hpos Hord Hdone Hsil.
  - simpl. rewrite app_nil_r.
    eapply Forall_impl; [exact Hsil|]. simpl. tauto.
  - destruct Hord as (Hle & Hlt & Hrest). simpl.
    replace (done ++ r :: rest) with ((done ++ [r]) ++ rest)
      by (by rewrite <- app_assoc).
    assert (Hdone' : Forall (fun r' => r_end r' <= r_end r /\ 0 < r_end r)
                       (done ++ [r])).
    { apply Forall_app. split.
      - eapply Forall_impl; [exact Hdone|]. simpl. intros r'. lra.
      - constructor; [|constructor]. lra. }
    assert (Hold : Forall (fun x => snd x + analysis_window <= r_end r
                                    /\ Forall (clear_of x) (done ++ [r]))
                     (silence_segments st)).
    { eapply Forall_impl; [exact Hsil|]. simpl. intros x [Hx Hxd].
      split; [lra|]. apply Forall_app. split; [exact Hxd|].
      constructor; [|constructor]. left. lra. }
    apply IH.
    + rewrite step_cur_pos. lra.
    + by rewrite step_cur_pos.
    + by rewrite step_cur_pos.
    + rewrite step_cur_pos. unfold step.
      destruct (Qltb (r_start r - analysis_window - _) min); simpl;
        [exact Hold|].
      apply Forall_app. split; [exact Hold|].
      constructor; [|constructor]. simpl. split; [lra|].
      apply Forall_app. split.
      * eapply Forall_impl; [exact Hdone|]. simpl. intros d [Hd Hc].
        right. simpl. apply Qltb_lt in Hc. rewrite Hc. lra.
      * constructor; [|constructor]. left. simpl. lra.
Qed.

(** X1.  For events that are ordered and do not overlap, every silence
    segment the builder yields keeps the analysis window between itself and
    every audio event: it ends at least that long before the event starts, or
    starts at least that long after the event ends. *)
Theorem X1_silences_clear_of_events (min : Q) (audio_events : list region) :
  valid_events audio_events ->
  Forall (fun x => Forall (clear_of x) audio_events) (build min audio_events).
Proof.
  intros Hvalid. unfold build, run.
  apply (clear_fold min audio_events init []); simpl; try constructor.
  - lra.
  - exact Hvalid.
Qed.

(** The events [(1,2),(5,6)] of the specification's example. *)
Lemma X1_witness :
  Forall (fun x => Forall (clear_of x) [Region 1 2; Region 5 6])
    (build default_min_silence_dur [Region 1 2; Region 5 6]).
Proof.
  apply (X1_silences_clear_of_events default_min_silence_dur
           [Region 1 2; Region 5 6]).
  unfold valid_events. simpl. repeat split; lra.
Defined.

Lemma step_length (min : Q) (st : state) (r : region) :
  (length (silence_segments (step min st r))
   <= S (length (silence_segments st)))%nat.
Proof.
  unfold step. destruct (Qltb _ min); simpl; [lia|].
  rewrite length_app. simpl. lia.
Qed.

Lemma fold_step_length (min : Q) (audio_events : list region) :
  forall st,
    (length (silence_segments (fold_left (step min) audio_events st))
     <= length (silence_segments st) + length audio_events)%nat.
Proof.
  induction audio_events as [|r rest IH]; intros st; simpl; [lia|].
  specialize (IH (step min st r)). pose proof (step_length min st r). lia.
Qed.

(** X2.  The builder yields at most one silence segment for each audio
    event, and none after the last event: every silence segment ends at least
    the analysis window before the last event starts, so that the audio that
    follows the last event is never reported as silence. *)
Theorem X2_no_silence_after_last_event
    (min : Q) (audio_events : list region) (r : region) :
  valid_events (audio_events ++ [r]) ->
  (length (build min (audio_events ++ [r])) <= length (audio_events ++ [r]))%nat
  /\ Forall (fun x => snd x <= r_start r - analysis_window)
       (build min (audio_events ++ [r])).
Proof.
  intros Hvalid. split.
  - unfold build, run. pose proof (fold_step_length min (audio_events ++ [r]) init).
    simpl in *. lia.
  - pose proof (clear_fold min (audio_events ++ [r]) init [] ltac:(simpl; lra)
                  Hvalid ltac:(constructor) ltac:(constructor)) as Hclear.
    pose proof (builder_inv_fold min (audio_events ++ [r]) init
                  (builder_inv_init min) Hvalid) as (_ & _ & Hall & _).
    simpl in Hclear. unfold build, run.
    assert (Hcur : cur_pos (fold_left (step min) (audio_events ++ [r]) init)
                   = r_end r).
    { rewrite fold_left_app. simpl. apply step_cur_pos. }
    rewrite Hcur in Hall.
    rewrite Forall_forall in Hclear, Hall. apply Forall_forall. intros x Hx.
    specialize (Hclear x Hx). specialize (Hall x Hx).
    rewrite Forall_forall in Hclear.
    destruct (Hclear r) as [Hl|Hr];
      [apply elem_of_app; right; apply list_elem_of_singleton; reflexivity
      |exact Hl|].
    simpl in Hall. lra.
Qed.

(** The events [(1,2),(5,6)]: both silence segments end before 5. *)
Lemma X2_witness :
  (length (build default_min_silence_dur ([Region 1 2] ++ [Region 5 6]))
   <= length ([Region 1 2] ++ [Region 5 6]))%nat
  /\ Forall (fun x => snd x <= r_start (Region 5 6) - analysis_window)
       (build default_min_silence_dur ([Region 1 2] ++ [Region 5 6])).
Proof.
  apply (X2_no_silence_after_last_event default_min_silence_dur
           [Region 1 2] (Region 5 6)).
  unfold valid_events. simpl. repeat split; lra.
Defined.

End BuilderMore.

(** ** Reading subtitles: the order [parse_srt] leaves *)

Section ParseSort.

Lemma filter_insert_by_index (k : Z) (x : segment) (l : list segment) :
  List.filter (fun s => (index s =? k)%Z)
    (insert_sorted (fun a b => (index a <? index b)%Z) x l)
  = List.filter (fun s => (index s =? k)%Z) (x :: l).
Proof.
  induction l as [|y l IH]; [reflexivity|].
  simpl insert_sorted.
  destruct (Z.ltb_spec (index y) (index x)) as [Hlt|Hge]; [|reflexivity].
  simpl List.filter in *. rewrite IH.
  destruct (Z.eqb_spec (index y) k), (Z.eqb_spec (index x) k);
    try reflexivity.
  lia.
Qed.

(** X3.  The sort that ends [parse_srt] returns the parsed records in
    ascending order of their indices, whatever their order in the file; it
    neither drops nor duplicates a record; records with the same index keep
    the order they had in the file; and records that are already in ascending
    index order are returned as they are. *)
Theorem X3_parse_srt_orders_by_index (matched : list segment) :
  index_ascending (parse_srt matched)
  /\ Permutation (parse_srt matched) matched
  /\ (forall k : Z,
        List.filter (fun s => (index s =? k)%Z) (parse_srt matched)
        = List.filter (fun s => (index s =? k)%Z) matched)
  /\ (index_ascending matched -> parse_srt matched = matched).
Proof.
  split; [apply parse_srt_ascending|].
  split; [apply stable_sort_perm|].
  split; [|apply parse_srt_id].
  intros k. unfold parse_srt.
  induction matched as [|x l IH]; [reflexivity|].
  simpl stable_sort. rewrite filter_insert_by_index.
  simpl. by rewrite IH.
Qed.

End ParseSort.

(** ** Subtract-only mode: validity *)

Section SubtractMore.

Lemma subtract_fold_rel (R : segment -> segment -> Prop)
    (silence_segments : list (Q * Q)) (segments : list segment) :
  (forall i s, R s (snd (Subtract.adjust silence_segments i s))) ->
  forall (i : nat) (written : list segment),
  exists new,
    snd (fold_left (subtract_step silence_segments) segments (i, written))
    = written ++ new
    /\ Forall2 R segments new.
Proof.
  intros HR.
  induction segments as [|s segments IH]; intros i written; simpl.
  - exists []. by rewrite app_nil_r.
  - pose proof (HR i s) as Hs.
    destruct (Subtract.adjust silence_segments i s) as [i' s']. simpl in Hs.
    destruct (IH i' (written ++ [s'])) as (new & -> & Hnew).
    exists (s' :: new). rewrite <- app_assoc. split; [reflexivity|].
    by constructor.
Qed.

Lemma adjust_stays_valid (silence_segments : list (Q * Q)) (i : nat)
    (s : segment) :
  stays_valid s (snd (Subtract.adjust silence_segments i s)).
Proof.
  destruct s as [k a b t]. unfold Subtract.adjust, stays_valid. simpl.
  set (i1 := Subtract.advance silence_segments i a).
  set (a' := match silence_segments !! i1 with
             | Some (silence_start, silence_end) =>
                 if (Qltb silence_start a && Qltb a silence_end
                     && Qltb silence_end b)%bool
                 then silence_end else a
             | None => a
             end).
  assert (Ha : (a <= b -> a' <= b) /\ (a < b -> a' < b)).
  { subst a'. destruct (silence_segments !! i1) as [[ss se]|]; [|lra].
    destruct (Qltb ss a && Qltb a se && Qltb se b)%bool eqn:E; [|lra].
    apply andb_prop in E as [_ E]. apply Qltb_lt in E. lra. }
  clearbody a' i1.
  destruct (silence_segments !! _) as [[ss se]|]; [|exact Ha].
  destruct (Qltb a' ss && Qltb b se && Qltb ss b)%bool eqn:E; [|exact Ha].
  apply andb_prop in E as [[E _]%andb_prop _]. apply Qltb_lt in E. lra.
Qed.

(** X4.  Subtract-only mode never turns a subtitle around: a segment that
    does not end before it starts is written as one that does not, and a
    segment with a positive duration is written with a positive duration.
    This mode has no check of the times and never raises. *)
Theorem X4_subtract_only_keeps_validity
    (silence_segments : list (Q * Q)) (matched : list segment) :
  Forall2 (fun s o =>
             (start_time s <= end_time s -> start_time o <= end_time o)
             /\ (start_time s < end_time s -> start_time o < end_time o))
    (parse_srt matched) (subtract_only silence_segments matched).
Proof.
  unfold subtract_only.
  destruct (subtract_fold_rel stays_valid silence_segments (parse_srt matched)
              (adjust_stays_valid silence_segments) 0%nat [])
    as (new & -> & Hnew).
  exact Hnew.
Qed.

End SubtractMore.

(** ** Expand/subtract mode: what the walk depends on and what it keeps *)

Section WalkMore.
Import Expand.

Lemma adjust_at_same_but_times (fl : list entry) (j : nat) (e : entry) :
  same_but_times (adjust_at fl j e) e.
Proof. destruct e; simpl; auto. Qed.

Lemma agrees_same_but_times (fl : list entry) (i : nat) (cur : list entry) :
  agrees fl i cur -> Forall2 same_but_times cur fl.
Proof.
  intros H. apply Forall2_same_length_lookup_2.
  - by eapply agrees_length.
  - intros j x y Hx Hy. rewrite H, Hy in Hx.
    destruct (j <? i)%nat; simpl in Hx; injection Hx as <-.
    + apply adjust_at_same_but_times.
    + destruct y; simpl; auto.
Qed.

Lemma walk_has_result (io : audio_io) (fl : list entry) :
  walk_result fl (fst (walk io fl)) (snd (walk io fl)).
Proof.
  destruct (walk_spec io fl) as (st & o & Hw & Hpost). rewrite Hw. simpl.
  destruct o as [|a b]; simpl in *.
  - destruct Hpost as (Hag & Hwr & Hwt & _).
    rewrite drop_0, take_adjusted_all in Hwr, Hwt.
    split; [by apply agrees_full|]. split; assumption.
  - destruct Hpost as (m & t & k & _ & Hm & Hlt & Hag & Hwr & Hwt & _).
    rewrite drop_0 in Hwr, Hwt. exists m, t, k. auto.
Qed.

Lemma agrees_unique (fl : list entry) (i : nat) (cur cur' : list entry) :
  agrees fl i cur -> agrees fl i cur' -> cur = cur'.
Proof. intros H H'. apply list_eq. intros j. by rewrite H, H'. Qed.

Lemma well_timed_not_raised (l : list entry) (m : nat) (a b : Q)
    (t : string) (k : Z) :
  Forall well_timed l -> l !! m = Some (Segment a b t k) -> b < a -> False.
Proof.
  intros Hwt Hm Hlt. rewrite Forall_lookup in Hwt.
  specialize (Hwt _ _ Hm). simpl in Hwt. lra.
Qed.

Lemma walk_result_unique (fl : list entry) (st st' : state) (o o' : outcome) :
  walk_result fl st o -> walk_result fl st' o' ->
  o = o' /\ written st = written st' /\ full_list st = full_list st'.
Proof.
  destruct o as [|a b], o' as [|a' b']; simpl.
  - intros (-> & -> & _) (-> & -> & _). auto.
  - intros (_ & _ & Hwt) (m & t & k & Hm & Hlt & _). exfalso.
    eapply well_timed_not_raised; eauto.
  - intros (m & t & k & Hm & Hlt & _) (_ & _ & Hwt). exfalso.
    eapply well_timed_not_raised; eauto.
  - intros (m & t & k & Hm & Hlt & Hag & Hwr & Hwt)
           (m' & t' & k' & Hm' & Hlt' & Hag' & Hwr' & Hwt').
    assert (m = m') as <-.
    { destruct (Nat.lt_trichotomy m m') as [Hc|[Hc|Hc]]; [|exact Hc|]; exfalso.
      - eapply (well_timed_not_raised _ m); [exact Hwt'| |exact Hlt].
        by rewrite lookup_take_lt.
      - eapply (well_timed_not_raised _ m'); [exact Hwt| |exact Hlt'].
        by rewrite lookup_take_lt. }
    rewrite Hm in Hm'. injection Hm' as <- <- _ _.
    split; [reflexivity|]. split; [congruence|].
    by eapply agrees_unique.
Qed.

(** X5.  The subtitle records written in expand/subtract mode, the error
    raised and the corrected timeline do not depend on the non-speech
    extraction: whether a directory for it was given, whether the audio could
    be loaded and which clips could be saved. *)
Theorem X5_subtitles_independent_of_audio
    (io io' : audio_io) (silence_segments : list (Q * Q))
    (matched : list segment) :
  output_srt (run io silence_segments matched)
  = output_srt (run io' silence_segments matched)
  /\ error (run io silence_segments matched)
     = error (run io' silence_segments matched)
  /\ corrected (run io silence_segments matched)
     = corrected (run io' silence_segments matched).
Proof.
  unfold run. destruct (parse_srt matched) as [|s l]; [auto|].
  set (fl := merge (s :: l) silence_segments).
  pose proof (walk_has_result io fl) as H.
  pose proof (walk_has_result io' fl) as H'.
  destruct (walk io fl) as [st o], (walk io' fl) as [st' o']. simpl in H, H'.
  destruct (walk_result_unique fl st st' o o' H H') as (<- & Hwr & Hfl).
  destruct o; simpl; rewrite Hwr, Hfl; auto.
Qed.

(** X6.  The walk changes nothing in the timeline but the times of
    subtitle entries, also when it ends with an error: the timeline keeps its
    length, every silence entry stays where and as it was, and every subtitle
    entry keeps its place, its text and its index. *)
Theorem X6_walk_changes_subtitle_times_only
    (io : audio_io) (fl : list entry) :
  Forall2 (fun x y =>
             match x, y with
             | Segment _ _ t k, Segment _ _ t' k' => t = t' /\ k = k'
             | Silence a b, Silence a' b' => a = a' /\ b = b'
             | _, _ => False
             end)
    (full_list (fst (walk io fl))) fl.
Proof.
  pose proof (walk_has_result io fl) as H.
  destruct (walk io fl) as [st o]. simpl in *.
  destruct o as [|a b]; simpl in H.
  - destruct H as (-> & _). apply (agrees_same_but_times fl (length fl)).
    apply adjusted_agrees.
  - destruct H as (m & t & k & _ & _ & Hag & _).
    by apply (agrees_same_but_times fl (S m)).
Qed.

(** The numbers of the non-speech entries count up from the counter. *)
Lemma ns_fold_numbers (io : audio_io) (fl : list entry) (indices : list nat) :
  forall acc,
    snd acc = (1 + Z.of_nat (length (fst acc)))%Z ->
    map ns_index (fst acc)
    = map Z.of_nat (seq 1 (length (fst acc))) ->
    let acc' := fold_left (ns_step io fl) indices acc in
    snd acc' = (1 + Z.of_nat (length (fst acc')))%Z
    /\ map ns_index (fst acc')
       = map Z.of_nat (seq 1 (length (fst acc'))).
Proof.
  induction indices as [|j indices IH]; intros acc Hc Hn; simpl; [auto|].
  apply IH.
  - unfold ns_step. destruct (orphan_at fl j) as [[a b]|]; [|exact Hc].
    destruct (non_speech_on io && save_ok io (snd acc) a b)%bool; [|exact Hc].
    simpl. rewrite length_app. simpl. lia.
  - unfold ns_step. destruct (orphan_at fl j) as [[a b]|]; [|exact Hn].
    destruct (non_speech_on io && save_ok io (snd acc) a b)%bool; [|exact Hn].
    simpl. rewrite length_app. simpl.
    rewrite Nat.add_1_r, seq_S, !map_app, Hn. simpl.
    do 2 f_equal. rewrite Hc. lia.
Qed.

(** X7.  The entries of non-speech.srt, and with them the names of the clips,
    are numbered 1, 2, 3, ... without a gap, whichever clips failed to be
    saved: the counter is increased only when a clip was saved, and is one
    more than the number of entries.  Without a non-speech directory, or when
    the audio could not be loaded, there is no entry at all. *)
Theorem X7_non_speech_entries_numbered_from_1
    (io : audio_io) (fl : list entry) :
  map ns_index (non_speech_srt_entries (fst (walk io fl)))
  = map Z.of_nat (seq 1 (length (non_speech_srt_entries (fst (walk io fl)))))
  /\ non_speech_file_counter (fst (walk io fl))
     = (1 + Z.of_nat (length (non_speech_srt_entries (fst (walk io fl)))))%Z
  /\ (non_speech_on io = false ->
      non_speech_srt_entries (fst (walk io fl)) = []).
Proof.
  destruct (walk_spec io fl) as (st & o & Hw & Hpost). rewrite Hw. simpl.
  assert (Hfold : exists indices,
             (non_speech_srt_entries st, non_speech_file_counter st)
             = fold_left (ns_step io fl) indices ([], 1%Z)).
  { destruct o as [|a b]; simpl in Hpost.
    - destruct Hpost as (_ & _ & _ & Hns). eauto.
    - destruct Hpost as (m & t & k & _ & _ & _ & _ & _ & _ & Hns). eauto. }
  destruct Hfold as (indices & Hfold).
  split; [|split].
  - pose proof (ns_fold_numbers io fl indices ([], 1%Z) eq_refl eq_refl) as [_ H].
    rewrite <- Hfold in H. exact H.
  - pose proof (ns_fold_numbers io fl indices ([], 1%Z) eq_refl eq_refl) as [H _].
    rewrite <- Hfold in H. exact H.
  - intros Hoff.
    assert (Hnone : forall l acc, fold_left (ns_step io fl) l acc = acc).
    { induction l as [|j l IH]; intros acc; simpl; [reflexivity|].
      rewrite IH. unfold ns_step. rewrite Hoff. simpl.
      by destruct (orphan_at fl j) as [[]|]. }
    rewrite Hnone in Hfold. by injection Hfold as -> _.
Qed.

End WalkMore.

(** ** Expand/subtract mode: the subtitles written for well-formed input *)

Section OmapSorted.

(** The converse of [omap_pairs]. *)
Lemma omap_sorted {A B : Type} (f : A -> option B) (R : B -> B -> Prop)
    (l : list A) :
  (forall (i j : nat) (x y : A) (a b : B),
      (i < j)%nat -> l !! i = Some x -> l !! j = Some y ->
      f x = Some a -> f y = Some b -> R a b) ->
  StronglySorted R (omap f l).
Proof.
  induction l as [|z l IH]; intros H; csimpl; [constructor|].
  assert (Hl : StronglySorted R (omap f l)).
  { apply IH. intros i j x y a b Hij Hi Hj.
    apply (H (S i) (S j)); [lia|assumption..]. }
  destruct (f z) as [c|] eqn:Hz; [|exact Hl].
  constructor; [exact Hl|].
  apply List.Forall_forall. intros b Hb.
  apply list_elem_of_In, list_elem_of_omap in Hb as (y & Hy & Hfy).
  apply list_elem_of_lookup in Hy as (j & Hj).
  apply (H 0%nat (S j) z y c b); [lia|reflexivity|exact Hj|assumption..].
Qed.

End OmapSorted.

Section WellFormedOutput.
Import Expand.
Context (fl : list entry) (Hok : timeline_ok fl).

Lemma new_end_cases (k : nat) (e : Q) :
  (new_end fl k e = e
   /\ match fl !! S k with Some (Silence _ _) => False | _ => True end)
  \/ exists na ne, fl !! S k = Some (Silence na ne) /\ new_end fl k e = na.
Proof.
  unfold new_end. rewrite Nat.add_1_r.
  destruct (fl !! S k) as [[|na ne]|]; eauto.
Qed.

(** No adjusted subtitle overlaps a silence of the timeline. *)
Lemma adjusted_clear (i j : nat) (s e a b : Q) (t : string) (k : Z) :
  fl !! i = Some (Segment s e t k) -> fl !! j = Some (Silence a b) ->
  new_end fl i e <= a \/ b <= new_start fl i s e.
Proof.
  intros Hi Hj.
  destruct (Nat.lt_trichotomy i j) as [Hlt|[->|Hgt]]; [|congruence|].
  - left.
    destruct (new_end_cases i e) as [[-> Hnext]|(na & ne & Hn & ->)].
    + destruct (fl !! S i) as [[s2 e2 t2 k2|]|] eqn:Hn; try contradiction.
      * assert (Hne : S i <> j) by congruence.
        pose proof (tl_seg fl Hok i (S i) s e s2 e2 t t2 k k2 ltac:(lia) Hi Hn).
        pose proof (tl_asc fl Hok (S i) j _ _ ltac:(lia) Hn Hj) as H2.
        simpl in H2. lra.
      * apply lookup_ge_None in Hn. apply lookup_lt_Some in Hj. lia.
    + destruct (decide (S i = j)) as [<-|Hne].
      * rewrite Hn in Hj. injection Hj as <- <-. lra.
      * pose proof (tl_sil fl Hok (S i) j na ne a b ltac:(lia) Hn Hj).
        pose proof (tl_pos fl Hok (S i) na ne Hn). lra.
  - right.
    pose proof (tl_tie fl Hok j i a b s e t k Hgt Hj Hi) as Has.
    pose proof (tl_out fl Hok j i a b s e t k Hj Hi Has) as Hbe.
    destruct i as [|i']; [lia|].
    destruct (fl !! i') as [[s2 e2 t2 k2|pa pe]|] eqn:Hp.
    + assert (Hne : j <> i') by congruence.
      assert (new_start fl (S i') s e = s) as ->.
      { unfold new_start. simpl. by rewrite Nat.sub_0_r, Hp. }
      pose proof (tl_tie fl Hok j i' a b s2 e2 t2 k2 ltac:(lia) Hj Hp) as H1.
      pose proof (tl_out fl Hok j i' a b s2 e2 t2 k2 Hj Hp H1).
      pose proof (tl_seg fl Hok i' (S i') s2 e2 s e t2 t k2 k ltac:(lia) Hp Hi).
      lra.
    + rewrite (new_start_after_silence fl Hok i' pa pe s e t k Hp Hi).
      destruct (decide (j = i')) as [->|Hne].
      * rewrite Hp in Hj. injection Hj as <- <-. lra.
      * pose proof (tl_sil fl Hok j i' a b pa pe ltac:(lia) Hj Hp).
        pose proof (tl_pos fl Hok i' pa pe Hp). lra.
    + apply lookup_ge_None in Hp. apply lookup_lt_Some in Hi. lia.
Qed.

(** An adjusted subtitle ends no later than a later one starts. *)
Lemma adjusted_in_sequence (i j : nat) (s e s2 e2 : Q) (t t2 : string)
    (k k2 : Z) :
  (i < j)%nat ->
  fl !! i = Some (Segment s e t k) -> fl !! j = Some (Segment s2 e2 t2 k2) ->
  new_end fl i e <= new_start fl j s2 e2.
Proof.
  intros Hij Hi Hj.
  destruct (new_end_cases i e) as [[-> Hnext]|(na & ne & Hn & ->)].
  - destruct (new_start_cases fl j s2 e2)
      as [->|(j' & pa & pe & -> & Hp & -> & Hlt)].
    + apply (tl_seg fl Hok i j s e s2 e2 t t2 k k2 Hij Hi Hj).
    + assert (Hne : i <> j') by congruence.
      destruct (fl !! S i) as [[s3 e3 t3 k3|]|] eqn:Hn; try contradiction.
      * assert (Hne' : S i <> j') by congruence.
        pose proof (tl_seg fl Hok i (S i) s e s3 e3 t t3 k k3 ltac:(lia) Hi Hn).
        pose proof (tl_asc fl Hok (S i) j' _ _ ltac:(lia) Hn Hp) as H2.
        pose proof (tl_pos fl Hok j' pa pe Hp). simpl in H2. lra.
      * apply lookup_ge_None in Hn. apply lookup_lt_Some in Hp. lia.
  - assert (Hne : S i <> j) by congruence.
    destruct (new_start_cases fl j s2 e2)
      as [->|(j' & pa & pe & -> & Hp & -> & Hlt)].
    + pose proof (tl_asc fl Hok (S i) j _ _ ltac:(lia) Hn Hj) as H2.
      simpl in H2. lra.
    + pose proof (tl_pos fl Hok j' pa pe Hp).
      destruct (decide (S i = j')) as [<-|Hne'].
      * rewrite Hn in Hp. injection Hp as <- <-. lra.
      * pose proof (tl_sil fl Hok (S i) j' na ne pa pe ltac:(lia) Hn Hp).
        pose proof (tl_pos fl Hok (S i) na ne Hn). lra.
Qed.

Lemma adjusted_segments_clear :
  Forall (fun w => Forall (fun x => end_time w <= fst x \/ snd x <= start_time w)
                     (omap silence_of fl))
    (omap segment_of (adjusted fl)).
Proof.
  apply Forall_forall. intros w Hw.
  apply list_elem_of_omap in Hw as (x' & Hx' & Hw).
  apply list_elem_of_lookup in Hx' as (i & Hx').
  apply adjusted_lookup_inv in Hx' as (x & Hi & ->).
  destruct x as [s e t k|]; [|discriminate]. simpl in Hw. injection Hw as <-.
  apply Forall_forall. intros [a b] Hab.
  apply list_elem_of_omap in Hab as (y & Hy & Hab).
  apply list_elem_of_lookup in Hy as (j & Hj).
  destruct y as [|a' b']; [discriminate|]. simpl in Hab.
  injection Hab as -> ->. simpl.
  by apply (adjusted_clear i j s e a b t k).
Qed.

Lemma adjusted_segments_in_sequence :
  in_sequence (omap segment_of (adjusted fl)).
Proof.
  split.
  - apply segment_of_well_timed, adjusted_well_timed, Hok.
  - apply omap_sorted. intros i j x' y' w1 w2 Hij Hi Hj Hw1 Hw2.
    apply adjusted_lookup_inv in Hi as (x & Hi & ->).
    apply adjusted_lookup_inv in Hj as (y & Hj & ->).
    destruct x as [s e t k|]; [|discriminate].
    destruct y as [s2 e2 t2 k2|]; [|discriminate].
    simpl in Hw1, Hw2. injection Hw1 as <-. injection Hw2 as <-. simpl.
    by eapply adjusted_in_sequence.
Qed.

End WellFormedOutput.

Section WellFormedRun.
Import Expand.

(** X8.  On well-formed input, where each silence segment starts before it
    ends and ends before the next one starts, the subtitles in index order
    are valid and do not overlap, and no subtitle that starts after the start
    of a silence ends by the end of that silence, no subtitle written by
    expand mode overlaps a silence segment: it ends no later than the silence
    starts, or starts no earlier than the silence ends. *)
Theorem X8_expand_output_clear_of_silences
    (io : audio_io) (silence_segments : list (Q * Q)) (matched : list segment) :
  apart silence_segments -> lasting silence_segments ->
  in_sequence (parse_srt matched) ->
  outside silence_segments (parse_srt matched) ->
  Forall (fun w =>
            Forall (fun x => end_time w <= fst x \/ snd x <= start_time w)
              silence_segments)
    (output_srt (run io silence_segments matched)).
Proof.
  intros Hapart Hlast Hseq Hout.
  destruct (run_first io silence_segments matched Hapart Hlast Hseq Hout
              _ eq_refl) as [_ ->].
  pose proof (adjusted_segments_clear _
                (run_timeline_ok silence_segments matched Hapart Hlast Hseq Hout
                   _ eq_refl)) as H.
  by rewrite (merge_silences (parse_srt matched) silence_segments Hapart Hlast)
    in H.
Qed.

(** Two subtitles around the silences [0,2] and [5,7]. *)
Lemma X8_witness :
  Forall (fun w =>
            Forall (fun x => end_time w <= fst x \/ snd x <= start_time w)
              [(0, 2); (5, 7)])
    (output_srt (run all_ok [(0, 2); (5, 7)] [Seg 1 1 4 "a"; Seg 2 8 9 "b"])).
Proof.
  apply (X8_expand_output_clear_of_silences all_ok [(0, 2); (5, 7)]
           [Seg 1 1 4 "a"; Seg 2 8 9 "b"]).
  - repeat constructor; simpl; lra.
  - repeat constructor; simpl; lra.
  - split; repeat constructor; simpl; lra.
  - repeat constructor; simpl; lra.
Defined.

Lemma same_label_segments (l l' : list entry) :
  Forall2 same_label l l' ->
  Forall2 (fun w w' => index w = index w' /\ text w = text w')
    (omap segment_of l) (omap segment_of l').
Proof.
  induction 1 as [|x y l l' Hxy Hl IH]; [constructor|].
  destruct x, y; simpl in Hxy; try contradiction; csimpl; [|exact IH].
  destruct Hxy as [-> ->]. by constructor.
Qed.

(** X9.  On such input expand mode writes one record for each subtitle, in
    index order, with its index and text; every record is valid, and none
    ends after a later one starts. *)
Theorem X9_expand_output_in_sequence
    (io : audio_io) (silence_segments : list (Q * Q)) (matched : list segment) :
  apart silence_segments -> lasting silence_segments ->
  in_sequence (parse_srt matched) ->
  outside silence_segments (parse_srt matched) ->
  in_sequence (output_srt (run io silence_segments matched))
  /\ Forall2 (fun w s => index w = index s /\ text w = text s)
       (output_srt (run io silence_segments matched)) (parse_srt matched).
Proof.
  intros Hapart Hlast Hseq Hout.
  destruct (run_first io silence_segments matched Hapart Hlast Hseq Hout
              _ eq_refl) as [_ ->].
  pose proof (run_timeline_ok silence_segments matched Hapart Hlast Hseq Hout
                _ eq_refl) as Hok.
  split; [by apply adjusted_segments_in_sequence|].
  pose proof (same_label_segments _ _
                (adjusted_same_label
                   (merge (parse_srt matched) silence_segments))) as H.
  by rewrite (merge_subtitles (parse_srt matched) silence_segments Hseq) in H.
Qed.

(** The same input: the records [2,5] and [7,9] are written. *)
Lemma X9_witness :
  in_sequence
    (output_srt (run all_ok [(0, 2); (5, 7)] [Seg 1 1 4 "a"; Seg 2 8 9 "b"]))
  /\ Forall2 (fun w s => index w = index s /\ text w = text s)
       (output_srt (run all_ok [(0, 2); (5, 7)] [Seg 1 1 4 "a"; Seg 2 8 9 "b"]))
       (parse_srt [Seg 1 1 4 "a"; Seg 2 8 9 "b"]).
Proof.
  apply (X9_expand_output_in_sequence all_ok [(0, 2); (5, 7)]
           [Seg 1 1 4 "a"; Seg 2 8 9 "b"]).
  - repeat constructor; simpl; lra.
  - repeat constructor; simpl; lra.
  - split; repeat constructor; simpl; lra.
  - repeat constructor; simpl; lra.
Defined.

End WellFormedRun.

(** ** Both modes without silence segments *)

Section NoSilence.
Import Expand.

Lemma adjust_no_silence (i : nat) (s : segment) :
  Subtract.adjust [] i s = (i, s).
Proof.
  destruct s as [k a b t]. unfold Subtract.adjust, Subtract.advance. simpl.
  reflexivity.
Qed.

Lemma subtract_fold_no_silence (segments : list segment) :
  forall (i : nat) (written : list segment),
    snd (fold_left (subtract_step []) segments (i, written))
    = written ++ segments.
Proof.
  induction segments as [|s segments IH]; intros i written; simpl.
  - by rewrite app_nil_r.
  - rewrite adjust_no_silence, IH. by rewrite <- app_assoc.
Qed.

(** A timeline without silence entries is left as it is. *)
Lemma adjusted_no_silence (fl : list entry) :
  Forall (fun x => is_segment x = true) fl -> adjusted fl = fl.
Proof.
  intros Hall. apply list_eq. intros i. unfold adjusted.
  rewrite list_lookup_imap.
  destruct (fl !! i) as [x|] eqn:Hx; [|reflexivity]. simpl. f_equal.
  destruct x as [s e t k|]; [|reflexivity]. simpl.
  assert (Hno : forall j a b, fl !! j = Some (Silence a b) -> False).
  { intros j a b Hj. rewrite Forall_lookup in Hall.
    by specialize (Hall _ _ Hj). }
  f_equal.
  - unfold new_start. destruct (1 <=? i)%nat; [|reflexivity].
    destruct (fl !! (i - 1)%nat) as [[|a b]|] eqn:Hp; try reflexivity.
    destruct (Hno _ _ _ Hp).
  - unfold new_end.
    destruct (fl !! (i + 1)%nat) as [[|a b]|] eqn:Hn; try reflexivity.
    destruct (Hno _ _ _ Hn).
Qed.

Lemma merge_no_silence (segments : list segment) :
  merge segments [] = map of_segment (stable_sort (key_ltb start_time) segments).
Proof.
  unfold merge. simpl. rewrite app_nil_r.
  induction segments as [|s l IH]; [reflexivity|].
  simpl. rewrite IH. clear IH.
  induction (stable_sort (key_ltb start_time) l) as [|y l' IH]; [reflexivity|].
  simpl. unfold key_ltb at 1. destruct y, s; simpl.
  destruct (Qltb _ _); [|reflexivity]. simpl. f_equal. apply IH.
Qed.

Lemma omap_segment_of_segments (l : list segment) :
  omap segment_of (map of_segment l) = l.
Proof.
  induction l as [|s l IH]; [reflexivity|]. csimpl. rewrite IH. by destruct s.
Qed.

Lemma well_timed_segments (l : list segment) :
  Forall well_timed (map of_segment l)
  <-> Forall (fun s => start_time s <= end_time s) l.
Proof.
  rewrite Forall_map. split; intros H; eapply Forall_impl; try exact H;
    by intros [].
Qed.

(** X10.  With no silence segment, as when no audio event was detected,
    neither mode changes a time.  Subtract-only mode writes the subtitles as
    parsed, in index order.  Expand mode ends without error exactly when no
    subtitle ends before it starts, and then writes the subtitles in the
    order of their starts; otherwise it raises, although there is nothing to
    adjust. *)
Theorem X10_no_silence_no_change (io : audio_io) (matched : list segment) :
  subtract_only [] matched = parse_srt matched
  /\ (error (run io [] matched) = None
      <-> Forall (fun s => start_time s <= end_time s) matched)
  /\ (error (run io [] matched) = None ->
      output_srt (run io [] matched)
      = stable_sort (key_ltb start_time) (parse_srt matched)).
Proof.
  split; [apply subtract_fold_no_silence|].
  assert (Hperm : Forall (fun s => start_time s <= end_time s) matched
                  <-> Forall well_timed
                        (adjusted (merge (parse_srt matched) []))).
  { rewrite adjusted_no_silence.
    - rewrite merge_no_silence, well_timed_segments.
      unfold parse_srt. by rewrite !stable_sort_perm.
    - rewrite merge_no_silence. apply Forall_map, Forall_true. by intros []. }
  assert (Hout : omap segment_of (adjusted (merge (parse_srt matched) []))
                 = stable_sort (key_ltb start_time) (parse_srt matched)).
  { rewrite adjusted_no_silence.
    - by rewrite merge_no_silence, omap_segment_of_segments.
    - rewrite merge_no_silence. apply Forall_map, Forall_true. by intros []. }
  unfold run. destruct (parse_srt matched) as [|s l] eqn:E.
  - simpl. split; [|auto]. split; [|auto]. intros _.
    apply Hperm. rewrite adjusted_no_silence; constructor.
  - rewrite <- E in *.
    pose proof (walk_has_result io (merge (parse_srt matched) [])) as H.
    destruct (walk io (merge (parse_srt matched) [])) as [st o]. simpl in H.
    destruct o as [|a b]; simpl in *.
    + destruct H as (_ & -> & Hwt). split; [|auto].
      split; [intros _; by apply Hperm|auto].
    + split; [|discriminate]. split; [discriminate|].
      intros Hval. apply Hperm in Hval.
      destruct H as (m & t & k & Hm & Hlt & _). exfalso.
      eapply well_timed_not_raised; eauto.
Qed.

End NoSilence.

(** ** Writing a timestamp and reading it back *)

Section StampArith.
Import Stamp.

Lemma Qfloor_unique (x : Q) (z : Z) :
  inject_Z z <= x -> x < inject_Z (z + 1) -> Qfloor x = z.
Proof.
  intros Hle Hlt.
  pose proof (Qfloor_le x) as H1. pose proof (Qlt_floor x) as H2.
  assert (Ha : inject_Z (Qfloor x) < inject_Z (z + 1)) by lra.
  assert (Hb : inject_Z z < inject_Z (Qfloor x + 1)) by lra.
  rewrite <- Zlt_Qlt in Ha, Hb. lia.
Qed.

Lemma Qfloor_sub_Z (x : Q) (z : Z) :
  Qfloor (x - inject_Z z) = (Qfloor x - z)%Z.
Proof.
  pose proof (Qfloor_le x) as H1. pose proof (Qlt_floor x) as H2.
  apply Qfloor_unique.
  - unfold Z.sub. rewrite inject_Z_plus, inject_Z_opp. lra.
  - replace (Qfloor x - z + 1)%Z with (Qfloor x + 1 + - z)%Z by lia.
    rewrite (inject_Z_plus _ (- z)), inject_Z_opp. lra.
Qed.

Lemma Qfloor_div_Z (x : Q) (k : Z) :
  (0 < k)%Z -> Qfloor (x / inject_Z k) = (Qfloor x / k)%Z.
Proof.
  intros Hk.
  pose proof (Qfloor_le x) as H1. pose proof (Qlt_floor x) as H2.
  assert (Hkq : 0 < inject_Z k).
  { change 0 with (inject_Z 0). by rewrite <- Zlt_Qlt. }
  pose proof (Z.mul_div_le (Qfloor x) k Hk) as Hlo.
  pose proof (Z.mul_succ_div_gt (Qfloor x) k Hk) as Hhi.
  apply Qfloor_unique.
  - apply Qle_shift_div_l; [exact Hkq|].
    rewrite <- inject_Z_mult. apply Qle_trans with (inject_Z (Qfloor x)); [|exact H1].
    rewrite <- Zle_Qle. lia.
  - apply Qlt_shift_div_r; [exact Hkq|].
    rewrite <- inject_Z_mult.
    apply Qlt_le_trans with (inject_Z (Qfloor x + 1)); [exact H2|].
    rewrite <- Zle_Qle. lia.
Qed.

Lemma int_inject_Z (z : Z) : int (inject_Z z) = z.
Proof. unfold int. simpl. apply Z.quot_1_r. Qed.

Lemma int_floor (x : Q) : 0 <= x -> int x = Qfloor x.
Proof.
  intros Hx. destruct x as [n d]. unfold int, Qfloor. simpl.
  apply Z.quot_div_nonneg; [|lia].
  unfold Qle in Hx. simpl in Hx. lia.
Qed.

Lemma Qfloor_mult_1000_sub (x : Q) (z : Z) :
  Qfloor ((x - inject_Z z) * 1000) = (Qfloor (x * 1000) - 1000 * z)%Z.
Proof.
  rewrite <- Qfloor_sub_Z. apply Qfloor_comp.
  rewrite inject_Z_mult. change (inject_Z 1000) with 1000. ring.
Qed.

Lemma Qfloor_fmod (x : Q) (k : Z) :
  (0 < k)%Z -> Qfloor (fmod x (inject_Z k)) = (Qfloor x mod k)%Z.
Proof.
  intros Hk. unfold fmod. rewrite Qfloor_div_Z by exact Hk.
  rewrite <- inject_Z_mult, Qfloor_sub_Z.
  rewrite (Z.mod_eq (Qfloor x) k) by lia. lia.
Qed.

Lemma fmod_nonneg (x : Q) (k : Z) : (0 < k)%Z -> 0 <= fmod x (inject_Z k).
Proof.
  intros Hk. pose proof (Qfloor_le (fmod x (inject_Z k))) as H.
  rewrite Qfloor_fmod in H by exact Hk.
  pose proof (Z.mod_pos_bound (Qfloor x) k Hk) as [Hm _].
  apply Qle_trans with (inject_Z (Qfloor x mod k)); [|exact H].
  change 0 with (inject_Z 0). by rewrite <- Zle_Qle.
Qed.

(** The four numbers that [seconds_to_srt_time] formats. *)
Lemma stamp_numbers (seconds : Q) :
  int (floordiv seconds 3600) = (Qfloor seconds / 3600)%Z
  /\ int (floordiv (fmod seconds 3600) 60) = (Qfloor seconds mod 3600 / 60)%Z
  /\ int (fmod seconds 60) = (Qfloor seconds mod 60)%Z
  /\ int ((fmod seconds 60 - inject_Z (int (fmod seconds 60))) * 1000)
     = (Qfloor (seconds * 1000) - 1000 * Qfloor seconds)%Z.
Proof.
  change 3600 with (inject_Z 3600). change 60 with (inject_Z 60).
  assert (Hsec : int (fmod seconds (inject_Z 60)) = (Qfloor seconds mod 60)%Z).
  { rewrite int_floor by (by apply fmod_nonneg). by apply Qfloor_fmod. }
  split; [|split; [|split]].
  - unfold floordiv. rewrite int_inject_Z. by apply Qfloor_div_Z.
  - unfold floordiv. rewrite int_inject_Z, Qfloor_div_Z by lia.
    by rewrite Qfloor_fmod.
  - exact Hsec.
  - rewrite Hsec.
    pose proof (Qfloor_le (fmod seconds (inject_Z 60))) as Hle.
    rewrite Qfloor_fmod in Hle by lia.
    rewrite int_floor by nra.
    rewrite <- Qfloor_mult_1000_sub. apply Qfloor_comp.
    unfold fmod. rewrite Qfloor_div_Z by lia.
    rewrite (Z.mod_eq (Qfloor seconds) 60) by lia.
    unfold Z.sub. rewrite inject_Z_plus, inject_Z_opp, !inject_Z_mult.
    change (inject_Z 60) with 60. ring.
Qed.

Lemma stamp_ranges (seconds : Q) :
  0 <= seconds -> seconds < 360000 ->
  (0 <= Qfloor seconds / 3600 < 100)%Z
  /\ (0 <= Qfloor seconds mod 3600 / 60 < 60)%Z
  /\ (0 <= Qfloor seconds mod 60 < 60)%Z
  /\ (0 <= Qfloor (seconds * 1000) - 1000 * Qfloor seconds < 1000)%Z.
Proof.
  intros H0 H1.
  pose proof (Qfloor_le seconds) as Hle. pose proof (Qlt_floor seconds) as Hlt.
  pose proof (Qfloor_le (seconds * 1000)) as Hle'.
  pose proof (Qlt_floor (seconds * 1000)) as Hlt'.
  rewrite inject_Z_plus in Hlt, Hlt'. change (inject_Z 1) with 1 in Hlt, Hlt'.
  assert (Ha : (0 <= Qfloor seconds)%Z).
  { replace 0%Z with (Qfloor 0) by reflexivity. by apply Qfloor_resp_le. }
  assert (Hb : (Qfloor seconds < 360000)%Z).
  { rewrite Zlt_Qlt. change (inject_Z 360000) with 360000. lra. }
  assert (Hc : (1000 * Qfloor seconds <= Qfloor (seconds * 1000))%Z).
  { rewrite <- (Qfloor_Z (1000 * Qfloor seconds)). apply Qfloor_resp_le.
    rewrite inject_Z_mult. change (inject_Z 1000) with 1000. lra. }
  assert (Hd : (Qfloor (seconds * 1000) < 1000 * Qfloor seconds + 1000)%Z).
  { rewrite Zlt_Qlt, inject_Z_plus, inject_Z_mult.
    change (inject_Z 1000) with 1000. lra. }
  clear - Ha Hb Hc Hd.
  pose proof (Z.mod_pos_bound (Qfloor seconds) 3600 ltac:(lia)).
  pose proof (Z.mod_pos_bound (Qfloor seconds) 60 ltac:(lia)).
  repeat split; try lia.
  - apply Z.div_pos; lia.
  - apply Z.div_lt_upper_bound; lia.
  - apply Z.div_pos; lia.
  - apply Z.div_lt_upper_bound; lia.
Qed.

End StampArith.

Section StampDigits.
Import Time Stamp.

Lemma check_pad2_all : forallb check_pad2 (seq 0 100) = true.
Proof. vm_compute. reflexivity. Qed.

Lemma check_pad3_all : forallb check_pad3 (seq 0 1000) = true.
Proof. vm_compute. reflexivity. Qed.

Lemma pad2_spec (n : Z) :
  (0 <= n < 100)%Z ->
  exists a b,
    zero_pad 2 n = String a (String b EmptyString)
    /\ is_digit a = true /\ is_digit b = true
    /\ int_of_digits (String a (String b EmptyString)) = n.
Proof.
  intros Hn. pose proof check_pad2_all as H.
  rewrite forallb_forall in H. specialize (H (Z.to_nat n)).
  rewrite in_seq in H. specialize (H ltac:(lia)).
  unfold check_pad2 in H. rewrite Z2Nat.id in H by lia.
  destruct (zero_pad 2 n) as [|a [|b [|]]]; try discriminate.
  apply andb_prop in H as [[Ha Hb]%andb_prop Hv]. apply Z.eqb_eq in Hv.
  by exists a, b.
Qed.

Lemma pad3_spec (n : Z) :
  (0 <= n < 1000)%Z ->
  exists a b c,
    zero_pad 3 n = String a (String b (String c EmptyString))
    /\ is_digit a = true /\ is_digit b = true /\ is_digit c = true
    /\ int_of_digits (String a (String b (String c EmptyString))) = n.
Proof.
  intros Hn. pose proof check_pad3_all as H.
  rewrite forallb_forall in H. specialize (H (Z.to_nat n)).
  rewrite in_seq in H. specialize (H ltac:(lia)).
  unfold check_pad3 in H. rewrite Z2Nat.id in H by lia.
  destruct (zero_pad 3 n) as [|a [|b [|c [|]]]]; try discriminate.
  apply andb_prop in H as [[[Ha Hb]%andb_prop Hc]%andb_prop Hv].
  apply Z.eqb_eq in Hv. by exists a, b, c.
Qed.

End StampDigits.

Section StampRoundTrip.
Import Time Stamp.


(** What [time_to_seconds] reads from a timestamp written with two digits for
    the hours, the minutes and the seconds and three for the milliseconds. *)
Lemma time_to_seconds_padded (h m sec ms : Z) :
  (0 <= h < 100)%Z -> (0 <= m < 100)%Z -> (0 <= sec < 100)%Z ->
  (0 <= ms < 1000)%Z ->
  time_to_seconds
    (zero_pad 2 h ++ ":" ++ zero_pad 2 m ++ ":" ++ zero_pad 2 sec ++ ","
     ++ zero_pad 3 ms)
  = Some (inject_Z (h * 3600 + m * 60 + sec) + inject_Z ms / 1000)
  /\ String.length
       (zero_pad 2 h ++ ":" ++ zero_pad 2 m ++ ":" ++ zero_pad 2 sec ++ ","
        ++ zero_pad 3 ms) = 12%nat.
Proof.
  intros Hh Hm Hs Hms.
  destruct (pad2_spec h Hh) as (h1 & h2 & -> & Hh1 & Hh2 & Vh).
  destruct (pad2_spec m Hm) as (m1 & m2 & -> & Hm1 & Hm2 & Vm).
  destruct (pad2_spec sec Hs) as (s1 & s2 & -> & Hs1 & Hs2 & Vs).
  destruct (pad3_spec ms Hms) as (f1 & f2 & f3 & -> & Hf1 & Hf2 & Hf3 & Vf).
  split; [|reflexivity].
  unfold time_to_seconds.
  pose proof (re_match_timestamp (String h1 (String h2 EmptyString))
                (String m1 (String m2 EmptyString))
                (String s1 (String s2 EmptyString)) ","%char
                (String f1 (String f2 (String f3 EmptyString))) EmptyString)
    as Hre.
  simpl in Hre. simpl. rewrite Hre.
  - simpl g_hours. simpl g_minutes. simpl g_seconds. simpl g_ms.
    rewrite Vh, Vm, Vs.
    change (first3 (ljust3 (String f1 (String f2 (String f3 EmptyString)))))
      with (String f1 (String f2 (String f3 EmptyString))).
    by rewrite Vf.
  - unfold timestamp_parts, all_digits. simpl.
    rewrite Hh1, Hh2, Hm1, Hm2, Hs1, Hs2, Hf1, Hf2, Hf3. simpl.
    repeat split; auto.
  - reflexivity.
Qed.



End StampRoundTrip.

Section DigitsFacts.
Import Time Stamp.

Lemma fold_digits_uint (d : Decimal.uint) :
  forall acc,
    fold_left (fun acc c => 10 * acc + digit_value c)%Z
      (list_ascii_of_string (NilEmpty.string_of_uint d)) acc
    = uint_value d acc.
Proof. induction d; intros acc; simpl; [reflexivity|apply IHd..]. Qed.

Lemma of_uint_acc_value (d : Decimal.uint) :
  forall acc, Z.pos (Pos.of_uint_acc d acc) = uint_value d (Z.pos acc).
Proof.
  induction d; intros acc; simpl; [reflexivity|rewrite IHd; f_equal; lia..].
Qed.

Lemma of_uint_value (d : Decimal.uint) :
  Z.of_N (Pos.of_uint d) = uint_value d 0.
Proof.
  induction d; simpl; [reflexivity|exact IHd|..];
    rewrite of_uint_acc_value; reflexivity.
Qed.

Lemma all_digits_uint (d : Decimal.uint) :
  all_digits (NilEmpty.string_of_uint d) = true.
Proof. unfold all_digits. induction d; simpl; auto. Qed.

Lemma digits_pos (p : positive) :
  digits (N.pos p) = NilEmpty.string_of_uint (Pos.to_uint p).
Proof.
  unfold digits. simpl. unfold NilZero.string_of_uint.
  pose proof (DecimalPos.Unsigned.to_uint_nonnil p).
  by destruct (Pos.to_uint p).
Qed.

Lemma digits_all (n : N) : all_digits (digits n) = true.
Proof.
  destruct n as [|p]; [reflexivity|]. rewrite digits_pos. apply all_digits_uint.
Qed.

Lemma digits_value (n : N) : int_of_digits (digits n) = Z.of_N n.
Proof.
  destruct n as [|p]; [reflexivity|]. rewrite digits_pos.
  unfold int_of_digits. rewrite fold_digits_uint, <- of_uint_value.
  by rewrite DecimalPos.Unsigned.of_to.
Qed.

Lemma is_digit_value (c : ascii) :
  is_digit c = true -> (0 <= digit_value c <= 9)%Z.
Proof.
  unfold is_digit, digit_value. intros [H1 H2]%andb_prop.
  apply Nat.leb_le in H1, H2. lia.
Qed.

Lemma fold_digits_bound (l : list ascii) :
  forall acc : Z,
    forallb is_digit l = true -> (0 <= acc)%Z ->
    (fold_left (fun acc c => 10 * acc + digit_value c) l acc
     < (acc + 1) * 10 ^ Z.of_nat (length l))%Z.
Proof.
  induction l as [|c l IH]; intros acc Hl Hacc; simpl fold_left.
  - simpl. lia.
  - simpl in Hl. apply andb_prop in Hl as [Hc Hl].
    apply is_digit_value in Hc.
    specialize (IH (10 * acc + digit_value c)%Z Hl ltac:(lia)).
    eapply Z.lt_le_trans; [exact IH|].
    replace (Z.of_nat (length (c :: l))) with (1 + Z.of_nat (length l))%Z
      by (simpl; lia).
    rewrite Z.pow_add_r by lia.
    assert (0 < 10 ^ Z.of_nat (length l))%Z by (apply Z.pow_pos_nonneg; lia).
    nia.
Qed.

Lemma length_list_ascii (s : string) :
  length (list_ascii_of_string s) = String.length s.
Proof. induction s; simpl; auto. Qed.

(** A number of at least three digits. *)
Lemma digits_three (n : N) :
  (100 <= n)%N ->
  exists d1 d2 d3 r,
    digits n = String d1 (String d2 (String d3 r))
    /\ is_digit d1 = true /\ is_digit d2 = true /\ is_digit d3 = true.
Proof.
  intros Hn. pose proof (digits_all n) as Hall.
  pose proof (digits_value n) as Hval.
  pose proof (fold_digits_bound (list_ascii_of_string (digits n)) 0 Hall
                ltac:(lia)) as Hb.
  fold (int_of_digits (digits n)) in Hb. rewrite Hval, length_list_ascii in Hb.
  unfold all_digits in Hall.
  destruct (digits n) as [|d1 [|d2 [|d3 r]]]; simpl in Hb; try lia.
  simpl in Hall.
  apply andb_prop in Hall as [H1 Hall]. apply andb_prop in Hall as [H2 Hall].
  apply andb_prop in Hall as [H3 _]. by exists d1, d2, d3, r.
Qed.

Lemma zero_pad_three (n : Z) :
  (100 <= n)%Z ->
  exists d1 d2 d3 r,
    zero_pad 2 n = String d1 (String d2 (String d3 r))
    /\ is_digit d1 = true /\ is_digit d2 = true /\ is_digit d3 = true.
Proof.
  intros Hn. unfold zero_pad.
  destruct (Z.ltb_spec n 0); [lia|].
  destruct (digits_three (Z.abs_N n) ltac:(lia))
    as (d1 & d2 & d3 & r & -> & Hd).
  exists d1, d2, d3, r. by split.
Qed.

Lemma match_tail_not_colon (h : string) (c : ascii) (rest : string) :
  is_digit c = true -> match_tail h (String c rest) = None.
Proof.
  intros Hc. pose proof (colon_not_digit c) as Hn.
  assert (Hcol : is_colon c = false).
  { destruct (is_colon c) eqn:E; [|reflexivity].
    apply is_colon_eq in E. subst c. discriminate. }
  unfold match_tail.
  destruct rest as [|? [|? [|? [|? [|? [|? ?]]]]]]; try reflexivity.
  by rewrite Hcol.
Qed.

Lemma time_to_seconds_three (d1 d2 d3 : ascii) (rest : string) :
  is_digit d1 = true -> is_digit d2 = true -> is_digit d3 = true ->
  time_to_seconds (String d1 (String d2 (String d3 rest))) = None.
Proof.
  intros H1 H2 H3. unfold time_to_seconds, re_match.
  rewrite H1, H2, !match_tail_not_colon by assumption. reflexivity.
Qed.

(** X12.  The timestamp that [seconds_to_srt_time] writes can be read by
    [time_to_seconds] exactly for the times from 0 up to, but not including,
    100 hours: a negative time is written with a minus sign in front, and a
    time of 100 hours or more with three or more digits for the hours, and
    [time_to_seconds] raises [ValueError] for both. *)
Theorem X12_timestamp_readable_range (seconds : Q) :
  time_to_seconds (seconds_to_srt_time seconds) = None
  <-> ~ (0 <= seconds /\ seconds < 360000).
Proof.
  destruct (stamp_numbers seconds) as (Eh & Em & Es & Ems).
  split.
  - intros Hnone [H0 H1].
    destruct (stamp_ranges seconds H0 H1) as (Rh & Rm & Rs & Rms).
    unfold seconds_to_srt_time in Hnone. rewrite Eh, Em, Ems, Es in Hnone.
    assert (Rm' : (0 <= Qfloor seconds mod 3600 / 60 < 100)%Z) by lia.
    assert (Rs' : (0 <= Qfloor seconds mod 60 < 100)%Z) by lia.
    destruct (time_to_seconds_padded _ _ _ _ Rh Rm' Rs' Rms) as [Hsome _].
    congruence.
  - intros Hout. unfold seconds_to_srt_time. rewrite Eh.
    pose proof (Qfloor_le seconds) as Hle. pose proof (Qlt_floor seconds) as Hlt.
    rewrite inject_Z_plus in Hlt. change (inject_Z 1) with 1 in Hlt.
    destruct (Qlt_le_dec seconds 0) as [Hneg|Hpos].
    + assert (Hf : (Qfloor seconds < 0)%Z).
      { rewrite Zlt_Qlt. change (inject_Z 0) with 0. lra. }
      assert (Hh : (Qfloor seconds / 3600 < 0)%Z).
      { apply Z.div_lt_upper_bound; lia. }
      unfold zero_pad at 1. apply Z.ltb_lt in Hh. rewrite Hh. reflexivity.
    + assert (Hbig : 360000 <= seconds).
      { apply Qnot_lt_le. intros Hc. apply Hout. by split. }
      assert (Hf : (360000 <= Qfloor seconds)%Z).
      { change 360000%Z with (Qfloor 360000). by apply Qfloor_resp_le. }
      assert (Hh : (100 <= Qfloor seconds / 3600)%Z).
      { apply Z.div_le_lower_bound; lia. }
      destruct (zero_pad_three _ Hh) as (d1 & d2 & d3 & r & -> & H1 & H2 & H3).
      simpl. by apply time_to_seconds_three.
Qed.

End DigitsFacts.

(** ** Reading subtitle files *)

Section CombinatorFacts.
Import Time Srt.
Context {R : Type}.






End CombinatorFacts.

Section LookFacts.
Import Time Srt.

Lemma nl_not_digit : is_digit nl = false.
Proof. reflexivity. Qed.



Lemma look_nil : look EmptyString = true.
Proof. reflexivity. Qed.



End LookFacts.

Section WrittenFacts.
Import Time Stamp Srt.




Lemma truncate_ms_floor (t : Q) :
  truncate_ms t == inject_Z (Qfloor (t * 1000)) / 1000.
Proof.
  unfold truncate_ms, Z.sub.
  rewrite inject_Z_plus, inject_Z_opp, inject_Z_mult.
  change (inject_Z 1000) with 1000. field.
Qed.




End WrittenFacts.

Section CleanFacts.
Import Time Srt.

Lemma replace_nl_length (s : string) :
  String.length (replace_nl s) = String.length s.
Proof. induction s; simpl; auto. Qed.

Lemma replace_nl_no_nl (s : string) : no_nl (replace_nl s) = true.
Proof.
  unfold no_nl. induction s as [|c s IH]; simpl; [reflexivity|].
  rewrite IH. by destruct (chr nl c) eqn:E; [|rewrite E].
Qed.

Lemma replace_nl_id (s : string) : no_nl s = true -> replace_nl s = s.
Proof.
  unfold no_nl. induction s as [|c s IH]; simpl; [reflexivity|].
  intros [Hc Hs]%andb_prop. rewrite IH by exact Hs.
  by destruct (chr nl c).
Qed.

Lemma lstrip_length (s : string) :
  (String.length (lstrip s) <= String.length s)%nat.
Proof. induction s as [|c s IH]; simpl; [lia|]. destruct (is_space c); simpl; lia. Qed.

Lemma lstrip_same_length (s : string) :
  String.length (lstrip s) = String.length s -> lstrip s = s.
Proof.
  destruct s as [|c s]; simpl; [reflexivity|].
  destruct (is_space c); [|reflexivity].
  pose proof (lstrip_length s). lia.
Qed.

Lemma rstrip_length (s : string) :
  (String.length (rstrip s) <= String.length s)%nat.
Proof.
  induction s as [|c s IH]; simpl; [lia|].
  destruct (rstrip s); [destruct (is_space c)|]; simpl in *; lia.
Qed.

Lemma rstrip_same_length (s : string) :
  String.length (rstrip s) = String.length s -> rstrip s = s.
Proof.
  induction s as [|c s IH]; simpl; [reflexivity|].
  pose proof (rstrip_length s) as Hle.
  destruct (rstrip s) as [|a r] eqn:E.
  - destruct (is_space c); simpl; intros H; [lia|].
    destruct s; [reflexivity|simpl in H; lia].
  - simpl. intros H. f_equal. apply IH. simpl. lia.
Qed.

(** A clean text has no line feed and nothing to strip. *)
Lemma clean_text (t : string) :
  replace_nl (strip t) = t -> no_nl t = true /\ strip t = t.
Proof.
  intros H. split.
  - rewrite <- H. apply replace_nl_no_nl.
  - assert (Hlen : String.length (strip t) = String.length t).
    { by rewrite <- (replace_nl_length (strip t)), H. }
    unfold strip in *.
    pose proof (lstrip_length t). pose proof (rstrip_length (lstrip t)).
    rewrite rstrip_same_length by lia.
    apply lstrip_same_length. lia.
Qed.


End CleanFacts.

Section MatchFacts.
Import Time Stamp Srt.
















End MatchFacts.

(** ** What [parse_srt] returns *)

Section MatchInversion.
Import Time Srt.

Lemma star_greedy_inv {R : Type} (p : ascii -> bool) (s : string) :
  forall (k : string -> string -> option R) (r : R),
    star_greedy p s k = Some r ->
    exists m rest,
      s = (m ++ rest)%string
      /\ forallb p (list_ascii_of_string m) = true
      /\ k m rest = Some r.
Proof.
  induction s as [|c s IH]; intros k r H; simpl in H.
  - by exists EmptyString, EmptyString.
  - destruct (p c) eqn:Hc; [|by exists EmptyString, (String c s)].
    destruct (star_greedy p s _) as [r'|] eqn:E;
      [|by exists EmptyString, (String c s)].
    injection H as ->.
    apply IH in E as (m & rest & -> & Hm & Hk).
    exists (String c m), rest. simpl. by rewrite Hc.
Qed.

Lemma plus_greedy_inv {R : Type} (p : ascii -> bool) (s : string)
    (k : string -> string -> option R) (r : R) :
  plus_greedy p s k = Some r ->
  exists c m rest,
    s = (String c m ++ rest)%string
    /\ forallb p (list_ascii_of_string (String c m)) = true
    /\ k (String c m) rest = Some r.
Proof.
  destruct s as [|c s]; simpl; [discriminate|].
  destruct (p c) eqn:Hc; [|discriminate].
  intros (m & rest & -> & Hm & Hk)%star_greedy_inv.
  exists c, m, rest. simpl. by rewrite Hc.
Qed.

Lemma star_lazy_inv {R : Type} (p : ascii -> bool) (s : string) :
  forall (k : string -> string -> option R) (r : R),
    star_lazy p s k = Some r ->
    exists m rest, s = (m ++ rest)%string /\ k m rest = Some r.
Proof.
  induction s as [|c s IH]; intros k r H; simpl in H.
  - destruct (k EmptyString EmptyString) eqn:E; [|discriminate].
    injection H as ->. by exists EmptyString, EmptyString.
  - destruct (k EmptyString (String c s)) eqn:E.
    + injection H as ->. by exists EmptyString, (String c s).
    + destruct (p c); [|discriminate].
      apply IH in H as (m & rest & -> & Hk).
      by exists (String c m), rest.
Qed.

Lemma plus_lazy_inv {R : Type} (p : ascii -> bool) (s : string)
    (k : string -> string -> option R) (r : R) :
  plus_lazy p s k = Some r ->
  exists m rest, s = (m ++ rest)%string /\ k m rest = Some r.
Proof.
  destruct s as [|c s]; simpl; [discriminate|].
  destruct (p c); [|discriminate].
  intros (m & rest & -> & Hk)%star_lazy_inv.
  by exists (String c m), rest.
Qed.

Lemma take_classes_inv (cs : list (ascii -> bool)) :
  forall (s g rest : string),
    take_classes cs s = Some (g, rest) ->
    s = (g ++ rest)%string
    /\ Forall2 (fun (p : ascii -> bool) c => p c = true) cs
         (list_ascii_of_string g).
Proof.
  induction cs as [|p cs IH]; intros s g rest H; simpl in H.
  - injection H as <- <-. split; [reflexivity|constructor].
  - destruct s as [|c s]; [discriminate|].
    destruct (p c) eqn:Hc; [|discriminate].
    destruct (take_classes cs s) as [[m r]|] eqn:E; [|discriminate].
    injection H as <- <-. apply IH in E as [-> Hall].
    split; [reflexivity|]. simpl. by constructor.
Qed.

(** A text of the form [\d{2}:\d{2}:\d{2},\d{3}] is read by
    [time_to_seconds] as whole seconds and whole milliseconds. *)
Lemma stamp_time (s g rest : string) :
  take_classes stamp_classes s = Some (g, rest) ->
  exists A ms : Z,
    time_to_seconds g = Some (inject_Z A + inject_Z ms / 1000)
    /\ (0 <= A < 362440)%Z /\ (0 <= ms < 1000)%Z.
Proof.
  intros [_ H]%take_classes_inv. unfold stamp_classes in H.
  repeat match goal with
         | H : Forall2 _ (_ :: _) (list_ascii_of_string ?g) |- _ =>
             destruct g; cbn in H; inversion H; subst; clear H
         end.
  match goal with
  | H : Forall2 _ [] (list_ascii_of_string ?g) |- _ =>
      destruct g; cbn in H; inversion H; subst; clear H
  end.
  repeat match goal with
         | H : chr _ _ = true |- _ => apply Ascii.eqb_eq in H; subst
         end.
  match goal with
  | |- context [time_to_seconds
                  (String ?h1 (String ?h2 (String _ (String ?m1 (String ?m2
                     (String _ (String ?s1 (String ?s2 (String _
                        (String ?f1 (String ?f2 (String ?f3 _))))))))))))] =>
      pose proof (re_match_timestamp (String h1 (String h2 EmptyString))
                    (String m1 (String m2 EmptyString))
                    (String s1 (String s2 EmptyString)) ","%char
                    (String f1 (String f2 (String f3 EmptyString)))
                    EmptyString) as Hre
  end.
  unfold time_to_seconds. unfold timestamp in Hre.
  cbn [String.append] in Hre. rewrite Hre.
  - cbn [g_hours g_minutes g_seconds g_ms].
    eexists _, _. split; [reflexivity|].
    repeat match goal with
           | H : is_digit _ = true |- _ => apply is_digit_value in H
           end.
    cbn. lia.
  - unfold timestamp_parts, all_digits. cbn.
    repeat match goal with H : is_digit _ = true |- _ => rewrite H end.
    cbn. repeat split; auto.
  - reflexivity.
Qed.

(** What a match consists of. *)
Lemma match_record_inv (s : string) (g : groups) (rest : string) :
  match_record s = Some (g, rest) ->
  exists r2 r3 r4 r5 r6,
    s = (g_index g ++ String nl r2)%string
    /\ all_digits (g_index g) = true /\ g_index g <> EmptyString
    /\ take_classes stamp_classes r2 = Some (g_start g, r3)
    /\ take_classes stamp_classes r4 = Some (g_end g, r5)
    /\ r5 = String nl r6.
Proof.
  unfold match_record.
  intros (c & m & r1 & -> & Hd & Hk)%plus_greedy_inv.
  destruct r1 as [|c1 r2]; [discriminate|].
  destruct (chr nl c1) eqn:Hc1; [|discriminate].
  apply Ascii.eqb_eq in Hc1 as ->.
  destruct (take_classes stamp_classes r2) as [[g2 r3]|] eqn:E2; [|discriminate].
  destruct (take_classes arrow_classes r3) as [[ar r4]|] eqn:E3; [|discriminate].
  destruct (take_classes stamp_classes r4) as [[g3 r5]|] eqn:E4; [|discriminate].
  destruct r5 as [|c5 r6]; [discriminate|].
  destruct (chr nl c5) eqn:Hc5; [|discriminate].
  apply Ascii.eqb_eq in Hc5 as ->.
  apply plus_lazy_inv in Hk as (g4 & r7 & _ & Hk).
  apply star_greedy_inv in Hk as (nls & r8 & _ & _ & Hk).
  destruct (look r8); [|discriminate]. injection Hk as <- <-.
  exists r2, r3, r4, (String nl r6), r6. simpl. by repeat split.
Qed.

Lemma finditer_Forall (P : groups -> Prop) :
  (forall s g rest, match_record s = Some (g, rest) -> P g) ->
  forall (content : string) (skip : nat), Forall P (finditer skip content).
Proof.
  intros HP. induction content as [|c content IH]; intros skip; cbn [finditer].
  - constructor.
  - destruct skip as [|skip]; [|apply IH].
    destruct (match_record (String c content)) as [[g rest]|] eqn:E; [|apply IH].
    constructor; [by eapply HP|apply IH].
Qed.

Lemma int_of_digits_nonneg (s : string) :
  all_digits s = true -> (0 <= int_of_digits s)%Z.
Proof.
  unfold all_digits, int_of_digits.
  assert (H : forall l acc, forallb is_digit l = true -> (0 <= acc)%Z ->
                (0 <= fold_left (fun acc c => 10 * acc + digit_value c) l acc)%Z).
  { induction l as [|c l IH]; intros acc Hl Hacc; simpl; [exact Hacc|].
    simpl in Hl. apply andb_prop in Hl as [Hc Hl]. apply is_digit_value in Hc.
    apply IH; [exact Hl|lia]. }
  intros Hs. by apply H.
Qed.


End MatchInversion.

Section ParsedFacts.
Import Time Srt.

Lemma stamp_value_range (v : Q) : stamp_value v -> 0 <= v /\ v < 362440.
Proof.
  intros (A & ms & -> & HA & Hms).
  assert (Hms0 : 0 <= inject_Z ms).
  { change 0 with (inject_Z 0). rewrite <- Zle_Qle. lia. }
  assert (Hms1 : inject_Z ms < 1000).
  { change 1000 with (inject_Z 1000). rewrite <- Zlt_Qlt. lia. }
  assert (HA0 : 0 <= inject_Z A).
  { change 0 with (inject_Z 0). rewrite <- Zle_Qle. lia. }
  assert (HA1 : inject_Z A <= 362439).
  { change 362439 with (inject_Z 362439). rewrite <- Zle_Qle. lia. }
  assert (0 <= inject_Z ms / 1000) by (apply Qle_shift_div_l; lra).
  assert (inject_Z ms / 1000 < 1) by (apply Qlt_shift_div_r; lra).
  lra.
Qed.

Lemma record_of_match (s : string) (g : groups) (rest : string) :
  match_record s = Some (g, rest) ->
  exists a b,
    stamp_value a /\ stamp_value b
    /\ (0 <= int_of_digits (g_index g))%Z
    /\ record_of g
       = Some (Seg (int_of_digits (g_index g)) a b
                 (replace_nl (strip (g_text g)))).
Proof.
  intros (r2 & r3 & r4 & r5 & r6 & _ & Hd & _ & H2 & H4 & _)%match_record_inv.
  apply stamp_time in H2 as (A & ms & Ha & HA & Hms).
  apply stamp_time in H4 as (B & ms' & Hb & HB & Hms').
  exists (inject_Z A + inject_Z ms / 1000), (inject_Z B + inject_Z ms' / 1000).
  split; [by exists A, ms|]. split; [by exists B, ms'|].
  split; [by apply int_of_digits_nonneg|].
  unfold record_of. by rewrite Ha, Hb.
Qed.

Lemma omap_length_all {A B : Type} (f : A -> option B) (l : list A) :
  Forall (fun x => f x <> None) l -> length (omap f l) = length l.
Proof.
  induction 1 as [|x l Hx Hl IH]; [reflexivity|]. csimpl.
  destruct (f x); [simpl; by rewrite IH|congruence].
Qed.

(** X14.  [parse_srt] yields exactly one segment for each match of its
    pattern: the two timestamps of a match are always accepted by
    [time_to_seconds], so that the handler of its [ValueError] is never
    entered for them.  (The limit that newer versions of Python put on the
    number of digits [int] converts is not modelled.) *)
Theorem X14_one_segment_for_each_match (content : string) :
  Forall (fun g => record_of g <> None) (finditer 0 content)
  /\ length (parse_content content) = length (finditer 0 content).
Proof.
  assert (H : Forall (fun g => record_of g <> None) (finditer 0 content)).
  { apply finditer_Forall. intros s g rest Hm.
    apply record_of_match in Hm as (a & b & _ & _ & _ & ->). discriminate. }
  split; [exact H|].
  unfold parse_content, parse_srt.
  rewrite (Permutation_length (stable_sort_perm _ _)).
  by apply omap_length_all.
Qed.

Lemma lstrip_head (s : string) :
  lstrip s = s ->
  match s with String c _ => is_space c = false | EmptyString => True end.
Proof.
  destruct s as [|c s]; [done|]. simpl.
  destruct (is_space c); [|done].
  intros H. pose proof (lstrip_length s) as Hl. rewrite H in Hl. simpl in Hl. lia.
Qed.

Lemma lstrip_fixed (s : string) :
  match s with String c _ => is_space c = false | EmptyString => True end ->
  lstrip s = s.
Proof. destruct s as [|c s]; [done|]. simpl. by intros ->. Qed.

Lemma lstrip_lstrip (s : string) : lstrip (lstrip s) = lstrip s.
Proof.
  induction s as [|c s IH]; [reflexivity|]. simpl.
  destruct (is_space c) eqn:E; [exact IH|]. simpl. by rewrite E.
Qed.

Lemma rstrip_rstrip (s : string) : rstrip (rstrip s) = rstrip s.
Proof.
  induction s as [|c s IH]; [reflexivity|]. simpl.
  destruct (rstrip s) as [|a r] eqn:E.
  - destruct (is_space c) eqn:Ec; [reflexivity|]. simpl. by rewrite Ec.
  - simpl in *. rewrite IH. reflexivity.
Qed.

Lemma rstrip_head (s : string) :
  match s with String c _ => is_space c = false | EmptyString => True end ->
  match rstrip s with String c _ => is_space c = false | EmptyString => True end.
Proof.
  destruct s as [|c s]; [done|]. simpl. intros Hc.
  destruct (rstrip s); [by rewrite Hc|exact Hc].
Qed.

Lemma nl_is_space (c : ascii) : chr nl c = true -> is_space c = true.
Proof. intros ->%Ascii.eqb_eq. reflexivity. Qed.

Lemma replace_nl_head (s : string) :
  match s with String c _ => is_space c = false | EmptyString => True end ->
  match replace_nl s with
  | String c _ => is_space c = false
  | EmptyString => True
  end.
Proof.
  destruct s as [|c s]; [done|]. simpl. intros Hc.
  destruct (chr nl c) eqn:E; [|exact Hc].
  apply nl_is_space in E. congruence.
Qed.

Lemma replace_nl_empty (s : string) :
  replace_nl s = EmptyString -> s = EmptyString.
Proof. by destruct s. Qed.

Lemma rstrip_replace_nl (s : string) :
  rstrip s = s -> rstrip (replace_nl s) = replace_nl s.
Proof.
  induction s as [|c s IH]; [reflexivity|]. simpl.
  destruct (rstrip s) as [|a r] eqn:E.
  - destruct (is_space c) eqn:Ec; [discriminate|].
    intros [= <-]. simpl.
    destruct (chr nl c) eqn:En; [apply nl_is_space in En; congruence|].
    by rewrite Ec.
  - intros [= Hs]. rewrite IH by congruence.
    destruct (replace_nl s) eqn:Er; [|reflexivity].
    apply replace_nl_empty in Er. congruence.
Qed.

(** Cleaning a clean text changes nothing. *)
Lemma clean_again (t : string) :
  replace_nl (strip (replace_nl (strip t))) = replace_nl (strip t).
Proof.
  assert (Hl : lstrip (strip t) = strip t).
  { unfold strip. apply lstrip_fixed, rstrip_head, lstrip_head, lstrip_lstrip. }
  assert (Hr : rstrip (strip t) = strip t) by apply rstrip_rstrip.
  assert (Hs : strip (replace_nl (strip t)) = replace_nl (strip t)).
  { unfold strip at 1.
    rewrite (lstrip_fixed (replace_nl (strip t)))
      by (by apply replace_nl_head, lstrip_head).
    by apply rstrip_replace_nl. }
  rewrite Hs. apply replace_nl_id, replace_nl_no_nl.
Qed.

Lemma parsed_all (content : string) : Forall parsed_ok (parse_content content).
Proof.
  unfold parse_content, parse_srt. rewrite stable_sort_perm.
  apply Forall_forall. intros seg Hseg.
  apply list_elem_of_omap in Hseg as (g & Hg & Hrec).
  assert (H : Forall (fun g => forall seg, record_of g = Some seg ->
                                parsed_ok seg) (finditer 0 content)).
  { apply finditer_Forall. intros s g' rest Hm seg' Hrec'.
    apply record_of_match in Hm as (a & b & Ha & Hb & Hi & Hr).
    rewrite Hr in Hrec'. injection Hrec' as <-.
    repeat split; auto. apply clean_again. }
  rewrite Forall_forall in H. by eapply H.
Qed.

(** X15.  Every segment that [parse_srt] returns has an index that is not
    negative, times that are not negative and below 100 hours 40 minutes and
    40 seconds (the minutes and the seconds of a timestamp may go up to 99),
    and a text without line feed and without white space at either end. *)
Theorem X15_parsed_segments_are_clean (content : string) :
  Forall (fun seg =>
            (0 <= index seg)%Z
            /\ (0 <= start_time seg /\ start_time seg < 362440)
            /\ (0 <= end_time seg /\ end_time seg < 362440)
            /\ no_nl (text seg) = true
            /\ strip (text seg) = text seg)
    (parse_content content).
Proof.
  eapply Forall_impl; [apply parsed_all|].
  intros seg (Hi & Ha & Hb & Ht). simpl.
  split; [exact Hi|]. split; [by apply stamp_value_range|].
  split; [by apply stamp_value_range|]. by apply clean_text.
Qed.




(** *** Timestamps with a dot *)

Lemma no_comma_app (a b : string) :
  no_comma (a ++ b) = (no_comma a && no_comma b)%bool.
Proof.
  unfold no_comma. induction a as [|c a IH]; simpl; [reflexivity|].
  by rewrite IH, andb_assoc.
Qed.

Lemma stamp_has_comma (s g rest : string) :
  take_classes stamp_classes s = Some (g, rest) -> no_comma g = false.
Proof.
  intros [_ H]%take_classes_inv. unfold stamp_classes in H.
  repeat match goal with
         | H : Forall2 _ (_ :: _) (list_ascii_of_string ?g) |- _ =>
             destruct g; cbn in H; inversion H; subst; clear H
         end.
  repeat match goal with
         | H : chr _ _ = true |- _ => apply Ascii.eqb_eq in H; subst
         end.
  unfold no_comma. cbn.
  repeat (rewrite ?andb_false_r, ?andb_false_l; try reflexivity).
Qed.

Lemma match_needs_comma (s : string) :
  no_comma s = true -> match_record s = None.
Proof.
  intros Hno. destruct (match_record s) as [[g rest]|] eqn:E; [|reflexivity].
  apply match_record_inv in E as (r2 & r3 & r4 & r5 & r6 & -> & _ & _ & H2 & _).
  pose proof (stamp_has_comma _ _ _ H2) as Hc.
  apply take_classes_inv in H2 as [-> _].
  rewrite no_comma_app in Hno. apply andb_prop in Hno as [_ Hno].
  change (String nl (g_start g ++ r3))
    with (String nl EmptyString ++ (g_start g ++ r3))%string in Hno.
  rewrite !no_comma_app in Hno.
  apply andb_prop in Hno as [_ [Hno _]%andb_prop]. congruence.
Qed.

Lemma finditer_no_comma (content : string) :
  forall skip, no_comma content = true -> finditer skip content = [].
Proof.
  induction content as [|c content IH]; intros skip Hno; cbn [finditer];
    [reflexivity|].
  assert (Hno' : no_comma content = true).
  { unfold no_comma in *. simpl in Hno. by apply andb_prop in Hno as [_ ?]. }
  destruct skip; [|by apply IH].
  rewrite match_needs_comma by exact Hno. by apply IH.
Qed.

(** X16.  The pattern of [parse_srt] asks for a comma in front of the
    milliseconds: a content without any comma, such as a file whose
    timestamps are written with a dot (which [time_to_seconds] itself
    accepts), gives no segment at all. *)
Theorem X16_timestamps_need_a_comma (content : string) :
  no_comma content = true -> parse_content content = [].
Proof.
  intros Hno. unfold parse_content. by rewrite finditer_no_comma.
Qed.

(** A record whose timestamps are written with a dot. *)
Lemma X16_witness :
  parse_content
    ("1" ++ String nl ("00:00:01.000 --> 00:00:02.000"
     ++ String nl ("hello" ++ String nl (String nl EmptyString))))
  = [].
Proof.
  apply (X16_timestamps_need_a_comma
           ("1" ++ String nl ("00:00:01.000 --> 00:00:02.000"
            ++ String nl ("hello" ++ String nl (String nl EmptyString))))).
  reflexivity.
Defined.

End ParsedFacts.

(** ** [main]: the files it writes *)


Section LoopFacts.
Import Builder Srt.

Lemma string_app_nil_r (s : string) : (s ++ EmptyString)%string = s.
Proof. induction s as [|c s IH]; simpl; [reflexivity|]. by rewrite IH. Qed.

Lemma write_srt_app (l1 l2 : list segment) :
  write_srt (l1 ++ l2) = (write_srt l1 ++ write_srt l2)%string.
Proof.
  induction l1 as [|s l1 IH]; [reflexivity|].
  simpl. by rewrite IH, string_app_assoc.
Qed.

Lemma write_srt_snoc (l : list segment) (s : segment) :
  write_srt (l ++ [s]) = (write_srt l ++ srt_record s)%string.
Proof.
  rewrite write_srt_app. simpl. by rewrite string_app_nil_r.
Qed.

Lemma loop_negate (a : Main.args) :
  Main.negate a = true ->
  forall (l : list region) (k : nat) (st : Main.loop_state),
    fold_left (Main.loop_step a) (combine (seq k (length l)) l) st
    = Main.LoopState (Main.cur_pos st) (Main.region_id st)
        (Main.silence_segments st)
        (Main.f st ++ write_srt (imap (fun i => event_record (k + i)) l)).
Proof.
  intros Hn. induction l as [|r l IH]; intros k st.
  - simpl. rewrite string_app_nil_r. by destruct st.
  - cbn [length seq combine fold_left]. rewrite IH.
    unfold Main.loop_step. rewrite Hn.
    cbn [Main.cur_pos Main.region_id Main.silence_segments Main.f].
    rewrite string_app_assoc. do 2 f_equal.
    cbn [imap write_srt fold_right]. rewrite Nat.add_0_r. f_equal.
    f_equal. apply imap_ext. intros i x _. simpl. f_equal. lia.
Qed.

(** Without [--negate] the loop keeps [cur_pos] and [silence_segments] as
    [Builder.step] does; the report counts the silences that were kept. *)
Lemma loop_silence (a : Main.args) :
  Main.negate a = false ->
  forall (l : list region) (k : nat) (st : Main.loop_state),
    let st' := fold_left (Main.loop_step a) (combine (seq k (length l)) l) st in
    let b :=
      fold_left (step (Main.min_silence_dur a)) l
        (State (Main.cur_pos st) (Main.silence_segments st)) in
    Main.cur_pos st' = Builder.cur_pos b
    /\ Main.silence_segments st' = Builder.silence_segments b
    /\ match Main.file_to_fix a with
       | None =>
           Main.region_id st
           = (Z.of_nat (length (Main.silence_segments st)) + 1)%Z ->
           Main.f st
           = write_srt (imap silence_record (Main.silence_segments st)) ->
           Main.f st'
           = write_srt (imap silence_record (Main.silence_segments st'))
       | Some _ => Main.f st' = Main.f st
       end.
Proof.
  intros Hn. induction l as [|r l IH]; intros k st.
  - simpl. by destruct (Main.file_to_fix a).
  - cbn [length seq combine fold_left]. cbv zeta.
    specialize (IH (S k) (Main.loop_step a st (k, r))).
    cbv zeta in IH. destruct IH as (Hc & Hs & Hf).
    assert (Hstep :
      State (Main.cur_pos (Main.loop_step a st (k, r)))
        (Main.silence_segments (Main.loop_step a st (k, r)))
      = step (Main.min_silence_dur a)
          (State (Main.cur_pos st) (Main.silence_segments st)) r).
    { unfold Main.loop_step, step. rewrite Hn. simpl.
      destruct (Qltb _ (Main.min_silence_dur a)); [reflexivity|].
      by destruct (Main.file_to_fix a). }
    rewrite Hstep in Hc, Hs. split; [exact Hc|]. split; [exact Hs|].
    destruct (Main.file_to_fix a) as [file|] eqn:Ef.
    + rewrite Hf. unfold Main.loop_step. rewrite Hn, Ef. simpl.
      by destruct (Qltb _ (Main.min_silence_dur a)).
    + intros Hid Hfile. apply Hf.
      * unfold Main.loop_step. rewrite Hn, Ef. simpl.
        destruct (Qltb _ (Main.min_silence_dur a)); simpl; [exact Hid|].
        rewrite length_app. simpl. lia.
      * unfold Main.loop_step. rewrite Hn, Ef. simpl.
        destruct (Qltb _ (Main.min_silence_dur a)); simpl; [exact Hfile|].
        rewrite imap_app, write_srt_app. simpl.
        rewrite string_app_nil_r, Hfile, Hid. unfold silence_record.
        rewrite Nat.add_0_r. reflexivity.
Qed.


Lemma loop_report (a : Main.args) (audio_events : list region) :
  Main.file_to_fix a = None ->
  Main.f (Main.loop a audio_events) = write_srt (report a audio_events).
Proof.
  intros Ef. unfold report. destruct (Main.negate a) eqn:Hn.
  - unfold Main.loop, Main.enumerate. by rewrite (loop_negate a Hn).
  - destruct (loop_silence a Hn audio_events 0 (Main.LoopState 0 1 [] EmptyString))
      as (_ & Hs & Hf).
    rewrite Ef in Hf. unfold Main.loop, Main.enumerate.
    rewrite Hf; [|reflexivity..]. by rewrite Hs.
Qed.

Lemma loop_no_report (a : Main.args) (audio_events : list region)
    (file : option string) :
  Main.negate a = false -> Main.file_to_fix a = Some file ->
  Main.f (Main.loop a audio_events) = EmptyString.
Proof.
  intros Hn Ef.
  destruct (loop_silence a Hn audio_events 0 (Main.LoopState 0 1 [] EmptyString))
    as (_ & _ & Hf).
  by rewrite Ef in Hf.
Qed.

End LoopFacts.

Section ReportFacts.
Import Builder Srt.











End ReportFacts.

Section MainFacts.
Import Builder Srt.

(** X18.  Without [--file_to_fix] the program writes one report and nothing
    else: with [--negate] one record for every audio event, numbered by its
    position and named "Event n"; otherwise one record for every silence
    that the Main.loop kept, named "Silence n", numbered from 1 without a gap
    (a pause that is too short takes no number). *)
Theorem X18_report_lists_events_or_silences
    (a : Main.args) (audio_events : list region)
    (load_ok : bool) (save_ok : Z -> Q -> Q -> bool) :
  Main.file_to_fix a = None ->
  main a audio_events load_ok save_ok
  = Main.Result (write_srt (report a audio_events)) None None.
Proof.
  intros Ef. unfold main. rewrite Ef. by rewrite loop_report.
Qed.

Lemma X18_witness :
  main (Main.Args false None default_min_silence_dur false false)
    [Region 1 2; Region (201 # 100) 3; Region 5 6] true (fun _ _ _ => true)
  = Main.Result
      (write_srt
         [Seg 1 0 (99 # 100) "Silence 1";
          Seg 2 (301 # 100) (499 # 100) "Silence 2"])
      None None.
Proof.
  exact (X18_report_lists_events_or_silences
           (Main.Args false None default_min_silence_dur false false)
           [Region 1 2; Region (201 # 100) 3; Region 5 6] true
           (fun _ _ _ => true) eq_refl).
Defined.









(** X21.  When the file to fix cannot be read, or [parse_srt] finds no
    record in it, the program stops after the Main.loop over the audio events:
    the output file is left empty, non-speech.srt is not written and nothing
    is raised, in both modes and also with [--non-speech-dir]. *)
Theorem X21_nothing_parsed_leaves_empty_output
    (a : Main.args) (audio_events : list region)
    (load_ok : bool) (save_ok : Z -> Q -> Q -> bool) (file : option string) :
  Main.negate a = false ->
  Main.file_to_fix a = Some file ->
  parse_file file = [] ->
  main a audio_events load_ok save_ok = Main.Result EmptyString None None.
Proof.
  intros Hn Ef Hp. unfold main. rewrite Ef, Hp.
  by rewrite (loop_no_report a audio_events file Hn Ef).
Qed.

Lemma X21_witness :
  main (Main.Args false (Some None) default_min_silence_dur false true)
    [Region 1 2; Region 5 6] true (fun _ _ _ => true)
  = Main.Result EmptyString None None.
Proof.
  exact (X21_nothing_parsed_leaves_empty_output
           (Main.Args false (Some None) default_min_silence_dur false true)
           [Region 1 2; Region 5 6] true (fun _ _ _ => true) None
           eq_refl eq_refl eq_refl).
Defined.

End MainFacts.

Section ExpandFile.
Import Builder Srt Expand.








End ExpandFile.

Section ExpandFileFacts.
Import Builder Srt.



End ExpandFileFacts.

Section NonSpeechFile.
Import Builder Srt Expand.











End NonSpeechFile.

Section NonSpeechFileFacts.
Import Builder Srt.



End NonSpeechFileFacts.
